(** * The realtime session coordinator of the chess platform

    Two coordinators live in the repository and both are embedded here:

    - [Server]: the Node process of [server/routes.ts], which keeps every
      room in one in-memory [Map] and embeds the chess.js rules engine;
    - [Worker]: the Cloudflare worker of [worker/src/index.ts], with one
      [Room] durable object per room id and a [Matchmaking] object.

    Handlers are functions from a state to a new state and the list of
    frames they send, in the order the code sends them.  A handler body is
    taken as one step.  Only the [game_over] handlers await; they are
    given a second time await by await ([ServerAsync], [WorkerAsync]),
    where other events come in between, the store refuses what its columns
    cannot hold and numbers are doubles.  Their one-step form is the
    handler that nothing overlaps, on values the store takes
    ([server_alone_step], [worker_alone_step]).  JavaScript numbers that
    hold ids, ratings and counters are integers of [Z].

    Around the coordinators, the password records of both servers, the
    session tokens of the worker (with its hex and base64 helpers) and the
    invite routes of the Node server are embedded as well; strings there
    hold code units below 256. *)

From stdpp Require Import base option list strings gmap.
From Stdlib Require Import ZArith NArith Lia.
From Stdlib Require Strings.Byte Numbers.DecimalString.

Local Open Scope Z_scope.
Local Open Scope string_scope.
Local Open Scope list_scope.

(** ** Connections, frames and JavaScript idioms *)

(** A [WebSocket] object, compared by identity ([===]) in the source. *)
Definition conn := nat.

(** The seat colours of the wire protocol: ['w'], ['b'] and ['s']. *)
Inductive role := W | B | S.

#[global] Instance role_eq_dec : EqDecision role.
Proof. solve_decision. Defined.

(** Frames sent by a coordinator (the payload given to [JSON.stringify]). *)
Inductive out_msg :=
| Stats (count : nat)
| RoleMsg (r : role) (waiting : bool)
| StateMsg (fen : string)
| OpponentInfo (id : Z) (username : string)
| PlayerInfo (color : role) (id : Z) (username : string)
| StartGame (color : role)
| MoveMsg (from to promotion fen : string) (senderId : option Z)
| GameOverMsg (result : option string)
| MatchFound (roomId : string).

(** One [ws.send(frame)]. *)
Definition sent := (conn * out_msg)%type.

(** Truthiness of an optional number: [undefined] and [0] are falsy. *)
Definition truthy_num (o : option Z) : bool :=
  match o with
  | Some n => negb (Z.eqb n 0)
  | None => false
  end.

(** Truthiness of an optional string: [undefined] and [""] are falsy. *)
Definition truthy_str (o : option string) : bool :=
  match o with
  | Some s => negb (String.eqb s "")
  | None => false
  end.

(** [x || d] on an optional string. *)
Definition or_str (o : option string) (d : string) : string :=
  match o with
  | Some s => if String.eqb s "" then d else s
  | None => d
  end.

(** [x || 0] and [x ?? 0] on an optional number (they agree on numbers). *)
Definition or_zero (o : option Z) : Z := default 0 o.

(** A JavaScript [Set] of connections: insertion ordered, no duplicates. *)
Definition set_add (c : conn) (s : list conn) : list conn :=
  if decide (c ∈ s) then s else s ++ [c].

Definition set_delete (c : conn) (s : list conn) : list conn :=
  filter (λ x, x ≠ c) s.

Definition set_has (c : conn) (s : list conn) : bool :=
  bool_decide (c ∈ s).

(** [o === ws] for a seat slot. *)
Definition is_conn (o : option conn) (ws : conn) : bool :=
  bool_decide (o = Some ws).

(** Sends [m] to every member of [s] for which [keep] holds, in [forEach]
    order. *)
Definition fan_out (s : list conn) (keep : conn → bool) (m : out_msg)
  : list sent :=
  (λ c, (c, m)) <$> List.filter keep s.

(** ** The rules engine

    chess.js is a third-party package: the coordinator only constructs a
    game, asks it to play a move and reads the resulting position.
    [chess_move] is [None] when [move] returns [null] or throws, in which
    case the game object is the one it was. *)
Class RulesEngine := {
  Chess : Type;
  chess_new : Chess;
  chess_load : option string → option Chess;
  chess_move : Chess → string → string → string → option Chess;
  chess_fen : Chess → string
}.

(** What the environment decides for one event: which sockets report
    [readyState === OPEN], and the id [Math.random] yields. *)
Record Env := {
  ws_open : conn → bool;
  rand_id : string
}.

(** A JavaScript [Map]: insertion ordered, [set] on a present key keeps
    its place. *)
Section JsMap.
Context {K V : Type} `{EqDecision K}.

Fixpoint jmap_get (k : K) (m : list (K * V)) : option V :=
  match m with
  | [] => None
  | (k', v) :: m' => if decide (k = k') then Some v else jmap_get k m'
  end.

Fixpoint jmap_set (k : K) (v : V) (m : list (K * V)) : list (K * V) :=
  match m with
  | [] => [(k, v)]
  | (k', v') :: m' =>
      if decide (k = k') then (k, v) :: m' else (k', v') :: jmap_set k v m'
  end.

Definition jmap_delete (k : K) (m : list (K * V)) : list (K * V) :=
  filter (λ p, p.1 ≠ k) m.

Definition jmap_has (k : K) (m : list (K * V)) : bool :=
  bool_decide (is_Some (jmap_get k m)).
End JsMap.

(** ** The Node coordinator: [server/routes.ts] and its storage *)
Module Server.

(** *** [DbStorage]: the columns the settlement touches *)
Record User := {
  rating : option Z;
  gamesPlayed : option Z
}.

Record Game := {
  whitePlayerId : option Z;
  blackPlayerId : option Z;
  pgn : string;
  result : option string
}.

Record Db := {
  users : gmap Z User;
  games : list Game
}.

Definition getUser (id : Z) (d : Db) : option User := users d !! id.

(** [updateUserRating]: nothing for an unknown user; otherwise the rating
    is overwritten and the games counter is read, incremented, written.
    Here the read and the write are one step and the store takes the two
    values; [ServerAsync.updateUserRating] has the two awaits and the
    32 bits of the columns. *)
Definition updateUserRating (userId newRating : Z) (d : Db) : Db :=
  match getUser userId d with
  | None => d
  | Some existing =>
      {| users :=
           <[userId := {| rating := Some newRating;
                          gamesPlayed := Some (or_zero (gamesPlayed existing) + 1) |}]>
             (users d);
         games := games d |}
  end.

Definition createGame (g : Game) (d : Db) : Db :=
  {| users := users d; games := games d ++ [g] |}.

(** The rating of a user as [(await storage.getUser(id))?.rating || 0]. *)
Definition rating_or_zero (id : Z) (d : Db) : Z :=
  or_zero (getUser id d ≫= rating).

(** The three branches of the [game_over] handler on [winnerColor]. *)
Definition settle (whiteId blackId : Z) (winnerColor : option role) (d : Db)
  : Db :=
  match winnerColor with
  | Some W =>
      let d1 :=
        match getUser whiteId d with
        | Some whiteUser =>
            updateUserRating whiteId (or_zero (rating whiteUser) + 3) d
        | None => d
        end in
      updateUserRating blackId (rating_or_zero blackId d1) d1
  | Some B =>
      let d1 :=
        match getUser blackId d with
        | Some blackUser =>
            updateUserRating blackId (or_zero (rating blackUser) + 3) d
        | None => d
        end in
      updateUserRating whiteId (rating_or_zero whiteId d1) d1
  | _ =>
      let d1 := updateUserRating whiteId (rating_or_zero whiteId d) d in
      updateUserRating blackId (rating_or_zero blackId d1) d1
  end.

Section WithEngine.
Context `{RulesEngine}.

(** *** Rooms *)
Record Room := {
  room_id : string;
  clients : list conn;
  fen : option string;
  white : option conn;
  black : option conn;
  whiteId : option Z;
  blackId : option Z;
  whiteUsername : option string;
  blackUsername : option string;
  started : bool;
  spectators : list conn;
  game : option Chess
}.

Record Ticket := {
  t_ws : conn;
  t_userId : Z
}.

(** The module-level tables, the per-connection [currentUserId] and the
    database.  [userConnections] only serves the invite relay and is
    left out. *)
Record State := {
  rooms : list (string * Room);
  matchQueue : list Ticket;
  currentUserId : gmap conn Z;
  db : Db
}.

Definition init (d : Db) : State :=
  {| rooms := []; matchQueue := []; currentUserId := ∅; db := d |}.

Definition with_rooms (rs : list (string * Room)) (st : State) : State :=
  {| rooms := rs; matchQueue := matchQueue st;
     currentUserId := currentUserId st; db := db st |}.

Definition with_queue (q : list Ticket) (st : State) : State :=
  {| rooms := rooms st; matchQueue := q;
     currentUserId := currentUserId st; db := db st |}.

Definition with_db (d : Db) (st : State) : State :=
  {| rooms := rooms st; matchQueue := matchQueue st;
     currentUserId := currentUserId st; db := d |}.

Definition with_clients (cs : list conn) (r : Room) : Room :=
  {| room_id := room_id r; clients := cs; fen := fen r; white := white r;
     black := black r; whiteId := whiteId r; blackId := blackId r;
     whiteUsername := whiteUsername r; blackUsername := blackUsername r;
     started := started r; spectators := spectators r; game := game r |}.

Definition with_spectators (ss : list conn) (r : Room) : Room :=
  {| room_id := room_id r; clients := clients r; fen := fen r;
     white := white r; black := black r; whiteId := whiteId r;
     blackId := blackId r; whiteUsername := whiteUsername r;
     blackUsername := blackUsername r; started := started r;
     spectators := ss; game := game r |}.

Definition with_started (b : bool) (r : Room) : Room :=
  {| room_id := room_id r; clients := clients r; fen := fen r;
     white := white r; black := black r; whiteId := whiteId r;
     blackId := blackId r; whiteUsername := whiteUsername r;
     blackUsername := blackUsername r; started := b;
     spectators := spectators r; game := game r |}.

Definition with_seats (w b : option conn) (r : Room) : Room :=
  {| room_id := room_id r; clients := clients r; fen := fen r;
     white := w; black := b; whiteId := whiteId r;
     blackId := blackId r; whiteUsername := whiteUsername r;
     blackUsername := blackUsername r; started := started r;
     spectators := spectators r; game := game r |}.

Definition with_game (g : option Chess) (f : option string) (r : Room)
  : Room :=
  {| room_id := room_id r; clients := clients r; fen := f;
     white := white r; black := black r; whiteId := whiteId r;
     blackId := blackId r; whiteUsername := whiteUsername r;
     blackUsername := blackUsername r; started := started r;
     spectators := spectators r; game := g |}.

(** [white = ws], with the id and the name recorded when given. *)
Definition take_white (ws : conn) (userId : option Z)
    (username : option string) (r : Room) : Room :=
  {| room_id := room_id r; clients := clients r; fen := fen r;
     white := Some ws; black := black r;
     whiteId := if truthy_num userId then userId else whiteId r;
     blackId := blackId r;
     whiteUsername :=
       match username with Some u => Some u | None => whiteUsername r end;
     blackUsername := blackUsername r; started := started r;
     spectators := spectators r; game := game r |}.

Definition take_black (ws : conn) (userId : option Z)
    (username : option string) (r : Room) : Room :=
  {| room_id := room_id r; clients := clients r; fen := fen r;
     white := white r; black := Some ws;
     whiteId := whiteId r;
     blackId := if truthy_num userId then userId else blackId r;
     whiteUsername := whiteUsername r;
     blackUsername :=
       match username with Some u => Some u | None => blackUsername r end;
     started := started r;
     spectators := spectators r; game := game r |}.

(** The room literal of the [join] handler. *)
Definition new_room (roomId : string) : Room :=
  {| room_id := roomId; clients := []; fen := Some (chess_fen chess_new);
     white := None; black := None; whiteId := None; blackId := None;
     whiteUsername := None; blackUsername := None; started := false;
     spectators := []; game := Some chess_new |}.

(** The seat chain of the [join] handler: white if free, else black if
    free, else the spectator set. *)
Definition assign_seat (ws : conn) (userId : option Z)
    (username : option string) (r : Room) : Room * role :=
  match white r with
  | None => (take_white ws userId username r, W)
  | Some _ =>
      match black r with
      | None => (take_black ws userId username r, B)
      | Some _ => (with_spectators (set_add ws (spectators r)) r, S)
      end
  end.

Definition both_seated (r : Room) : bool :=
  match white r, black r with
  | Some _, Some _ => true
  | _, _ => false
  end.

(** [id && username] on a seat identity. *)
Definition known (id : option Z) (name : option string) : bool :=
  truthy_num id && truthy_str name.

Definition opponent_info (id : option Z) (name : option string) : out_msg :=
  OpponentInfo (or_zero id) (or_str name "").

Definition player_info (c : role) (id : option Z) (name : option string)
  : out_msg :=
  PlayerInfo c (or_zero id) (or_str name "").

(** The block under [if (room.white && room.black)]. *)
Definition join_notices (ws : conn) (r : Room) : Room * list sent :=
  match white r, black r with
  | Some w, Some b =>
      let opp :=
        if is_conn (white r) ws && known (blackId r) (blackUsername r)
        then [(ws, opponent_info (blackId r) (blackUsername r))]
        else if is_conn (black r) ws && known (whiteId r) (whiteUsername r)
        then [(ws, opponent_info (whiteId r) (whiteUsername r))]
        else [] in
      let infos :=
        if set_has ws (spectators r)
        then (if known (whiteId r) (whiteUsername r)
              then [(ws, player_info W (whiteId r) (whiteUsername r))]
              else [])
             ++ (if known (blackId r) (blackUsername r)
                 then [(ws, player_info B (blackId r) (blackUsername r))]
                 else [])
        else [] in
      if started r then (r, opp ++ infos)
      else
        (with_started true r,
         opp ++ infos
         ++ (if truthy_num (whiteId r) && truthy_num (blackId r)
                && truthy_str (whiteUsername r)
                && truthy_str (blackUsername r)
             then [(w, opponent_info (blackId r) (blackUsername r));
                   (b, opponent_info (whiteId r) (whiteUsername r))]
             else [])
         ++ [(w, StartGame W); (b, StartGame B)])
  | _, _ => (r, [])
  end.

Definition everyone : conn → bool := λ _, true.
Definition others (ws : conn) : conn → bool := λ c, bool_decide (c ≠ ws).

(** [msg.type === 'join'] *)
Definition handle_join (ws : conn) (roomId : string) (userId : option Z)
    (username : option string) (st : State) : State * list sent :=
  let room0 := default (new_room roomId) (jmap_get roomId (rooms st)) in
  let room1 := with_clients (set_add ws (clients room0)) room0 in
  let '(room2, role) := assign_seat ws userId username room1 in
  let stats :=
    fan_out (clients room2) everyone (Stats (length (clients room2))) in
  let waiting := negb (bool_decide (role = S)) && negb (both_seated room2) in
  let state :=
    if truthy_str (fen room2) then [(ws, StateMsg (or_str (fen room2) ""))]
    else [] in
  let '(room3, notices) := join_notices ws room2 in
  (with_rooms (jmap_set roomId room3 (rooms st)) st,
   stats ++ [(ws, RoleMsg role waiting)] ++ state ++ notices).

(** The [try] block of the [move] handler, on the game [g] of [room]. *)
Definition play_move (ws : conn) (roomId from to promotion : string)
    (g : Chess) (room : Room) (st : State) : State * list sent :=
  match chess_move g from to promotion with
  | None => (st, [])
  | Some g' =>
      let room' := with_game (Some g') (Some (chess_fen g')) room in
      (with_rooms (jmap_set roomId room' (rooms st)) st,
       fan_out (clients room') (others ws)
         (MoveMsg from to promotion (chess_fen g') (currentUserId st !! ws)))
  end.

(** [msg.type === 'move'].  The [fen] field a client puts in the frame
    is not read. *)
Definition handle_move (ws : conn) (roomId : string)
    (from to promotion : option string) (st : State) : State * list sent :=
  match jmap_get roomId (rooms st) with
  | None => (st, [])
  | Some room =>
      if truthy_str from && truthy_str to then
        match game room with
        | Some g =>
            play_move ws roomId (or_str from "") (or_str to "")
              (or_str promotion "q") g room st
        | None =>
            match chess_load (if truthy_str (fen room) then fen room else None) with
            | None => (st, [])
            | Some g =>
                let room1 := with_game (Some g) (fen room) room in
                play_move ws roomId (or_str from "") (or_str to "")
                  (or_str promotion "q") g room1
                  (with_rooms (jmap_set roomId room1 (rooms st)) st)
            end
        end
      else (st, [])
  end.

(** [msg.type === 'game_over'], run with nothing in between
    ([ServerAsync.game_over] has its awaits). *)
Definition handle_game_over (ws : conn) (roomId : string)
    (res : option string) (winnerColor : option role) (st : State)
  : State * list sent :=
  match jmap_get roomId (rooms st) with
  | None => (st, [])
  | Some room =>
      let d :=
        if truthy_num (whiteId room) && truthy_num (blackId room)
        then
          createGame
            {| whitePlayerId := whiteId room;
               blackPlayerId := blackId room;
               pgn := or_str (fen room) "";
               result := res |}
            (settle (or_zero (whiteId room)) (or_zero (blackId room))
               winnerColor (db st))
        else db st in
      (with_db d st, fan_out (clients room) (others ws) (GameOverMsg res))
  end.

Definition enqueue (ws : conn) (uid : Z) (st : State) : State :=
  with_queue (matchQueue st ++ [{| t_ws := ws; t_userId := uid |}]) st.

(** [msg.type === 'find_match']; [userId] is [None] when the field is
    not a number. *)
Definition handle_find_match (e : Env) (ws : conn) (userId : option Z)
    (st : State) : State * list sent :=
  match userId with
  | None => (st, [])
  | Some uid =>
      match list_find (λ t, t_userId t = uid) (matchQueue st) with
      | Some (i, existing) =>
          (with_queue
             (<[i := {| t_ws := ws; t_userId := t_userId existing |}]>
                (matchQueue st)) st, [])
      | None =>
          match list_find (λ t, t_userId t ≠ uid) (matchQueue st) with
          | Some (opponentIdx, opponent) =>
              let q := delete opponentIdx (matchQueue st) in
              if ws_open e (t_ws opponent)
              then (with_queue q st,
                    [(ws, MatchFound (rand_id e));
                     (t_ws opponent, MatchFound (rand_id e))])
              else (enqueue ws uid (with_queue q st), [])
          | None => (enqueue ws uid st, [])
          end
      end
  end.

(** [msg.type === 'auth'] *)
Definition handle_auth (ws : conn) (userId : option Z) (st : State)
  : State * list sent :=
  match userId with
  | Some uid =>
      if truthy_num userId
      then ({| rooms := rooms st; matchQueue := matchQueue st;
               currentUserId := <[ws := uid]> (currentUserId st);
               db := db st |}, [])
      else (st, [])
  | None => (st, [])
  end.

(** The body of [rooms.forEach] in the [close] handler. *)
Definition close_room (ws : conn) (r : Room) : Room * list sent :=
  if set_has ws (clients r) then
    let cs := set_delete ws (clients r) in
    (with_spectators (set_delete ws (spectators r))
       (with_seats (if is_conn (white r) ws then None else white r)
                   (if is_conn (black r) ws then None else black r)
                   (with_clients cs r)),
     fan_out cs everyone (Stats (length cs)))
  else (r, []).

(** [ws.on('close')] *)
Definition handle_close (ws : conn) (st : State) : State * list sent :=
  let q := filter (λ t, t_ws t ≠ ws) (matchQueue st) in
  (with_rooms ((λ kr, (kr.1, (close_room ws kr.2).1)) <$> rooms st)
     (with_queue q st),
   concat ((λ kr, (close_room ws kr.2).2) <$> rooms st)).

(** *** Events

    The frames that read or change the tables.  Chat, draw and voice
    frames are relayed to the room and change nothing; they are left
    out. *)
Inductive client_msg :=
| Auth (userId : option Z)
| FindMatch (userId : option Z)
| Join (roomId : string) (userId : option Z) (username : option string)
| Move (roomId : string) (from to promotion fen : option string)
| GameOver (roomId : string) (res : option string)
    (winnerColor : option role).

Inductive event :=
| Message (e : Env) (ws : conn) (m : client_msg)
| Close (ws : conn).

Definition game_over (e : Env) (ws : conn) (roomId : string)
    (res : option string) (winnerColor : option role) : event :=
  Message e ws (GameOver roomId res winnerColor).

Definition step (ev : event) (st : State) : State * list sent :=
  match ev with
  | Message e ws (Auth userId) => handle_auth ws userId st
  | Message e ws (FindMatch userId) => handle_find_match e ws userId st
  | Message e ws (Join roomId userId username) =>
      handle_join ws roomId userId username st
  | Message e ws (Move roomId from to promotion _) =>
      handle_move ws roomId from to promotion st
  | Message e ws (GameOver roomId res winnerColor) =>
      handle_game_over ws roomId res winnerColor st
  | Close ws => handle_close ws st
  end.

(** Events handled one at a time, in arrival order. *)
Fixpoint run (evs : list event) (st : State) : State * list sent :=
  match evs with
  | [] => (st, [])
  | ev :: evs' =>
      let '(st1, out1) := step ev st in
      let '(st2, out2) := run evs' st1 in
      (st2, out1 ++ out2)
  end.

Inductive reachable (d : Db) : State → Prop :=
| reach_init : reachable d (init d)
| reach_step ev st : reachable d st → reachable d (step ev st).1.
End WithEngine.
End Server.

(** ** The worker coordinator: [worker/src/index.ts] *)
Module Worker.

(** *** The D1 tables the settlement touches *)
Record Row := {
  rating : option Z;
  games_played : option Z;
  wins : option Z;
  losses : option Z;
  draws : option Z
}.

Record GameRow := {
  white_player_id : Z;
  black_player_id : Z;
  pgn : string;
  result : string;
  created_at : Z
}.

Record Db := {
  users : gmap Z Row;
  games : list GameRow
}.

Inductive field := Wins | Losses | Draws.

#[global] Instance field_eq_dec : EqDecision field.
Proof. solve_decision. Defined.

Definition bump (f g : field) : Z := if decide (f = g) then 1 else 0.

(** The row [inc] writes back over [row], for counters that are added
    exactly; [WorkerAsync.updated] adds doubles. *)
Definition updated (row : Row) (f : field) (ratingDelta : Z) : Row :=
  {| rating := Some (or_zero (rating row) + ratingDelta);
     games_played := Some (or_zero (games_played row) + 1);
     wins := Some (or_zero (wins row) + bump f Wins);
     losses := Some (or_zero (losses row) + bump f Losses);
     draws := Some (or_zero (draws row) + bump f Draws) |}.

(** The [inc] closure of [handleGameOver]: [SELECT], then [UPDATE]. *)
Definition inc (userId : Z) (f : field) (ratingDelta : Z) (d : Db) : Db :=
  match users d !! userId with
  | None => d
  | Some row =>
      {| users := <[userId := updated row f ratingDelta]> (users d);
         games := games d |}
  end.

(** *** The room object *)
Record Meta := {
  m_id : option Z;
  m_username : option string
}.

Definition no_meta : Meta := {| m_id := None; m_username := None |}.

Record RoomConn := {
  c_userId : option Z;
  c_username : option string;
  c_role : role
}.

(** The value [persist] writes under the key ["room"]. *)
Record Stored := {
  s_fen : option string;
  s_started : bool;
  s_whiteMeta : Meta;
  s_blackMeta : Meta
}.

Record Room := {
  fen : option string;
  started : bool;
  white : option conn;
  black : option conn;
  whiteMeta : Meta;
  blackMeta : Meta;
  sockets : list (conn * RoomConn)
}.

(** What a method does to the outside: a frame sent, or an access to the
    durable storage of the object. *)
Inductive effect :=
| Send (c : conn) (m : out_msg)
| StorageGet
| StoragePut (s : Stored).

(** Methods of the class: they read and update [this] and leave a trace
    of effects. *)
Definition M (A : Type) : Type := Room → A * Room * list effect.

#[global] Instance M_ret : MRet M := λ A a r, (a, r, []).

#[global] Instance M_bind : MBind M := λ A B k m r,
  let x := m r in
  let y := k x.1.1 x.1.2 in
  (y.1.1, y.1.2, x.2 ++ y.2).

Definition this : M Room := λ r, (r, r, []).
Definition assign (r : Room) : M unit := λ _, (tt, r, []).
Definition emit (es : list effect) : M unit := λ r, (tt, r, es).
Definition when (b : bool) (m : M unit) : M unit := if b then m else mret tt.

Definition val {A} (m : M A) (r : Room) : A := (m r).1.1.
Definition exec {A} (m : M A) (r : Room) : Room := (m r).1.2.
Definition trace {A} (m : M A) (r : Room) : list effect := (m r).2.

Definition snapshot (r : Room) : Stored :=
  {| s_fen := fen r; s_started := started r;
     s_whiteMeta := whiteMeta r; s_blackMeta := blackMeta r |}.

(** The constructor: one [storage.get], then the fields it restores. *)
Definition Room_new (stored : option Stored) : Room * list effect :=
  (match stored with
   | Some s =>
       {| fen := s_fen s; started := s_started s; white := None;
          black := None; whiteMeta := s_whiteMeta s;
          blackMeta := s_blackMeta s; sockets := [] |}
   | None =>
       {| fen := None; started := false; white := None; black := None;
          whiteMeta := no_meta; blackMeta := no_meta; sockets := [] |}
   end, [StorageGet]).

Definition persist : M unit :=
  r ← this; emit [StoragePut (snapshot r)].

Definition broadcast (payload : out_msg) (except : option conn) : M unit :=
  r ← this;
  emit ((λ c, Send c payload)
          <$> List.filter (λ c, negb (is_conn except c)) (sockets r).*1).

Definition send (ws : conn) (payload : out_msg) : M unit :=
  emit [Send ws payload].

Definition updateStats : M unit :=
  r ← this; broadcast (Stats (length (sockets r))) None.

Definition set_fen (f : option string) (r : Room) : Room :=
  {| fen := f; started := started r; white := white r; black := black r;
     whiteMeta := whiteMeta r; blackMeta := blackMeta r;
     sockets := sockets r |}.

Definition set_started (b : bool) (r : Room) : Room :=
  {| fen := fen r; started := b; white := white r; black := black r;
     whiteMeta := whiteMeta r; blackMeta := blackMeta r;
     sockets := sockets r |}.

Definition set_white (w : option conn) (m : Meta) (r : Room) : Room :=
  {| fen := fen r; started := started r; white := w; black := black r;
     whiteMeta := m; blackMeta := blackMeta r; sockets := sockets r |}.

Definition set_black (b : option conn) (m : Meta) (r : Room) : Room :=
  {| fen := fen r; started := started r; white := white r; black := b;
     whiteMeta := whiteMeta r; blackMeta := m; sockets := sockets r |}.

Definition set_sockets (s : list (conn * RoomConn)) (r : Room) : Room :=
  {| fen := fen r; started := started r; white := white r; black := black r;
     whiteMeta := whiteMeta r; blackMeta := blackMeta r; sockets := s |}.

Definition assignRole (ws : conn) (userId : option Z)
    (username : option string) : M role :=
  r ← this;
  let meta := {| m_id := userId; m_username := username |} in
  role ← match white r with
         | None => assign (set_white (Some ws) meta r);; mret W
         | Some _ =>
             match black r with
             | None => assign (set_black (Some ws) meta r);; mret B
             | Some _ => mret S
             end
         end;
  r1 ← this;
  assign (set_sockets
            (jmap_set ws {| c_userId := userId; c_username := username;
                            c_role := role |} (sockets r1)) r1);;
  mret role.

Definition meta_known (m : Meta) : bool :=
  truthy_num (m_id m) && truthy_str (m_username m).

Definition maybeStart : M unit :=
  r ← this;
  if started r then mret tt
  else
    match white r, black r with
    | Some w, Some b =>
        assign (set_started true r);;
        when (meta_known (whiteMeta r) && meta_known (blackMeta r))
          (send w (OpponentInfo (or_zero (m_id (blackMeta r)))
                     (or_str (m_username (blackMeta r)) ""));;
           send b (OpponentInfo (or_zero (m_id (whiteMeta r)))
                     (or_str (m_username (whiteMeta r)) "")));;
        send w (StartGame W);;
        send b (StartGame B);;
        persist
    | _, _ => mret tt
    end.

(** The verified token, when there is one. *)
Record AuthInfo := {
  sub : Z;
  a_username : string
}.

Definition seats_filled (r : Room) : bool :=
  match white r, black r with
  | Some _, Some _ => true
  | _, _ => false
  end.

(** [fetch], from [server.accept()] to [maybeStart()]; [server] is the
    socket of the new pair. *)
Definition fetch (server : conn) (auth : option AuthInfo) : M unit :=
  assignRole server (sub <$> auth) (a_username <$> auth);;
  updateStats;;
  r ← this;
  let role := default S (c_role <$> jmap_get server (sockets r)) in
  let waiting := negb (bool_decide (role = S)) && negb (seats_filled r) in
  send server (RoleMsg role waiting);;
  when (truthy_str (fen r)) (send server (StateMsg (or_str (fen r) "")));;
  when (bool_decide (role = S))
    (when (meta_known (whiteMeta r))
       (send server (PlayerInfo W (or_zero (m_id (whiteMeta r)))
                       (or_str (m_username (whiteMeta r)) "")));;
     when (meta_known (blackMeta r))
       (send server (PlayerInfo B (or_zero (m_id (blackMeta r)))
                       (or_str (m_username (blackMeta r)) ""))));;
  maybeStart.

(** The socket entry [assignRole] registers. *)
Definition conn_of (userId : option Z) (username : option string) (ro : role)
  : RoomConn :=
  {| c_userId := userId; c_username := username; c_role := ro |}.

(** The [player_info] frames a spectator is sent on arrival. *)
Definition player_frames (server : conn) (r1 : Room) : list effect :=
  (if meta_known (whiteMeta r1)
   then [Send server (PlayerInfo W (or_zero (m_id (whiteMeta r1)))
                        (or_str (m_username (whiteMeta r1)) ""))]
   else [])
  ++ (if meta_known (blackMeta r1)
      then [Send server (PlayerInfo B (or_zero (m_id (blackMeta r1)))
                           (or_str (m_username (blackMeta r1)) ""))]
      else []).

(** Frames a client sends to a room; a field is [None] when it is not a
    string.  Chat, draw and voice frames are relayed and change nothing;
    they are left out. *)
Inductive client_msg :=
| Move (from to fen : option string) (promotion : option string)
| GameOver (res : option string) (winnerColor : option role).

(** The ["move"] branch of the message listener. *)
Definition on_move (server : conn) (from to fen promotion : option string)
  : M unit :=
  match from, to, fen with
  | Some from, Some to, Some fen =>
      r ← this;
      assign (set_fen (Some fen) r);;
      persist;;
      broadcast (MoveMsg from to (or_str promotion "q") fen None) None
  | _, _, _ => mret tt
  end.

Definition game_result (res : option string) : string := default "Hòa" res.

(** [handleGameOver] on the database, run with nothing in between
    ([WorkerAsync.handleGameOver] has its awaits); [now] is the clock
    reading. *)
Definition handleGameOver (res : string) (winnerColor : option role)
    (now : Z) (r : Room) (d : Db) : Db :=
  match m_id (whiteMeta r), m_id (blackMeta r) with
  | Some whiteId, Some blackId =>
      if truthy_num (Some whiteId) && truthy_num (Some blackId) then
        let d0 :=
          {| users := users d;
             games := games d ++ [{| white_player_id := whiteId;
                                     black_player_id := blackId;
                                     pgn := or_str (fen r) "";
                                     result := res;
                                     created_at := now |}] |} in
        match winnerColor with
        | Some W => inc blackId Losses 0 (inc whiteId Wins 3 d0)
        | Some B => inc whiteId Losses 0 (inc blackId Wins 3 d0)
        | _ => inc blackId Draws 0 (inc whiteId Draws 0 d0)
        end
      else d
  | _, _ => d
  end.

(** The ["game_over"] branch: the frames it sends. *)
Definition on_game_over (res : option string) : M unit :=
  broadcast (GameOverMsg (Some (game_result res))) None.

(** The [cleanup] closure of a connection. *)
Definition cleanup (server : conn) : M unit :=
  r ← this;
  let meta := jmap_get server (sockets r) in
  assign
    {| fen := fen r; started := started r;
       white := if is_conn (white r) server then None else white r;
       black := if is_conn (black r) server then None else black r;
       whiteMeta := whiteMeta r; blackMeta := blackMeta r;
       sockets := jmap_delete server (sockets r) |};;
  updateStats;;
  r1 ← this;
  when (bool_decide (c_role <$> meta = Some W)) (assign (set_started false r1));;
  r2 ← this;
  when (bool_decide (c_role <$> meta = Some B)) (assign (set_started false r2));;
  persist.

(** *** Events of one room object *)
Inductive event :=
| Fetch (server : conn) (auth : option AuthInfo)
| Message (server : conn) (m : client_msg) (now : Z)
| Cleanup (server : conn).

Definition step (ev : event) (w : Room * Db) : (Room * Db) * list effect :=
  match ev with
  | Fetch server auth =>
      ((exec (fetch server auth) w.1, w.2), trace (fetch server auth) w.1)
  | Message server (Move from to fen promotion) _ =>
      let m := on_move server from to fen promotion in
      ((exec m w.1, w.2), trace m w.1)
  | Message server (GameOver res winnerColor) now =>
      ((w.1, handleGameOver (game_result res) winnerColor now w.1 w.2),
       trace (on_game_over res) w.1)
  | Cleanup server =>
      ((exec (cleanup server) w.1, w.2), trace (cleanup server) w.1)
  end.

Fixpoint run (evs : list event) (w : Room * Db)
  : (Room * Db) * list effect :=
  match evs with
  | [] => (w, [])
  | ev :: evs' =>
      let x := step ev w in
      let y := run evs' x.1 in
      (y.1, x.2 ++ y.2)
  end.

(** The life of a room object: the constructor, then its events. *)
Definition life (stored : option Stored) (d : Db) (evs : list event)
  : (Room * Db) * list effect :=
  let x := Room_new stored in
  let y := run evs (x.1, d) in
  (y.1, x.2 ++ y.2).

(** What the durable storage holds after a trace that started on [s]. *)
Definition storage_after (s : option Stored) (t : list effect)
  : option Stored :=
  foldl (λ acc e, match e with StoragePut v => Some v | _ => acc end) s t.

Definition reads (t : list effect) : nat :=
  length (List.filter (λ e, match e with StorageGet => true | _ => false end) t).

Definition frames (t : list effect) : list sent :=
  omap (λ e, match e with Send c m => Some (c, m) | _ => None end) t.

(** *** The matchmaking object *)
Record Matchmaking := {
  queue : list conn;
  mm_sockets : list (conn * AuthInfo)
}.

Definition mm_fetch (server : conn) (auth : AuthInfo) (q : Matchmaking)
  : Matchmaking :=
  {| queue := queue q; mm_sockets := jmap_set server auth (mm_sockets q) |}.

Definition mm_cleanup (server : conn) (q : Matchmaking) : Matchmaking :=
  {| queue := filter (λ s, s ≠ server) (queue q);
     mm_sockets := jmap_delete server (mm_sockets q) |}.

(** The listener of ["find_match"]; [roomId] is the id minted on a
    pairing. *)
Definition mm_find_match (roomId : string) (server : conn) (q : Matchmaking)
  : Matchmaking * list sent :=
  match filter (λ s, s ≠ server) (queue q) with
  | opponent :: rest =>
      if jmap_has opponent (mm_sockets q)
      then ({| queue := rest; mm_sockets := mm_sockets q |},
            [(server, MatchFound roomId); (opponent, MatchFound roomId)])
      else ({| queue := rest ++ [server]; mm_sockets := mm_sockets q |}, [])
  | [] => ({| queue := [server]; mm_sockets := mm_sockets q |}, [])
  end.

Definition mm_new : Matchmaking := {| queue := []; mm_sockets := [] |}.

Inductive mm_event :=
| MmFetch (server : conn) (auth : AuthInfo)
| MmFindMatch (roomId : string) (server : conn)
| MmCleanup (server : conn).

Definition mm_step (ev : mm_event) (q : Matchmaking) : Matchmaking * list sent :=
  match ev with
  | MmFetch server auth => (mm_fetch server auth q, [])
  | MmFindMatch roomId server => mm_find_match roomId server q
  | MmCleanup server => (mm_cleanup server q, [])
  end.

Inductive mm_reachable : Matchmaking → Prop :=
| mm_reach_new : mm_reachable mm_new
| mm_reach_step ev q : mm_reachable q → mm_reachable (mm_step ev q).1.
End Worker.

(** ** Observations on the frames of a handler *)

(** The roles announced to [ws] by [role] frames, in order. *)
Definition roles_sent (ws : conn) (out : list sent) : list role :=
  omap (λ cm, match cm.2 with
              | RoleMsg r _ => if decide (cm.1 = ws) then Some r else None
              | _ => None
              end) out.

(** The connections that are sent a [move] frame, in order. *)
Definition move_recipients (out : list sent) : list conn :=
  omap (λ cm, match cm.2 with MoveMsg _ _ _ _ _ => Some cm.1 | _ => None end) out.

(** The connections that are sent [start_game], in order. *)
Definition start_recipients (out : list sent) : list conn :=
  omap (λ cm, match cm.2 with StartGame _ => Some cm.1 | _ => None end) out.

(** ** A slice of chess.js for the examples

    From the start position the pawn move e2-e4 is played and every other
    request is refused, e2-e5 among them; the examples ask nothing else of
    the engine. *)
Module Opening.
Inductive position := Start | AfterE4.

Definition start_fen : string :=
  "rnbqkbnr/pppppppp/8/8/8/8/PPPPPPPP/RNBQKBNR w KQkq - 0 1".
Definition e4_fen : string :=
  "rnbqkbnr/pppppppp/8/8/4P3/8/PPPP1PPP/RNBQKBNR b KQkq - 0 1".

Definition fen_of (p : position) : string :=
  match p with Start => start_fen | AfterE4 => e4_fen end.

Definition load (f : option string) : option position :=
  match f with
  | None => Some Start
  | Some s =>
      if String.eqb s start_fen then Some Start
      else if String.eqb s e4_fen then Some AfterE4 else None
  end.

Definition move (p : position) (from to promotion : string)
  : option position :=
  match p with
  | Start =>
      if String.eqb from "e2" && String.eqb to "e4" then Some AfterE4
      else None
  | AfterE4 => None
  end.

#[global] Instance engine : RulesEngine := {|
  Chess := position;
  chess_new := Start;
  chess_load := load;
  chess_move := move;
  chess_fen := fen_of
|}.

Definition env : Env := {| ws_open := λ _, true; rand_id := "k3x9q2a" |}.
End Opening.

(** ** Observations on a state *)
Section ServerViews.
Context `{RulesEngine}.
Import Server.

(** The seats of a room as a [join] finds them; an unseen room id has
    both seats free. *)
Definition seats_before (roomId : string) (st : State)
  : option conn * option conn :=
  match jmap_get roomId (rooms st) with
  | Some r => (white r, black r)
  | None => (None, None)
  end.

(** What a [join] by [ws] must leave behind for each seating it finds. *)
Definition seated_as (ws : conn) (before : option conn * option conn)
    (r' : Room) (announced : list role) : Prop :=
  match before with
  | (None, None) => announced = [W] ∧ white r' = Some ws
  | (Some w, None) =>
      announced = [B] ∧ black r' = Some ws ∧ white r' = Some w
  | (Some w, Some b) =>
      announced = [S] ∧ ws ∈ spectators r'
      ∧ white r' = Some w ∧ black r' = Some b
  | (None, Some b) => True
  end.
End ServerViews.

(** The same for the room object of the worker, whose spectators are the
    sockets registered with role ['s']. *)
Definition worker_seated_as (ws : conn) (r r' : Worker.Room)
    (announced : list role) : Prop :=
  match Worker.white r, Worker.black r with
  | None, None => announced = [W] ∧ Worker.white r' = Some ws
  | Some w, None =>
      announced = [B] ∧ Worker.black r' = Some ws ∧ Worker.white r' = Some w
  | Some w, Some b =>
      announced = [S]
      ∧ (Worker.c_role <$> jmap_get ws (Worker.sockets r')) = Some S
      ∧ Worker.white r' = Some w ∧ Worker.black r' = Some b
  | None, Some b => True
  end.

Section ServerInvariants.
Context `{RulesEngine}.
Import Server.

(** Every room of the table carries its chess.js game. *)
Definition rooms_have_game (st : State) : Prop :=
  Forall (λ kr, is_Some (game kr.2)) (rooms st).
End ServerInvariants.

(** ** A room with two seated players, for the examples *)
Module Scenario.
Import Server.

Definition ann : User := {| rating := Some 1200; gamesPlayed := Some 10 |}.
Definition bob : User := {| rating := Some 1100; gamesPlayed := Some 4 |}.

Definition db0 : Db :=
  {| users := <[7 := ann]> (<[8 := bob]> ∅); games := [] |}.

Definition join (c : conn) (u : Z) (n : string) : event :=
  Message Opening.env c (Join "r" (Some u) (Some n)).

(** Connection 1 (user 7) and connection 2 (user 8) have joined ["r"]. *)
Definition seated : State :=
  (step (join 2%nat 8 "bob") (step (join 1%nat 7 "ann") (init db0)).1).1.

(** A move the rules refuse, with the position its sender claims. *)
Definition e2e5 : event :=
  Message Opening.env 1%nat
    (Move "r" (Some "e2") (Some "e5") None
       (Some "rnbqkbnr/pppppppp/8/4P3/8/8/PPPP1PPP/RNBQKBNR b KQkq - 0 1")).

Definition e2e4 : event :=
  Message Opening.env 1%nat
    (Move "r" (Some "e2") (Some "e4") None (Some "anything")).

(** The room ["r"] of [seated]. *)
Definition room : Room :=
  default (new_room "r") (jmap_get "r" (rooms seated)).

(** Socket 2, mated, reports that white has won. *)
Definition white_wins : event :=
  game_over Opening.env 2%nat "r" (Some "Trắng thắng") (Some W).
End Scenario.

(** ** A worker room with two seated players, for the examples *)
Module WorkerScenario.
Import Worker.

Definition ann : AuthInfo := {| sub := 7; a_username := "ann" |}.
Definition bob : AuthInfo := {| sub := 8; a_username := "bob" |}.

Definition row (r g w l d : Z) : Row :=
  {| rating := Some r; games_played := Some g; wins := Some w;
     losses := Some l; draws := Some d |}.

Definition db0 : Db :=
  {| users := <[7 := row 1200 10 6 3 1]> (<[8 := row 1100 4 1 3 0]> ∅);
     games := [] |}.

(** A new room object, then the sockets 1 (ann) and 2 (bob). *)
Definition seated : Room * Db :=
  (run [Fetch 1%nat (Some ann); Fetch 2%nat (Some bob)]
     ((Room_new None).1, db0)).1.

(** Socket 1 plays e2-e4 and reports the position it computed. *)
Definition e2e4 : event :=
  Message 1%nat
    (Move (Some "e2") (Some "e4") (Some Opening.e4_fen) None) 1700000000.

Definition white_wins : event :=
  Message 2%nat (GameOver (Some "Trắng thắng") (Some W)) 1700000000.
End WorkerScenario.

(** ** The settlement of the Node server, await by await

    The [game_over] handler is the one handler of [server/routes.ts] that
    awaits: every storage call is a point where other events are handled
    before the handler goes on.  A [task] is what is left of a handler at
    such a point: the storage call it waits for, and what it does with the
    answer, given the tables as they are by then. *)
Module ServerAsync.
Section WithEngine.
Context `{RulesEngine}.
Import Server.

(** The [integer] columns of the store hold 32 bits; a value outside,
    written to a column or compared with one, is refused with an error. *)
Definition int4 (z : Z) : bool :=
  ((-2147483648 <=? z) && (z <=? 2147483647))%Z.

Inductive task :=
| Finish (out : list sent)
| GetUser (id : Z) (k : State → option User → task)
| UpdateUser (id : Z) (newRating played : Z) (k : State → task)
| CreateGame (g : Game) (k : State → task).

(** [db.update(users).set({ rating, gamesPlayed }).where(eq(users.id, id))] *)
Definition update_row (id newRating played : Z) (d : Db) : Db :=
  match users d !! id with
  | Some _ =>
      {| users := <[id := {| rating := Some newRating;
                             gamesPlayed := Some played |}]> (users d);
         games := games d |}
  | None => d
  end.

(** The awaited call is answered and the handler runs to its next await,
    or to its end.  When the store refuses a value the handler ends in its
    [catch], which sends nothing. *)
Definition resume (t : task) (st : State) : State * task :=
  match t with
  | Finish out => (st, Finish out)
  | GetUser id k =>
      if int4 id then (st, k st (getUser id (db st))) else (st, Finish [])
  | UpdateUser id newRating played k =>
      if int4 id && int4 newRating && int4 played then
        let st' := with_db (update_row id newRating played (db st)) st in
        (st', k st')
      else (st, Finish [])
  | CreateGame g k =>
      if int4 (or_zero (whitePlayerId g)) && int4 (or_zero (blackPlayerId g))
      then
        let st' := with_db (createGame g (db st)) st in
        (st', k st')
      else (st, Finish [])
  end.

(** A handler that nothing overlaps: every await is answered before any
    other event is handled. *)
Fixpoint complete (t : task) (st : State) : State * list sent :=
  match t with
  | Finish out => (st, out)
  | GetUser id k =>
      if int4 id then complete (k st (getUser id (db st))) st else (st, [])
  | UpdateUser id newRating played k =>
      if int4 id && int4 newRating && int4 played then
        let st' := with_db (update_row id newRating played (db st)) st in
        complete (k st') st'
      else (st, [])
  | CreateGame g k =>
      if int4 (or_zero (whitePlayerId g)) && int4 (or_zero (blackPlayerId g))
      then
        let st' := with_db (createGame g (db st)) st in
        complete (k st') st'
      else (st, [])
  end.

(** [DbStorage.updateUserRating] *)
Definition updateUserRating (userId newRating : Z) (k : State → task) : task :=
  GetUser userId (λ st existing,
    match existing with
    | None => k st
    | Some e => UpdateUser userId newRating (or_zero (gamesPlayed e) + 1) k
    end).

(** The room object the handler holds, as the tables have it now (rooms
    are never removed). *)
Definition room_now (roomId : string) (room0 : Room) (st : State) : Room :=
  default room0 (jmap_get roomId (rooms st)).

(** The winner's branch: [getUser], then [updateUserRating] with 3 more. *)
Definition credit_winner (id : State → Z) (k : State → task) (st : State)
  : task :=
  GetUser (id st) (λ st1 user,
    match user with
    | Some u => updateUserRating (id st1) (or_zero (rating u) + 3) k
    | None => k st1
    end).

(** [updateUserRating(id, (await getUser(id))?.rating || 0)]: the id is
    read once, before the await. *)
Definition count_game (id : State → Z) (k : State → task) (st : State)
  : task :=
  let i := id st in
  GetUser i (λ _ user, updateUserRating i (or_zero (user ≫= rating)) k).

(** [msg.type === 'game_over'], up to its first await. *)
Definition game_over (ws : conn) (roomId : string) (res : option string)
    (winnerColor : option role) (st : State) : task :=
  match jmap_get roomId (rooms st) with
  | None => Finish []
  | Some room0 =>
      let room := room_now roomId room0 in
      let wid st := or_zero (whiteId (room st)) in
      let bid st := or_zero (blackId (room st)) in
      let broadcast st :=
        Finish (fan_out (clients (room st)) (others ws) (GameOverMsg res)) in
      let record st :=
        CreateGame {| whitePlayerId := whiteId (room st);
                      blackPlayerId := blackId (room st);
                      pgn := or_str (fen (room st)) "";
                      result := res |} broadcast in
      if truthy_num (whiteId room0) && truthy_num (blackId room0) then
        match winnerColor with
        | Some W => credit_winner wid (count_game bid record) st
        | Some B => credit_winner bid (count_game wid record) st
        | _ => count_game wid (count_game bid record) st
        end
      else broadcast st
  end.

(** An event handled with nothing in between. *)
Definition alone (ev : event) (st : State) : State * list sent :=
  match ev with
  | Message _ ws (GameOver roomId res winnerColor) =>
      complete (game_over ws roomId res winnerColor st) st
  | _ => step ev st
  end.

(** The process: the tables and the handlers that wait at an await.  An
    event arrives, or the handler at place [i] is resumed. *)
Inductive action :=
| Arrive (ev : event)
| Resume (i : nat).

Definition act (a : action) (p : State * list task)
  : (State * list task) * list sent :=
  match a with
  | Arrive (Message _ ws (GameOver roomId res winnerColor)) =>
      match game_over ws roomId res winnerColor p.1 with
      | Finish out => (p, out)
      | t => ((p.1, p.2 ++ [t]), [])
      end
  | Arrive ev => (((step ev p.1).1, p.2), (step ev p.1).2)
  | Resume i =>
      match p.2 !! i with
      | None => (p, [])
      | Some t =>
          match resume t p.1 with
          | (st', Finish out) => ((st', delete i p.2), out)
          | (st', t') => ((st', <[i := t']> p.2), [])
          end
      end
  end.

Fixpoint acts (l : list action) (p : State * list task)
  : (State * list task) * list sent :=
  match l with
  | [] => (p, [])
  | a :: l' =>
      let x := act a p in
      let y := acts l' x.1 in
      (y.1, x.2 ++ y.2)
  end.

(** Room for [n] more settlements in both columns of an account. *)
Definition headroom (n : Z) (u : User) : bool :=
  int4 (or_zero (rating u)) && int4 (or_zero (rating u) + 3 * n)
  && int4 (or_zero (gamesPlayed u)) && int4 (or_zero (gamesPlayed u) + n).

(** Every account of the store has room for [n] more settlements. *)
Definition roomy (n : Z) (d : Db) : bool :=
  bool_decide (map_Forall (λ _ u, headroom n u = true) (users d)).

(** The seat identities of every room are numbers the store can compare
    with its keys. *)
Definition seats_in_range (st : State) : bool :=
  forallb (λ kr, int4 (or_zero (whiteId kr.2))
                 && int4 (or_zero (blackId kr.2))) (rooms st).
End WithEngine.
End ServerAsync.

(** ** The settlement of the worker, await by await

    [handleGameOver] is started with [void] and left to run: each of its
    statements on the database is awaited, and the room handles other
    events in between.  It reads the room only before its first await. *)
Module WorkerAsync.
Import Worker.

(** An integer as the double nearest to it (ties to even); integers up to
    2^53 in size are doubles. *)
Definition to_double (z : Z) : Z :=
  let a := Z.abs z in
  if (a <=? 2 ^ 53)%Z then z
  else
    let q := 2 ^ (Z.log2 a - 52) in
    let m := a / q in
    let r := a mod q in
    let m' :=
      if (2 * r <? q)%Z then m
      else if (q <? 2 * r)%Z then m + 1
      else if Z.even m then m else m + 1 in
    Z.sgn z * (m' * q).

(** [Number(x || 0)] of a column, and [+] on two numbers. *)
Definition number (o : option Z) : Z := to_double (or_zero o).
Definition plus (x y : Z) : Z := to_double (x + y).

Definition safe (z : Z) : bool := (Z.abs z <=? 2 ^ 53)%Z.

Inductive task :=
| Done
| InsertGame (g : GameRow) (k : task)
| Select (id : Z) (k : option Row → task)
| Update (id : Z) (row : Row) (k : task).

(** [UPDATE users SET ... WHERE id = ?] *)
Definition update_row (id : Z) (row : Row) (d : Db) : Db :=
  match users d !! id with
  | Some _ => {| users := <[id := row]> (users d); games := games d |}
  | None => d
  end.

Definition resume (t : task) (d : Db) : Db * task :=
  match t with
  | Done => (d, Done)
  | InsertGame g k => ({| users := users d; games := games d ++ [g] |}, k)
  | Select id k => (d, k (users d !! id))
  | Update id row k => (update_row id row d, k)
  end.

(** A settlement that nothing overlaps. *)
Fixpoint complete (t : task) (d : Db) : Db :=
  match t with
  | Done => d
  | InsertGame g k =>
      complete k {| users := users d; games := games d ++ [g] |}
  | Select id k => complete (k (users d !! id)) d
  | Update id row k => complete k (update_row id row d)
  end.

(** The row [inc] computes from the row it selected. *)
Definition updated (row : Row) (f : field) (ratingDelta : Z) : Row :=
  {| rating := Some (plus (number (rating row)) ratingDelta);
     games_played := Some (plus (number (games_played row)) 1);
     wins := Some (plus (number (wins row)) (bump f Wins));
     losses := Some (plus (number (losses row)) (bump f Losses));
     draws := Some (plus (number (draws row)) (bump f Draws)) |}.

(** The [inc] closure. *)
Definition inc (userId : Z) (f : field) (ratingDelta : Z) (k : task) : task :=
  Select userId (λ row,
    match row with
    | None => k
    | Some r => Update userId (updated r f ratingDelta) k
    end).

(** [handleGameOver], up to its first await; [now] is the clock reading. *)
Definition handleGameOver (res : string) (winnerColor : option role)
    (now : Z) (r : Room) : task :=
  match m_id (whiteMeta r), m_id (blackMeta r) with
  | Some whiteId, Some blackId =>
      if truthy_num (Some whiteId) && truthy_num (Some blackId) then
        InsertGame {| white_player_id := whiteId;
                      black_player_id := blackId;
                      pgn := or_str (fen r) "";
                      result := res;
                      created_at := now |}
          (match winnerColor with
           | Some W => inc whiteId Wins 3 (inc blackId Losses 0 Done)
           | Some B => inc blackId Wins 3 (inc whiteId Losses 0 Done)
           | _ => inc whiteId Draws 0 (inc blackId Draws 0 Done)
           end)
      else Done
  | _, _ => Done
  end.

(** An event handled with nothing in between. *)
Definition alone (ev : event) (w : Room * Db) : (Room * Db) * list effect :=
  match ev with
  | Message _ (GameOver res winnerColor) now =>
      ((w.1, complete (handleGameOver (game_result res) winnerColor now w.1)
               w.2),
       trace (on_game_over res) w.1)
  | _ => step ev w
  end.

(** The room object and the settlements under way. *)
Inductive action :=
| Arrive (ev : event)
| Resume (i : nat).

Definition act (a : action) (p : (Room * Db) * list task)
  : ((Room * Db) * list task) * list effect :=
  match a with
  | Arrive (Message _ (GameOver res winnerColor) now) =>
      let out := trace (on_game_over res) p.1.1 in
      match handleGameOver (game_result res) winnerColor now p.1.1 with
      | Done => (p, out)
      | t => ((p.1, p.2 ++ [t]), out)
      end
  | Arrive ev => (((step ev p.1).1, p.2), (step ev p.1).2)
  | Resume i =>
      match p.2 !! i with
      | None => (p, [])
      | Some t =>
          match resume t p.1.2 with
          | (d', Done) => (((p.1.1, d'), delete i p.2), [])
          | (d', t') => (((p.1.1, d'), <[i := t']> p.2), [])
          end
      end
  end.

Fixpoint acts (l : list action) (p : (Room * Db) * list task)
  : ((Room * Db) * list task) * list effect :=
  match l with
  | [] => (p, [])
  | a :: l' =>
      let x := act a p in
      let y := acts l' x.1 in
      (y.1, x.2 ++ y.2)
  end.

(** Room for [n] more settlements in every counter of a row, within the
    integers that are doubles. *)
Definition headroom (n : Z) (row : Row) : bool :=
  safe (or_zero (rating row)) && safe (or_zero (rating row) + 3 * n)
  && safe (or_zero (games_played row))
  && safe (or_zero (games_played row) + n)
  && safe (or_zero (wins row)) && safe (or_zero (wins row) + n)
  && safe (or_zero (losses row)) && safe (or_zero (losses row) + n)
  && safe (or_zero (draws row)) && safe (or_zero (draws row) + n).

(** Every row of the table has room for [n] more settlements. *)
Definition roomy (n : Z) (d : Db) : bool :=
  bool_decide (map_Forall (λ _ row, headroom n row = true) (users d)).
End WorkerAsync.

(** ** Settlement, as a relation between two databases *)







(** ** One ticket waiting, for the examples *)
Module QueueScenario.
Import Server.

(** User 7 has asked for a match on socket 1 and waits. *)
Definition queued : State :=
  (step (Message Opening.env 1%nat (FindMatch (Some 7))) (init Scenario.db0)).1.

(** The matchmaking object after sockets 1 and 2 connected and socket 1
    asked for a match. *)
Definition mm_queued : Worker.Matchmaking :=
  (Worker.mm_step (Worker.MmFindMatch "unused" 1%nat)
     (Worker.mm_step (Worker.MmFetch 2%nat WorkerScenario.bob)
        (Worker.mm_step (Worker.MmFetch 1%nat WorkerScenario.ann)
           Worker.mm_new).1).1).1.
End QueueScenario.

(** After [ev] the storage of the room object holds the fields the object
    has then. *)
Definition persisted (s : option Worker.Stored) (ev : Worker.event)
    (w : Worker.Room * Worker.Db) : Prop :=
  Worker.storage_after s (Worker.step ev w).2
  = Some (Worker.snapshot (Worker.step ev w).1.1).

(** ** The seats of the worker room *)

(** A seat-holder of the worker room is registered with the role of its
    seat, so it is not among the spectators (the sockets of role ['s']). *)
Definition seats_consistent (r : Worker.Room) : Prop :=
  (∀ c, Worker.white r = Some c →
        Worker.c_role <$> jmap_get c (Worker.sockets r) = Some W)
  ∧ (∀ c, Worker.black r = Some c →
          Worker.c_role <$> jmap_get c (Worker.sockets r) = Some B).

(** The rooms a worker object can be in: each [fetch] brings the socket of
    a new [WebSocketPair]. *)
Inductive room_reachable : Worker.Room → Prop :=
| rr_new stored : room_reachable (Worker.Room_new stored).1
| rr_fetch r server auth :
    room_reachable r →
    server ∉ (Worker.sockets r).*1 →
    room_reachable (Worker.exec (Worker.fetch server auth) r)
| rr_move r server from to fen promotion :
    room_reachable r →
    room_reachable (Worker.exec (Worker.on_move server from to fen promotion) r)
| rr_cleanup r server :
    room_reachable r →
    room_reachable (Worker.exec (Worker.cleanup server) r).

(** ** One user on both seats, for the examples *)
Module SoloScenario.
Import Server.

(** User 7 has joined ["r"] from two sockets and holds both seats. *)
Definition seated : State :=
  (step (Scenario.join 2%nat 7 "ann")
     (step (Scenario.join 1%nat 7 "ann") (init Scenario.db0)).1).1.
End SoloScenario.

(** ** Where a connection is known *)
Section ServerMembership.
Context `{RulesEngine}.
Import Server.

(** [ws] is not a client of [r], holds none of its seats and does not
    watch it. *)
Definition absent (ws : conn) (r : Room) : Prop :=
  (ws ∉ clients r) ∧ (white r ≠ Some ws) ∧ (black r ≠ Some ws)
  ∧ (ws ∉ spectators r).

(** [ws] is in no room and no ticket is bound to it. *)
Definition gone (ws : conn) (st : State) : Prop :=
  Forall (λ kr, absent ws kr.2) (rooms st)
  ∧ Forall (λ t, t_ws t ≠ ws) (matchQueue st).

(** The seat-holders and the spectators of a room are among its clients. *)
Definition members_known (r : Room) : Prop :=
  (∀ c, white r = Some c → c ∈ clients r)
  ∧ (∀ c, black r = Some c → c ∈ clients r)
  ∧ (∀ c, c ∈ spectators r → c ∈ clients r).

End ServerMembership.

(** No frame of [out] is addressed to [ws]. *)
Definition silent_to (ws : conn) (out : list sent) : Prop :=
  Forall (λ cm, cm.1 ≠ ws) out.

(** The [start_game] frames of [out]: who is told which colour, in order. *)
Definition start_frames (out : list sent) : list (conn * role) :=
  omap (λ cm, match cm.2 with StartGame c => Some (cm.1, c) | _ => None end) out.

(** The [start_game] frames due for the seats [w] and [b]. *)
Definition start_pair (w b : option conn) : list (conn * role) :=
  match w, b with
  | Some w, Some b => [(w, W); (b, B)]
  | _, _ => []
  end.

Section ServerStart.
Context `{RulesEngine}.
Import Server.

(** The [started] flag of a room as a [join] finds it; off for an unseen
    room id. *)
Definition started_before (roomId : string) (st : State) : bool :=
  match jmap_get roomId (rooms st) with
  | Some r => started r
  | None => false
  end.
End ServerStart.

(** ** JavaScript strings and bytes

    A string is a sequence of code units below 256; a [Uint8Array] or a
    [Buffer] is a list of bytes. *)
Module Js.
Import Stdlib.Strings.Ascii.
Import Stdlib.Strings.Ascii.AsciiSyntax.

(** A code unit as a number, and back. *)
Definition code (c : Ascii.ascii) : N := Ascii.N_of_ascii c.
Definition chr (n : N) : Ascii.ascii := Ascii.ascii_of_N n.

(** White space and line terminators, as [trim] and [parseInt] skip them:
    TAB, LF, VT, FF, CR, SPACE and NBSP. *)
Definition is_space (c : Ascii.ascii) : bool :=
  let n := code c in
  ((9 <=? n) && (n <=? 13) || (n =? 32) || (n =? 160))%N.

Fixpoint trimStart (s : string) : string :=
  match s with
  | String c r => if is_space c then trimStart r else s
  | EmptyString => EmptyString
  end.

Fixpoint trimEnd (s : string) : string :=
  match s with
  | String c r =>
      match trimEnd r with
      | EmptyString => if is_space c then EmptyString else String c EmptyString
      | r' => String c r'
      end
  | EmptyString => EmptyString
  end.

Definition trim (s : string) : string := trimEnd (trimStart s).

(** The value of a digit in radix 16, if it is one. *)
Definition hex_value (c : Ascii.ascii) : option N :=
  let n := code c in
  if ((48 <=? n) && (n <=? 57))%N then Some (n - 48)%N
  else if ((97 <=? n) && (n <=? 102))%N then Some (n - 87)%N
  else if ((65 <=? n) && (n <=? 70))%N then Some (n - 55)%N
  else None.

(** The digits [parseInt] reads: the longest prefix of radix-16 digits,
    with the number read so far and whether a digit was seen. *)
Fixpoint hex_prefix (s : string) (acc : N) (seen : bool) : option N :=
  match s with
  | String c r =>
      match hex_value c with
      | Some d => hex_prefix r (acc * 16 + d)%N true
      | None => if seen then Some acc else None
      end
  | EmptyString => if seen then Some acc else None
  end.

(** [parseInt(s, 16)]; [None] is [NaN]. *)
Definition parseInt16 (s : string) : option Z :=
  let s1 := trimStart s in
  let '(neg, s2) :=
    match s1 with
    | String "-"%char r => (true, r)
    | String "+"%char r => (false, r)
    | _ => (false, s1)
    end in
  let s3 :=
    match s2 with
    | String "0"%char (String "x"%char r) => r
    | String "0"%char (String "X"%char r) => r
    | _ => s2
    end in
  match hex_prefix s3 0 false with
  | Some n => Some (if neg then - Z.of_N n else Z.of_N n)
  | None => None
  end.

(** Storing a number in a [Uint8Array]: [NaN] is 0, an integer is taken
    modulo 256. *)
Definition to_uint8 (v : option Z) : Byte.byte :=
  match v with
  | Some z => default Byte.x00 (Strings.Byte.of_N (Z.to_N (z mod 256)))
  | None => Byte.x00
  end.

Definition hex_digit (d : N) : Ascii.ascii :=
  chr (if (d <? 10)%N then 48 + d else 87 + d)%N.

(** [b.toString(16)] for a byte. *)
Definition toString16 (b : Byte.byte) : string :=
  let n := Strings.Byte.to_N b in
  if (n <? 16)%N then String (hex_digit n) EmptyString
  else String (hex_digit (n / 16)) (String (hex_digit (n mod 16)) EmptyString).

(** [s.padStart(2, "0")] *)
Definition padStart2 (s : string) : string :=
  match s with
  | EmptyString => "00"
  | String c EmptyString => String "0"%char s
  | _ => s
  end.

(** [parts.join("")] *)
Definition join (parts : list string) : string :=
  foldr String.append EmptyString parts.

(** [s.split(sep)] for a separator of one code unit. *)
Fixpoint split (sep : Ascii.ascii) (s : string) : list string :=
  match s with
  | EmptyString => [EmptyString]
  | String c r =>
      if Ascii.eqb c sep then EmptyString :: split sep r
      else
        match split sep r with
        | x :: xs => String c x :: xs
        | [] => [String c EmptyString]
        end
  end.

(** [c.toLowerCase()] on one code unit: A-Z, and the capitals of Latin-1
    but the multiplication sign. *)
Definition lower (c : Ascii.ascii) : Ascii.ascii :=
  let n := code c in
  if ((65 <=? n) && (n <=? 90)
      || (192 <=? n) && (n <=? 222) && negb (n =? 215))%N
  then chr (n + 32) else c.

Fixpoint toLowerCase (s : string) : string :=
  match s with
  | String c r => String (lower c) (toLowerCase r)
  | EmptyString => EmptyString
  end.

(** [!s] on a string. *)
Definition empty (s : string) : bool := String.eqb s EmptyString.
End Js.

(** ** Hex, as the worker writes and reads it *)

(** [toHex]: two lower-case digits for each byte. *)
Definition toHex (bytes : list Byte.byte) : string :=
  Js.join ((λ b, Js.padStart2 (Js.toString16 b)) <$> bytes).

(** The loop of [fromHex] over the pairs of [clean]; a last odd code unit
    is left over, as the array has half the length, rounded down. *)
Fixpoint hex_pairs (clean : string) : list Byte.byte :=
  match clean with
  | String a (String b r) =>
      Js.to_uint8 (Js.parseInt16 (String a (String b EmptyString)))
      :: hex_pairs r
  | _ => []
  end.

Definition fromHex (hex : string) : list Byte.byte := hex_pairs (Js.trim hex).

(** ** Password records

    What the platform supplies: numbers read from strings, and the key
    derivation.  [None] from a derivation is a rejected call. *)
Class Runtime := {
  num : Type;
  Number_of : string → num;
  num_falsy : num → bool;
  num_100000 : num;
  deriveBits : string → list Byte.byte → num → option (list Byte.byte);
  pbkdf2Sync : string → string → num → string → option (list Byte.byte)
}.

Module WorkerAuth.
Import Stdlib.Strings.Ascii.
Import Stdlib.Strings.Ascii.AsciiSyntax.
Section WithRuntime.
Context `{Runtime}.

(** [hashPassword]; [salt] is what [crypto.getRandomValues] filled. *)
Definition hashPassword (password : string) (salt : list Byte.byte)
  : option string :=
  bits ← deriveBits password salt num_100000;
  Some ("sha256" +:+ ":" +:+ "100000" +:+ ":" +:+ toHex salt +:+ ":"
        +:+ toHex bits).

(** [verifyPassword]; [None] when the derivation rejects. *)
Definition verifyPassword (password stored : string) : option bool :=
  match Js.split ":"%char stored with
  | [algo; iterStr; saltHex; hashHex] =>
      let iterations := Number_of iterStr in
      if negb (String.eqb algo "sha256") || num_falsy iterations
         || Js.empty saltHex || Js.empty hashHex
      then Some false
      else
        bits ← deriveBits password (fromHex saltHex) iterations;
        Some (String.eqb (toHex bits) (Js.toLowerCase hashHex))
  | _ => Some (String.eqb stored password)
  end.
End WithRuntime.
End WorkerAuth.

Module NodeAuth.
Import Stdlib.Strings.Ascii.
Import Stdlib.Strings.Ascii.AsciiSyntax.
Section WithRuntime.
Context `{Runtime}.

(** [hashPassword] of [server/routes.ts]; [salt] is what [randomBytes(16)]
    returned. *)
Definition hashPassword (password : string) (salt : list Byte.byte)
  : option string :=
  let salt := toHex salt in
  hash ← pbkdf2Sync password salt num_100000 "sha256";
  Some ("sha256" +:+ ":" +:+ "100000" +:+ ":" +:+ salt +:+ ":" +:+ toHex hash).

Definition verifyPassword (password stored : string) : option bool :=
  match Js.split ":"%char stored with
  | [algo; iterStr; salt; hash] =>
      let iterations := Number_of iterStr in
      if Js.empty algo || num_falsy iterations || Js.empty salt
         || Js.empty hash
      then Some false
      else
        computed ← pbkdf2Sync password salt iterations algo;
        Some (String.eqb (toHex computed) hash)
  | _ => Some (String.eqb stored password)
  end.
End WithRuntime.
End NodeAuth.

(** ** Base64: [btoa] and [atob] of the platform, and the URL-safe
    variant the worker builds on them *)
Module Base64.
Import Stdlib.Strings.Ascii.
Import Stdlib.Strings.Ascii.AsciiSyntax.

(** The alphabet: A-Z, a-z, 0-9, [+] and [/]. *)
Definition digit (n : N) : Ascii.ascii :=
  if (n <? 26)%N then Js.chr (65 + n)
  else if (n <? 52)%N then Js.chr (97 + (n - 26))
  else if (n <? 62)%N then Js.chr (48 + (n - 52))
  else if (n =? 62)%N then "+"%char
  else "/"%char.

Definition value (c : Ascii.ascii) : option N :=
  let n := Js.code c in
  if ((65 <=? n) && (n <=? 90))%N then Some (n - 65)%N
  else if ((97 <=? n) && (n <=? 122))%N then Some (n - 97 + 26)%N
  else if ((48 <=? n) && (n <=? 57))%N then Some (n - 48 + 52)%N
  else if (n =? 43)%N then Some 62%N
  else if (n =? 47)%N then Some 63%N
  else None.

(** The four sextets of three octets. *)
Definition s1 (a : N) : N := (a / 4)%N.
Definition s2 (a b : N) : N := ((a mod 4) * 16 + b / 16)%N.
Definition s3 (b c : N) : N := ((b mod 16) * 4 + c / 64)%N.
Definition s4 (c : N) : N := (c mod 64)%N.

(** [btoa] on a string of code units below 256: three octets at a time,
    the last group padded with [=]. *)
Fixpoint btoa (s : string) : string :=
  match s with
  | String a (String b (String c r)) =>
      String (digit (s1 (Js.code a)))
        (String (digit (s2 (Js.code a) (Js.code b)))
           (String (digit (s3 (Js.code b) (Js.code c)))
              (String (digit (s4 (Js.code c))) (btoa r))))
  | String a (String b EmptyString) =>
      String (digit (s1 (Js.code a)))
        (String (digit (s2 (Js.code a) (Js.code b)))
           (String (digit (s3 (Js.code b) 0)) "="))
  | String a EmptyString =>
      String (digit (s1 (Js.code a)))
        (String (digit (s2 (Js.code a) 0)) "==")
  | EmptyString => EmptyString
  end.

(** ASCII white space, which [atob] drops: TAB, LF, FF, CR and SPACE. *)
Definition is_whitespace (c : Ascii.ascii) : bool :=
  let n := Js.code c in
  ((n =? 9) || (n =? 10) || (n =? 12) || (n =? 13) || (n =? 32))%N.

Fixpoint remove_whitespace (s : string) : string :=
  match s with
  | String c r =>
      if is_whitespace c then remove_whitespace r
      else String c (remove_whitespace r)
  | EmptyString => EmptyString
  end.

(** One or two [=] at the very end are removed. *)
Fixpoint strip_padding (s : string) : string :=
  match s with
  | String "="%char EmptyString => EmptyString
  | String "="%char (String "="%char EmptyString) => EmptyString
  | String c r => String c (strip_padding r)
  | EmptyString => EmptyString
  end.

(** The sextets of a string of digits; [None] if one is not a digit. *)
Fixpoint sextets (s : string) : option (list N) :=
  match s with
  | String c r => v ← value c; l ← sextets r; Some (v :: l)
  | EmptyString => Some []
  end.

(** Octets from sextets; the two or four bits left over at the end are
    dropped. *)
Fixpoint octets (l : list N) : string :=
  match l with
  | a :: b :: c :: d :: r =>
      String (Js.chr (a * 4 + b / 16))
        (String (Js.chr ((b mod 16) * 16 + c / 4))
           (String (Js.chr ((c mod 4) * 64 + d)) (octets r)))
  | [a; b; c] =>
      String (Js.chr (a * 4 + b / 16))
        (String (Js.chr ((b mod 16) * 16 + c / 4)) EmptyString)
  | [a; b] => String (Js.chr (a * 4 + b / 16)) EmptyString
  | _ => EmptyString
  end.

(** [atob]: the forgiving decoding; [None] when it throws. *)
Definition atob (s : string) : option string :=
  let data := remove_whitespace s in
  let data :=
    if (String.length data mod 4 =? 0)%nat then strip_padding data
    else data in
  if (String.length data mod 4 =? 1)%nat then None
  else l ← sextets data; Some (octets l).

(** [s.replace(/x/g, y)] for single code units. *)
Fixpoint replace (x y : Ascii.ascii) (s : string) : string :=
  match s with
  | String c r => String (if Ascii.eqb c x then y else c) (replace x y r)
  | EmptyString => EmptyString
  end.

(** [s.replace(/=+$/g, "")] *)
Fixpoint strip_equals (s : string) : string :=
  match s with
  | String c r =>
      match strip_equals r with
      | EmptyString =>
          if Ascii.eqb c "=" then EmptyString else String c EmptyString
      | r' => String c r'
      end
  | EmptyString => EmptyString
  end.

(** [s.slice(n)] *)
Fixpoint slice (n : nat) (s : string) : string :=
  match n, s with
  | O, _ => s
  | Datatypes.S n', String _ r => slice n' r
  | Datatypes.S _, EmptyString => EmptyString
  end.

(** What both encoders do to the output of [btoa]. *)
Definition url_safe (b64 : string) : string :=
  strip_equals (replace "/" "_" (replace "+" "-" b64)).

(** What both decoders hand to [atob]. *)
Definition padded (input : string) : string :=
  replace "_" "/" (replace "-" "+" input)
  +:+ slice ((String.length input + 3) mod 4) "===".
End Base64.

(** [base64UrlEncode] on bytes that the call [String.fromCharCode(...)]
    can take as its arguments, as the 32 bytes of a MAC always are. *)
Definition base64UrlEncode (bytes : list Byte.byte) : string :=
  let bin := String.string_of_list_byte bytes in
  Base64.url_safe (Base64.btoa bin).

(** How many arguments a call can take: beyond, the engine throws a
    [RangeError]. *)
Class Engine := {
  max_arguments : nat
}.

(** [base64UrlEncode] on any byte sequence: the bytes are spread as the
    arguments of one call, and [None] stands for the [RangeError]. *)
Definition base64UrlEncode_spread `{Engine} (bytes : list Byte.byte)
  : option string :=
  if (length bytes <=? max_arguments)%nat then Some (base64UrlEncode bytes)
  else None.

(** [base64UrlDecodeToBytes]; [None] when [atob] throws. *)
Definition base64UrlDecodeToBytes (input : string) : option (list Byte.byte) :=
  bin ← Base64.atob (Base64.padded input);
  Some (String.list_byte_of_string bin).

(** The digits of the URL-safe alphabet. *)
Definition is_url_digit (c : Ascii.ascii) : bool :=
  let n := Js.code c in
  ((65 <=? n) && (n <=? 90) || (97 <=? n) && (n <=? 122)
   || (48 <=? n) && (n <=? 57) || (n =? 45) || (n =? 95))%N.

(** The digits [btoa] writes, without the padding. *)
Fixpoint base64_body (s : string) : string :=
  match s with
  | String a (String b (String c r)) =>
      String (Base64.digit (Base64.s1 (Js.code a)))
        (String (Base64.digit (Base64.s2 (Js.code a) (Js.code b)))
           (String (Base64.digit (Base64.s3 (Js.code b) (Js.code c)))
              (String (Base64.digit (Base64.s4 (Js.code c))) (base64_body r))))
  | String a (String b EmptyString) =>
      String (Base64.digit (Base64.s1 (Js.code a)))
        (String (Base64.digit (Base64.s2 (Js.code a) (Js.code b)))
           (String (Base64.digit (Base64.s3 (Js.code b) 0)) EmptyString))
  | String a EmptyString =>
      String (Base64.digit (Base64.s1 (Js.code a)))
        (String (Base64.digit (Base64.s2 (Js.code a) 0)) EmptyString)
  | EmptyString => EmptyString
  end.

(** A digit of the alphabet of [btoa]. *)
Definition is_base64_digit (c : Ascii.ascii) : bool :=
  match Base64.value c with Some _ => true | None => false end.

(** One code unit through the two replacements of the encoders, and of
    the decoders. *)
Definition to_url (c : Ascii.ascii) : Ascii.ascii :=
  let c1 := if Ascii.eqb c (Js.chr 43) then Js.chr 45 else c in
  if Ascii.eqb c1 (Js.chr 47) then Js.chr 95 else c1.

Definition from_url (c : Ascii.ascii) : Ascii.ascii :=
  let c1 := if Ascii.eqb c (Js.chr 45) then Js.chr 43 else c in
  if Ascii.eqb c1 (Js.chr 95) then Js.chr 47 else c1.

Fixpoint map_chars (f : Ascii.ascii → Ascii.ascii) (s : string) : string :=
  match s with
  | String c r => String (f c) (map_chars f r)
  | EmptyString => EmptyString
  end.

(** ** Strings made of given code units *)

(** Every code unit of [s] passes [p]. *)
Fixpoint all_chars (p : Ascii.ascii → bool) (s : string) : bool :=
  match s with
  | String c r => p c && all_chars p r
  | EmptyString => true
  end.

(** A lower-case digit of radix 16. *)
Definition is_lower_hex (c : Ascii.ascii) : bool :=
  let n := Js.code c in
  ((48 <=? n) && (n <=? 57) || (97 <=? n) && (n <=? 102))%N.

(** The two digits [toHex] writes for a byte. *)
Definition hi_digit (b : Byte.byte) : Ascii.ascii :=
  Js.hex_digit (Strings.Byte.to_N b / 16).
Definition lo_digit (b : Byte.byte) : Ascii.ascii :=
  Js.hex_digit (Strings.Byte.to_N b mod 16).

(** Bytes are compared as by [===]. *)
#[global] Instance byte_eq_dec : EqDecision Byte.byte := Strings.Byte.byte_eq_dec.

(** Any code unit but the colon that separates the fields of a password
    record. *)
Definition not_colon (c : Ascii.ascii) : bool :=
  negb (Ascii.eqb c (Ascii.ascii_of_N 58)).

(** An engine that takes 4096 arguments, for the examples. *)
Module ToyEngine.
#[global] Instance engine : Engine := {| max_arguments := 4096 |}.
End ToyEngine.

(** ** A stand-in platform for the examples

    Numbers are read from plain decimal digits, and the "derivation" only
    glues its inputs together; the examples need no more. *)
Module ToyRuntime.

Fixpoint digits (s : string) (acc : N) : option N :=
  match s with
  | EmptyString => Some acc
  | String c r =>
      let n := Js.code c in
      if ((48 <=? n) && (n <=? 57))%N then digits r (acc * 10 + (n - 48))%N
      else None
  end.

Definition number (s : string) : option N :=
  if Js.empty s then None else digits s 0.

Definition falsy (n : option N) : bool :=
  match n with
  | Some n => (n =? 0)%N
  | None => true
  end.

#[global] Instance runtime : Runtime := {|
  num := option N;
  Number_of := number;
  num_falsy := falsy;
  num_100000 := Some 100000%N;
  deriveBits := λ password salt _, Some (salt ++ String.list_byte_of_string password);
  pbkdf2Sync := λ password salt _ _,
    Some (String.list_byte_of_string salt ++ String.list_byte_of_string password)
|}.

Definition salt : list Byte.byte := replicate 16 Byte.x2a.
End ToyRuntime.

(** ** Where a worker room knows a socket *)

(** [server] is not among the sockets of [r] and holds none of its seats. *)
Definition worker_absent (server : conn) (r : Worker.Room) : Prop :=
  (server ∉ (Worker.sockets r).*1)
  ∧ (Worker.white r ≠ Some server) ∧ (Worker.black r ≠ Some server).

(** The socket an event of a room object comes from. *)
Definition worker_sender (ev : Worker.event) : conn :=
  match ev with
  | Worker.Fetch server _ => server
  | Worker.Message server _ _ => server
  | Worker.Cleanup server => server
  end.

(** ** Invites of the Node server: the [invites] and [userConnections]
    tables of [server/routes.ts] and the three routes on them

    Request bodies carry the fields at their declared types: a number or
    a string, or nothing. *)
Module Invites.

Inductive status := Pending | Accepted | Declined.

Record Invite := {
  id : string;
  fromUserId : Z;
  fromUsername : string;
  roomId : string;
  createdAt : Z;
  invite_status : status
}.

(** [invites], [userConnections], the [currentUserId] of each connection
    and the user names [storage.getUser] finds (a row found for an id
    carries that id). *)
Record State := {
  invites : list (Z * list Invite);
  userConnections : list (Z * list conn);
  currentUserId : gmap conn Z;
  usernames : gmap Z string
}.

Definition with_invites (m : list (Z * list Invite)) (st : State) : State :=
  {| invites := m; userConnections := userConnections st;
     currentUserId := currentUserId st; usernames := usernames st |}.

Definition with_connections (m : list (Z * list conn)) (st : State) : State :=
  {| invites := invites st; userConnections := m;
     currentUserId := currentUserId st; usernames := usernames st |}.

(** What a route answers: 401, 400 with its message, 404, or the JSON
    body of a 200. *)
Inductive response :=
| NotLoggedIn
| BadRequest (message : string)
| NotFound
| InviteBody (i : Invite)
| InboxBody (l : list Invite)
| RespondBody (s : status) (room : string).

(** [invites.get(userId) ?? []] *)
Definition inbox_list (userId : Z) (st : State) : list Invite :=
  default [] (jmap_get userId (invites st)).

(** The sockets registered for a user. *)
Definition registered (userId : Z) (st : State) : list conn :=
  default [] (jmap_get userId (userConnections st)).

(** [msg.type === 'auth'], on the registry. *)
Definition ws_auth (ws : conn) (userId : option Z) (st : State) : State :=
  match userId with
  | Some uid =>
      if truthy_num userId then
        let st1 :=
          {| invites := invites st; userConnections := userConnections st;
             currentUserId := <[ws := uid]> (currentUserId st);
             usernames := usernames st |} in
        match jmap_get uid (userConnections st) with
        | Some existing =>
            with_connections
              (jmap_set uid (set_add ws existing) (userConnections st)) st1
        | None => with_connections (jmap_set uid [ws] (userConnections st)) st1
        end
      else st
  | None => st
  end.

(** [ws.on('close')], on the registry. *)
Definition ws_close (ws : conn) (st : State) : State :=
  match currentUserId st !! ws with
  | Some uid =>
      if truthy_num (Some uid) then
        match jmap_get uid (userConnections st) with
        | Some set =>
            let set' := set_delete ws set in
            if (length set' =? 0)%nat
            then with_connections
                   (jmap_delete uid (jmap_set uid set' (userConnections st))) st
            else with_connections (jmap_set uid set' (userConnections st)) st
        | None => st
        end
      else st
  | None => st
  end.

(** [POST /api/invite]; [newId] and [now] are what [Math.random] and
    [Date.now] yield.  The third component lists the [new_invite] frames:
    who is sent which invite. *)
Definition post_invite (e : Env) (session toUserId : option Z)
    (room : option string) (newId : string) (now : Z) (st : State)
  : State * response * list (conn * Invite) :=
  if negb (truthy_num session) then (st, NotLoggedIn, [])
  else if negb (truthy_num toUserId) || negb (truthy_str room)
  then (st, BadRequest "Invalid invite", [])
  else
    match usernames st !! or_zero session with
    | None => (st, BadRequest "User not found", [])
    | Some name =>
        let invite :=
          {| id := newId; fromUserId := or_zero session;
             fromUsername := name; roomId := or_str room "";
             createdAt := now; invite_status := Pending |} in
        let list := inbox_list (or_zero toUserId) st ++ [invite] in
        let st1 := with_invites (jmap_set (or_zero toUserId) list (invites st)) st in
        let out :=
          match jmap_get (or_zero toUserId) (userConnections st) with
          | Some targets =>
              (λ c, (c, invite)) <$> List.filter (ws_open e) targets
          | None => []
          end in
        (st1, InviteBody invite, out)
    end.

(** [GET /api/inbox] *)
Definition get_inbox (session : option Z) (st : State) : response :=
  if negb (truthy_num session) then NotLoggedIn
  else InboxBody (inbox_list (or_zero session) st).

Inductive action := Accept | Decline.

Definition reply (a : action) : status :=
  match a with Accept => Accepted | Decline => Declined end.

(** [POST /api/invite/:id/respond]; [act] is [None] for any other
    [action] than the two. *)
Definition respond (session : option Z) (inviteId : string)
    (act : option action) (st : State) : State * response :=
  if negb (truthy_num session) then (st, NotLoggedIn)
  else
    match act with
    | None => (st, BadRequest "Invalid action")
    | Some a =>
        let list := inbox_list (or_zero session) st in
        match list_find (λ i, id i = inviteId) list with
        | None => (st, NotFound)
        | Some (_, invite) =>
            (with_invites
               (jmap_set (or_zero session)
                  (filter (λ i, id i ≠ inviteId) list) (invites st)) st,
             RespondBody (reply a) (roomId invite))
        end
    end.
End Invites.

(** A server with two accounts, for the examples. *)
Module InviteScenario.
Import Invites.

Definition st0 : State :=
  {| invites := []; userConnections := []; currentUserId := ∅;
     usernames := <[7 := "ann"]> (<[8 := "bob"]> ∅) |}.
End InviteScenario.

(** ** Session tokens of the worker *)

(** What the platform provides to the token code: numbers and their
    arithmetic, JSON, and HMAC-SHA256.  A JSON text is a sequence of
    UTF-16 code units; [JSON_parse] is [None] when it throws. *)
Class TokenRuntime := {
  number : Type;
  jstring : Type;
  json : Type;
  Number_ : string → number;
  num_1000 : number;
  num_mul : number → number → number;
  num_add : number → number → number;
  (** the object [{ sub, username, iat, exp }] *)
  token_payload : number → jstring → number → number → json;
  JSON_stringify : json → list N;
  JSON_parse : string → option json;
  (** [payload?.sub] and [payload?.exp] as conditions *)
  sub_truthy : json → bool;
  exp_truthy : json → bool;
  (** [payload.exp <= now] *)
  exp_le : json → number → bool;
  hmac_sha256 : string → string → list Byte.byte
}.

Module Token.
Import Stdlib.Strings.Ascii.
Import Stdlib.Strings.Ascii.AsciiSyntax.

(** The two bindings of [Env] the token code reads; [None] when the
    binding is not a string. *)
Record TokenEnv := {
  SESSION_SECRET : option string;
  TOKEN_TTL_SECONDS : option string
}.

Section WithRuntime.
Context `{TokenRuntime}.

(** [hmacSign] *)
Definition hmacSign (secret data : string) : string :=
  base64UrlEncode (hmac_sha256 secret data).

(** [ensureSessionSecret]; [None] when it throws. *)
Definition ensureSessionSecret (env : TokenEnv) : option string :=
  match SESSION_SECRET env with
  | Some s => if Js.empty (Js.trim s) then None else Some s
  | None => None
  end.

(** The string of code units that are all below 256. *)
Fixpoint binary (units : list N) : option string :=
  match units with
  | [] => Some EmptyString
  | u :: r =>
      if (u <? 256)%N then s ← binary r; Some (String (Js.chr u) s)
      else None
  end.

(** [btoa] on a JavaScript string: it throws on a code unit above 255. *)
Definition btoa (text : list N) : option string :=
  Base64.btoa <$> binary text.

(** [makeToken]; [now] is the reading of [Date.now()], and [None] stands
    for an exception. *)
Definition makeToken (env : TokenEnv) (sub : number) (username : jstring)
    (now : number) : option string :=
  secret ← ensureSessionSecret env;
  let ttl := num_mul (Number_ (or_str (TOKEN_TTL_SECONDS env) "604800"))
               num_1000 in
  let full := token_payload sub username now (num_add now ttl) in
  b64 ← btoa (JSON_stringify full);
  let body := Base64.url_safe b64 in
  let sig := hmacSign secret body in
  Some (body +:+ "." +:+ sig).

(** [verifyToken]; [None] is [null]. *)
Definition verifyToken (env : TokenEnv) (token : option string)
    (now : number) : option json :=
  if negb (truthy_str token) then None
  else
    match ensureSessionSecret env with
    | None => None
    | Some secret =>
        match Js.split "." (or_str token "") with
        | [body; sig] =>
            let expected := hmacSign secret body in
            if negb (String.eqb sig expected) then None
            else
              match Base64.atob (Base64.padded body) with
              | None => None
              | Some jsonStr =>
                  match JSON_parse jsonStr with
                  | None => None
                  | Some payload =>
                      if negb (sub_truthy payload) || negb (exp_truthy payload)
                      then None
                      else if exp_le payload now then None
                      else Some payload
                  end
              end
        | _ => None
        end
    end.
End WithRuntime.
End Token.

(** Any code unit but the dot that separates the two parts of a token. *)
Definition not_dot (c : Ascii.ascii) : bool :=
  negb (Ascii.eqb c (Js.chr 46)).

(** A stand-in for the platform of the token code, for the examples:
    numbers are naturals written in decimal, a payload is printed as its
    four fields between commas, and the "MAC" glues its inputs. *)
Module ToyToken.

Record payload := {
  p_sub : N;
  p_username : string;
  p_iat : N;
  p_exp : N
}.

Definition decimal (n : N) : string :=
  DecimalString.NilZero.string_of_uint (N.to_uint n).

Definition read (s : string) : option N :=
  N.of_uint <$> DecimalString.NilZero.uint_of_string s.

Definition units (s : string) : list N :=
  Js.code <$> String.list_ascii_of_string s.

Definition print (p : payload) : list N :=
  units (decimal (p_sub p) +:+ "," +:+ decimal (p_iat p) +:+ ","
         +:+ decimal (p_exp p) +:+ "," +:+ p_username p).

Definition parse (s : string) : option payload :=
  match Js.split (Js.chr 44) s with
  | [a; b; c; d] =>
      sub ← read a; iat ← read b; exp ← read c;
      Some {| p_sub := sub; p_username := d; p_iat := iat; p_exp := exp |}
  | _ => None
  end.

#[global] Instance runtime : TokenRuntime := {|
  number := N;
  jstring := string;
  json := payload;
  Number_ := λ s, default 0%N (read s);
  num_1000 := 1000%N;
  num_mul := N.mul;
  num_add := N.add;
  token_payload := λ s u i e,
    {| p_sub := s; p_username := u; p_iat := i; p_exp := e |};
  JSON_stringify := print;
  JSON_parse := parse;
  sub_truthy := λ p, negb (p_sub p =? 0)%N;
  exp_truthy := λ p, negb (p_exp p =? 0)%N;
  exp_le := λ p now, (p_exp p <=? now)%N;
  hmac_sha256 := λ secret data,
    String.list_byte_of_string (secret +:+ data)
|}.

Definition env : Token.TokenEnv :=
  {| Token.SESSION_SECRET := Some "s3cret"; Token.TOKEN_TTL_SECONDS := None |}.

Definition other_env : Token.TokenEnv :=
  {| Token.SESSION_SECRET := Some "0ther"; Token.TOKEN_TTL_SECONDS := None |}.
End ToyToken.

(** ** What one event may do to the stored accounts *)

(** The account [u'] is [u] after at most two settlements of one game:
    the rating rose by 0 to 3 and the games counter by 0 to 2. *)
Definition server_user_grows (u u' : Server.User) : Prop :=
  (or_zero (Server.rating u) ≤ or_zero (Server.rating u')
   ∧ or_zero (Server.rating u') ≤ or_zero (Server.rating u) + 3
   ∧ or_zero (Server.gamesPlayed u) ≤ or_zero (Server.gamesPlayed u')
   ∧ or_zero (Server.gamesPlayed u') ≤ or_zero (Server.gamesPlayed u) + 2)%Z.

(** The same accounts exist, each one grown, and the game records of [d]
    are the first records of [d']. *)
Definition server_db_grows (d d' : Server.Db) : Prop :=
  (∀ id, option_Forall2 server_user_grows
           (Server.users d !! id) (Server.users d' !! id))
  ∧ Server.games d `prefix_of` Server.games d'.

(** For a row of the worker: the three outcome counters only rise, and
    together by as much as the games counter. *)
Definition worker_row_grows (u u' : Worker.Row) : Prop :=
  (or_zero (Worker.rating u) ≤ or_zero (Worker.rating u')
  ∧ or_zero (Worker.rating u') ≤ or_zero (Worker.rating u) + 3
  ∧ or_zero (Worker.games_played u) ≤ or_zero (Worker.games_played u')
  ∧ or_zero (Worker.games_played u') ≤ or_zero (Worker.games_played u) + 2
  ∧ or_zero (Worker.wins u) ≤ or_zero (Worker.wins u')
  ∧ or_zero (Worker.losses u) ≤ or_zero (Worker.losses u')
  ∧ or_zero (Worker.draws u) ≤ or_zero (Worker.draws u')
  ∧ or_zero (Worker.games_played u') - or_zero (Worker.games_played u)
    = (or_zero (Worker.wins u') - or_zero (Worker.wins u))
      + (or_zero (Worker.losses u') - or_zero (Worker.losses u))
      + (or_zero (Worker.draws u') - or_zero (Worker.draws u)))%Z.

Definition worker_db_grows (d d' : Worker.Db) : Prop :=
  (∀ id, option_Forall2 worker_row_grows
           (Worker.users d !! id) (Worker.users d' !! id))
  ∧ Worker.games d `prefix_of` Worker.games d'.

(** The accounts of [d] are still accounts of [d'], and the game records
    of [d] are the first records of [d']. *)
Definition server_db_keeps (d d' : Server.Db) : Prop :=
  (∀ id, is_Some (Server.users d !! id) → is_Some (Server.users d' !! id))
  ∧ Server.games d `prefix_of` Server.games d'.

Definition worker_db_keeps (d d' : Worker.Db) : Prop :=
  (∀ id, is_Some (Worker.users d !! id) → is_Some (Worker.users d' !! id))
  ∧ Worker.games d `prefix_of` Worker.games d'.

(** ** Where the matchmaking object knows a socket *)

(** [server] neither waits in the queue nor is registered. *)
Definition mm_absent (server : conn) (q : Worker.Matchmaking) : Prop :=
  (server ∉ Worker.queue q) ∧ (server ∉ (Worker.mm_sockets q).*1).

Definition mm_sender (ev : Worker.mm_event) : conn :=
  match ev with
  | Worker.MmFetch server _ => server
  | Worker.MmFindMatch _ server => server
  | Worker.MmCleanup server => server
  end.

(** Events of the matchmaking object, handled one at a time. *)
Fixpoint mm_run (evs : list Worker.mm_event) (q : Worker.Matchmaking)
  : Worker.Matchmaking * list sent :=
  match evs with
  | [] => (q, [])
  | ev :: evs' =>
      let x := Worker.mm_step ev q in
      let y := mm_run evs' x.1 in
      (y.1, x.2 ++ y.2)
  end.

(** * Properties *)

(** ** Maps, sets and fan-out *)
Section JsMapFacts.
Context {K V : Type} `{EqDecision K}.

Lemma jmap_get_set_eq (k : K) (v : V) (m : list (K * V)) :
  jmap_get k (jmap_set k v m) = Some v.
Proof.
  induction m as [|[k' v'] m IH]; simpl.
  - by rewrite decide_True.
  - destruct (decide (k = k')) as [->|Hne]; simpl.
    + by rewrite decide_True.
    + by rewrite decide_False.
Qed.

Lemma jmap_get_set_ne (k k' : K) (v : V) (m : list (K * V)) :
  k ≠ k' → jmap_get k' (jmap_set k v m) = jmap_get k' m.
Proof.
  intros Hne. induction m as [|[k0 v0] m IH]; simpl.
  - rewrite decide_False; [done | congruence].
  - destruct (decide (k = k0)) as [->|Hk]; simpl.
    + rewrite !decide_False; [done | congruence | congruence].
    + destruct (decide (k' = k0)); [done | apply IH].
Qed.

Lemma jmap_get_elem_of (k : K) (v : V) (m : list (K * V)) :
  jmap_get k m = Some v → (k, v) ∈ m.
Proof.
  induction m as [|[k' v'] m IH]; simpl; [done|].
  destruct (decide (k = k')) as [->|Hne].
  - intros [= ->]. apply list_elem_of_here.
  - intros Hm. apply list_elem_of_further. by apply IH.
Qed.

Lemma jmap_get_keys (k : K) (v : V) (m : list (K * V)) :
  jmap_get k m = Some v → k ∈ m.*1.
Proof.
  intros Hm. apply list_elem_of_fmap. exists (k, v).
  split; [done | by apply jmap_get_elem_of].
Qed.
End JsMapFacts.

Lemma elem_of_set_add (c x : conn) (s : list conn) :
  x ∈ set_add c s ↔ x = c ∨ x ∈ s.
Proof.
  unfold set_add. destruct (decide (c ∈ s)) as [Hin|Hout].
  - split; [by right | intros [->|?]; done].
  - rewrite elem_of_app, list_elem_of_singleton. tauto.
Qed.

Lemma elem_of_set_delete (c x : conn) (s : list conn) :
  x ∈ set_delete c s ↔ x ≠ c ∧ x ∈ s.
Proof. unfold set_delete. by rewrite list_elem_of_filter. Qed.

Lemma elem_of_fan_out (s : list conn) (keep : conn → bool) (m : out_msg)
    (c : conn) (m' : out_msg) :
  (c, m') ∈ fan_out s keep m ↔ m' = m ∧ c ∈ s ∧ keep c = true.
Proof.
  unfold fan_out. rewrite list_elem_of_fmap. split.
  - intros [x [[= -> ->] Hx]]. apply list_elem_of_In, filter_In in Hx.
    destruct Hx as [Hx Hk]. by rewrite <- list_elem_of_In in Hx.
  - intros (-> & Hc & Hk). exists c. split; [done|].
    apply list_elem_of_In, filter_In. by rewrite <- list_elem_of_In.
Qed.

Lemma roles_sent_app (ws : conn) (a b : list sent) :
  roles_sent ws (a ++ b) = roles_sent ws a ++ roles_sent ws b.
Proof. apply omap_app. Qed.

Lemma roles_sent_fan_out_stats (ws : conn) (s : list conn)
    (keep : conn → bool) (n : nat) :
  roles_sent ws (fan_out s keep (Stats n)) = [].
Proof.
  unfold fan_out. induction s as [|c s IH]; simpl; [done|].
  destruct (keep c); simpl; [|done]. apply IH.
Qed.

(** ** Joining a room *)
Section ServerJoin.
Context `{RulesEngine}.
Import Server.

Lemma join_notices_seats (ws : conn) (r : Room) :
  white (join_notices ws r).1 = white r
  ∧ black (join_notices ws r).1 = black r
  ∧ spectators (join_notices ws r).1 = spectators r
  ∧ clients (join_notices ws r).1 = clients r
  ∧ fen (join_notices ws r).1 = fen r
  ∧ game (join_notices ws r).1 = game r.
Proof.
  unfold join_notices.
  destruct (white r) eqn:Hw, (black r) eqn:Hb; simpl; try done.
  destruct (started r); simpl; repeat split; done.
Qed.

Lemma join_notices_roles (ws : conn) (r : Room) :
  roles_sent ws (join_notices ws r).2 = [].
Proof.
  unfold join_notices, roles_sent, opponent_info, player_info.
  destruct (white r), (black r); simpl; try done.
  destruct (started r); simpl; rewrite ?omap_app;
    repeat (case_match; simpl); done.
Qed.

Lemma handle_join_room (ws : conn) (roomId : string) (userId : option Z)
    (username : option string) (st : State) :
  let room0 := default (new_room roomId) (jmap_get roomId (rooms st)) in
  let room2 :=
    (assign_seat ws userId username
       (with_clients (set_add ws (clients room0)) room0)).1 in
  jmap_get roomId (rooms (handle_join ws roomId userId username st).1)
  = Some (join_notices ws room2).1.
Proof.
  intros room0 room2. unfold handle_join. fold room0.
  subst room2.
  destruct (assign_seat ws userId username _) as [r2 role]. simpl.
  destruct (join_notices ws r2) as [r3 n]. simpl.
  apply jmap_get_set_eq.
Qed.
End ServerJoin.

(** ** Running the methods of the worker room *)
Module WorkerRun.
Import Worker.

Section Bind.
Context {A B : Type}.

Lemma val_bind (m : M A) (k : A → M B) r :
  val (m ≫= k) r = val (k (val m r)) (exec m r).
Proof. reflexivity. Qed.

Lemma exec_bind (m : M A) (k : A → M B) r :
  exec (m ≫= k) r = exec (k (val m r)) (exec m r).
Proof. reflexivity. Qed.

Lemma trace_bind (m : M A) (k : A → M B) r :
  trace (m ≫= k) r = trace m r ++ trace (k (val m r)) (exec m r).
Proof. reflexivity. Qed.

Lemma val_ret (a : A) r : val (mret a) r = a.
Proof. reflexivity. Qed.

Lemma exec_ret (a : A) r : exec (mret a) r = r.
Proof. reflexivity. Qed.

Lemma trace_ret (a : A) r : trace (mret a) r = [].
Proof. reflexivity. Qed.
End Bind.

Lemma val_this r : val this r = r.
Proof. reflexivity. Qed.
Lemma exec_this r : exec this r = r.
Proof. reflexivity. Qed.
Lemma trace_this r : trace this r = [].
Proof. reflexivity. Qed.
Lemma exec_assign r' r : exec (assign r') r = r'.
Proof. reflexivity. Qed.
Lemma trace_assign r' r : trace (assign r') r = [].
Proof. reflexivity. Qed.
Lemma exec_emit es r : exec (emit es) r = r.
Proof. reflexivity. Qed.
Lemma trace_emit es r : trace (emit es) r = es.
Proof. reflexivity. Qed.
Lemma exec_send ws m r : exec (send ws m) r = r.
Proof. reflexivity. Qed.
Lemma trace_send ws m r : trace (send ws m) r = [Send ws m].
Proof. reflexivity. Qed.
Lemma exec_persist r : exec persist r = r.
Proof. reflexivity. Qed.
Lemma trace_persist r : trace persist r = [StoragePut (snapshot r)].
Proof. reflexivity. Qed.
Lemma exec_broadcast m e r : exec (broadcast m e) r = r.
Proof. reflexivity. Qed.
Lemma trace_broadcast m e r :
  trace (broadcast m e) r
  = (λ c, Send c m)
      <$> List.filter (λ c, negb (is_conn e c)) (sockets r).*1.
Proof. reflexivity. Qed.
Lemma exec_updateStats r : exec updateStats r = r.
Proof. reflexivity. Qed.
Lemma trace_updateStats r :
  trace updateStats r
  = (λ c, Send c (Stats (length (sockets r)))) <$> (sockets r).*1.
Proof.
  unfold trace, updateStats, broadcast. simpl.
  f_equal. induction (sockets r).*1 as [|c l IH]; simpl; [done | by f_equal].
Qed.
Lemma exec_when b m r : exec (when b m) r = if b then exec m r else r.
Proof. by destruct b. Qed.
Lemma trace_when b m r : trace (when b m) r = if b then trace m r else [].
Proof. by destruct b. Qed.

Create Rewrite HintDb worker_run.
#[export] Hint Rewrite @val_bind @exec_bind @trace_bind @val_ret @exec_ret
  @trace_ret val_this exec_this trace_this exec_assign trace_assign
  exec_emit trace_emit exec_send trace_send exec_persist trace_persist
  exec_broadcast exec_updateStats exec_when trace_when : worker_run.

Ltac run_worker := autorewrite with worker_run.

Lemma frames_app (a b : list effect) : frames (a ++ b) = frames a ++ frames b.
Proof. apply omap_app. Qed.

Lemma reads_app (a b : list effect) : reads (a ++ b) = (reads a + reads b)%nat.
Proof. unfold reads. by rewrite List.filter_app, length_app. Qed.

Lemma storage_after_app s (a b : list effect) :
  storage_after s (a ++ b) = storage_after (storage_after s a) b.
Proof. apply foldl_app. Qed.

(** Frames leave the storage alone. *)
Lemma storage_after_sends s (l : list conn) (f : conn → out_msg) :
  storage_after s ((λ c, Send c (f c)) <$> l) = s.
Proof. induction l as [|c l IH]; simpl; [done | apply IH]. Qed.

Lemma reads_sends (l : list conn) (f : conn → out_msg) :
  reads ((λ c, Send c (f c)) <$> l) = 0%nat.
Proof. induction l as [|c l IH]; simpl; [done | apply IH]. Qed.

Lemma frames_sends (l : list conn) (f : conn → out_msg) :
  frames ((λ c, Send c (f c)) <$> l) = (λ c, (c, f c)) <$> l.
Proof. induction l as [|c l IH]; simpl; [done | by f_equal]. Qed.

(** *** [assignRole] *)
Lemma assignRole_exec ws userId username r :
  exec (assignRole ws userId username) r
  = match white r with
    | None =>
        let r1 := set_white (Some ws)
                    {| m_id := userId; m_username := username |} r in
        set_sockets (jmap_set ws (conn_of userId username W) (sockets r1)) r1
    | Some _ =>
        match black r with
        | None =>
            let r1 := set_black (Some ws)
                        {| m_id := userId; m_username := username |} r in
            set_sockets (jmap_set ws (conn_of userId username B) (sockets r1)) r1
        | Some _ =>
            set_sockets (jmap_set ws (conn_of userId username S) (sockets r)) r
        end
    end.
Proof.
  unfold assignRole. run_worker.
  destruct (white r); [destruct (black r)|]; reflexivity.
Qed.

Lemma assignRole_trace ws userId username r :
  trace (assignRole ws userId username) r = [].
Proof.
  unfold assignRole. run_worker.
  destruct (white r); [destruct (black r)|]; reflexivity.
Qed.

(** *** [maybeStart] *)
Lemma maybeStart_exec r :
  exec maybeStart r
  = if started r then r
    else if seats_filled r then set_started true r else r.
Proof.
  unfold maybeStart, seats_filled. run_worker.
  destruct (started r); [done|].
  destruct (white r), (black r); run_worker; repeat case_match; done.
Qed.

Lemma maybeStart_trace r :
  trace maybeStart r
  = match started r, white r, black r with
    | false, Some w, Some b =>
        (if meta_known (whiteMeta r) && meta_known (blackMeta r)
         then [Send w (OpponentInfo (or_zero (m_id (blackMeta r)))
                         (or_str (m_username (blackMeta r)) ""));
               Send b (OpponentInfo (or_zero (m_id (whiteMeta r)))
                         (or_str (m_username (whiteMeta r)) ""))]
         else [])
        ++ [Send w (StartGame W); Send b (StartGame B);
            StoragePut (snapshot (set_started true r))]
    | _, _, _ => []
    end.
Proof.
  unfold maybeStart. run_worker.
  destruct (started r); [done|].
  destruct (white r), (black r); run_worker; repeat case_match; done.
Qed.

(** *** [fetch] *)
Lemma fetch_exec server auth r :
  exec (fetch server auth) r
  = exec maybeStart
      (exec (assignRole server (sub <$> auth) (a_username <$> auth)) r).
Proof. unfold fetch. run_worker. repeat case_match; reflexivity. Qed.

Lemma fetch_trace server auth r :
  let r1 := exec (assignRole server (sub <$> auth) (a_username <$> auth)) r in
  let ro := default S (c_role <$> jmap_get server (sockets r1)) in
  trace (fetch server auth) r
  = trace updateStats r1
    ++ [Send server
          (RoleMsg ro (negb (bool_decide (ro = S)) && negb (seats_filled r1)))]
    ++ (if truthy_str (fen r1)
        then [Send server (StateMsg (or_str (fen r1) ""))] else [])
    ++ (if bool_decide (ro = S) then player_frames server r1 else [])
    ++ trace maybeStart r1.
Proof.
  intros r1 ro. unfold fetch, player_frames. run_worker.
  rewrite assignRole_trace. fold r1. fold ro. simpl.
  repeat case_match; simpl; rewrite ?app_nil_r; reflexivity.
Qed.
End WorkerRun.

Section JoinRole.
Context `{RulesEngine}.
Import Server.

Lemma handle_join_roles (ws : conn) (roomId : string) (userId : option Z)
    (username : option string) (st : State) :
  let room0 := default (new_room roomId) (jmap_get roomId (rooms st)) in
  roles_sent ws (handle_join ws roomId userId username st).2
  = [(assign_seat ws userId username
        (with_clients (set_add ws (clients room0)) room0)).2].
Proof.
  intros room0. unfold handle_join. fold room0.
  destruct (assign_seat ws userId username _) as [r2 ro]. simpl.
  pose proof (join_notices_roles ws r2) as Hn.
  destruct (join_notices ws r2) as [r3 n]. simpl in *.
  rewrite roles_sent_app, roles_sent_fan_out_stats. simpl.
  change (roles_sent ws ((ws, RoleMsg ro ?w) :: ?l))
    with (roles_sent ws ([(ws, RoleMsg ro w)] ++ l)).
  rewrite !roles_sent_app, Hn, app_nil_r.
  unfold roles_sent at 1. simpl. rewrite decide_True by done.
  destruct (truthy_str (fen r2)); reflexivity.
Qed.

Lemma server_join_seated (ws : conn) (roomId : string) (userId : option Z)
    (username : option string) (st : State) :
  ∃ r',
    jmap_get roomId (rooms (handle_join ws roomId userId username st).1)
    = Some r'
    ∧ seated_as ws (seats_before roomId st) r'
        (roles_sent ws (handle_join ws roomId userId username st).2).
Proof.
  eexists. split; [apply handle_join_room|].
  rewrite handle_join_roles.
  set (room0 := default (new_room roomId) (jmap_get roomId (rooms st))).
  set (room1 := with_clients (set_add ws (clients room0)) room0).
  destruct (join_notices_seats ws (assign_seat ws userId username room1).1)
    as (Hw & Hb & Hs & _).
  assert (seats_before roomId st = (white room0, black room0)) as ->.
  { unfold seats_before, room0. by destruct (jmap_get roomId (rooms st)). }
  unfold seated_as. rewrite Hw, Hb, Hs. unfold assign_seat.
  change (white room1) with (white room0).
  change (black room1) with (black room0).
  destruct (white room0) eqn:Ew, (black room0) eqn:Eb; simpl;
    rewrite ?Ew, ?Eb; repeat split; try done.
  apply elem_of_set_add. by left.
Qed.
End JoinRole.

Section WorkerJoin.
Import Worker WorkerRun.

Lemma roles_sent_stats ws (f : conn → nat) (l : list conn) :
  roles_sent ws (frames ((λ c, Send c (Stats (f c))) <$> l)) = [].
Proof. induction l as [|c l IH]; simpl; [done | apply IH]. Qed.

Lemma roles_sent_maybeStart ws r :
  roles_sent ws (frames (trace maybeStart r)) = [].
Proof.
  rewrite maybeStart_trace.
  destruct (started r), (white r), (black r); try done.
  destruct (meta_known (whiteMeta r) && meta_known (blackMeta r)); done.
Qed.

Lemma worker_fetch_seated server auth r :
  worker_seated_as server r (exec (fetch server auth) r)
    (roles_sent server (frames (trace (fetch server auth) r))).
Proof.
  rewrite fetch_exec, fetch_trace.
  set (r1 := exec (assignRole server (sub <$> auth) (a_username <$> auth)) r).
  set (ro := default S (c_role <$> jmap_get server (sockets r1))).
  rewrite trace_updateStats, !frames_app, !roles_sent_app.
  rewrite (roles_sent_stats server (λ _, length (sockets r1))).
  rewrite roles_sent_maybeStart, app_nil_r.
  assert (roles_sent server
            (frames (if truthy_str (fen r1)
                     then [Send server (StateMsg (or_str (fen r1) ""))]
                     else [])) = []) as ->.
  { by destruct (truthy_str (fen r1)). }
  assert (roles_sent server
            (frames (if bool_decide (ro = S)
                     then player_frames server r1 else [])) = []) as ->.
  { unfold player_frames.
    destruct (bool_decide (ro = S)), (meta_known (whiteMeta r1)),
      (meta_known (blackMeta r1)); done. }
  simpl. unfold roles_sent. simpl. rewrite decide_True by done. simpl.
  rewrite maybeStart_exec.
  assert (∀ x, white (if started r1 then r1
                      else if seats_filled r1 then set_started true r1 else r1)
               = x ↔ white r1 = x) as Hw.
  { intros x. by destruct (started r1), (seats_filled r1). }
  assert (∀ x, black (if started r1 then r1
                      else if seats_filled r1 then set_started true r1 else r1)
               = x ↔ black r1 = x) as Hb.
  { intros x. by destruct (started r1), (seats_filled r1). }
  assert (sockets (if started r1 then r1
                   else if seats_filled r1 then set_started true r1 else r1)
          = sockets r1) as Hs.
  { by destruct (started r1), (seats_filled r1). }
  unfold worker_seated_as. rewrite Hs.
  subst ro r1. rewrite assignRole_exec in *.
  destruct (white r) eqn:Ew, (black r) eqn:Eb; simpl in *;
    rewrite ?Hw, ?Hb, ?jmap_get_set_eq; simpl; done.
Qed.
End WorkerJoin.

(** C9. A [join] is seated by what it finds: with no seat taken the joiner
    gets white, with only white taken it gets black, with both taken it is
    a spectator; the [role] frame it is sent names that role and no other.
    This holds for the Node coordinator and for the worker room alike. *)
Theorem join_assigns_role `{RulesEngine} :
  (∀ ws roomId userId username st,
     ∃ r',
       jmap_get roomId
         (Server.rooms (Server.handle_join ws roomId userId username st).1)
       = Some r'
       ∧ seated_as ws (seats_before roomId st) r'
           (roles_sent ws (Server.handle_join ws roomId userId username st).2))
  ∧ (∀ server auth r,
       worker_seated_as server r (Worker.exec (Worker.fetch server auth) r)
         (roles_sent server
            (Worker.frames (Worker.trace (Worker.fetch server auth) r)))).
Proof.
  split.
  - apply server_join_seated.
  - apply worker_fetch_seated.
Qed.

(** ** Moves on the Node coordinator *)
Section ServerMove.
Context `{RulesEngine}.
Import Server.

Lemma Forall_jmap_set {V} (P : string * V → Prop) k v (m : list (string * V)) :
  Forall P m → P (k, v) → Forall P (jmap_set k v m).
Proof.
  intros Hm Hv. induction Hm as [|[k' v'] m Hx Hm IH]; simpl.
  - by constructor.
  - destruct (decide (k = k')); constructor; done.
Qed.

Lemma Forall_jmap_get {V} (P : string * V → Prop) k v (m : list (string * V)) :
  Forall P m → jmap_get k m = Some v → P (k, v).
Proof.
  intros Hm Hg. apply jmap_get_elem_of in Hg.
  rewrite Forall_forall in Hm. by apply Hm.
Qed.

Lemma close_room_game ws r : game (close_room ws r).1 = game r.
Proof. unfold close_room. by destruct (set_has ws (clients r)). Qed.

Lemma assign_seat_game ws u n r : game (assign_seat ws u n r).1 = game r.
Proof. unfold assign_seat. by destruct (white r), (black r). Qed.

Lemma play_move_have_game ws roomId f t p g room st :
  rooms_have_game st →
  rooms_have_game (play_move ws roomId f t p g room st).1.
Proof.
  intros Hst. unfold play_move.
  destruct (chess_move g f t p) as [g'|]; [|done].
  apply Forall_jmap_set; [done | by eexists].
Qed.

Lemma step_have_game ev st :
  rooms_have_game st → rooms_have_game (step ev st).1.
Proof.
  intros Hst. destruct ev as [e ws [u|u|roomId u n|roomId f t p x|roomId r w]|ws];
    simpl.
  - unfold handle_auth. destruct u; [|done]. by case_match.
  - unfold handle_find_match. destruct u; [|done].
    repeat case_match; done.
  - pose proof (handle_join_room ws roomId u n st) as Hr. simpl in Hr.
    unfold handle_join in *.
    destruct (assign_seat ws u n _) as [r2 ro] eqn:Ea.
    pose proof (join_notices_seats ws r2) as (_ & _ & _ & _ & _ & Hg).
    destruct (join_notices ws r2) as [r3 nt]. simpl in *.
    apply Forall_jmap_set; [done|]. simpl. rewrite Hg.
    replace r2 with (assign_seat ws u n
      (with_clients
         (set_add ws (clients (default (new_room roomId)
                                 (jmap_get roomId (rooms st)))))
         (default (new_room roomId) (jmap_get roomId (rooms st))))).1
      by by rewrite Ea.
    rewrite assign_seat_game. simpl.
    destruct (jmap_get roomId (rooms st)) as [r0|] eqn:E0; simpl.
    + apply (Forall_jmap_get _ _ _ _ Hst E0).
    + by eexists.
  - unfold handle_move.
    destruct (jmap_get roomId (rooms st)) as [room|]; [|done].
    destruct (truthy_str f && truthy_str t); [|done].
    destruct (game room) as [g|].
    + by apply play_move_have_game.
    + destruct (chess_load _) as [g|]; [|done].
      apply play_move_have_game.
      apply Forall_jmap_set; [done | by eexists].
  - unfold handle_game_over.
    destruct (jmap_get roomId (rooms st)); done.
  - unfold handle_close, rooms_have_game in *. simpl.
    rewrite Forall_fmap. eapply Forall_impl; [exact Hst|].
    intros [k r0] Hr0. simpl in *. by rewrite close_room_game.
Qed.

Lemma reachable_have_game d st : reachable d st → rooms_have_game st.
Proof.
  induction 1 as [|ev st Hr IH].
  - constructor.
  - by apply step_have_game.
Qed.

Lemma handle_move_played ws roomId from to promotion st room g :
  jmap_get roomId (rooms st) = Some room →
  game room = Some g →
  truthy_str from && truthy_str to = true →
  handle_move ws roomId from to promotion st
  = play_move ws roomId (or_str from "") (or_str to "")
      (or_str promotion "q") g room st.
Proof.
  intros Hroom Hg Ht. unfold handle_move. by rewrite Hroom, Ht, Hg.
Qed.
End ServerMove.

(** C10. When the rules engine refuses the move of a [move] event, the
    handler leaves the whole state as it was, the room, its position and
    its game included, and sends no frame to anyone. *)
Theorem rejected_move_changes_nothing `{RulesEngine}
    (d : Server.Db) (st : Server.State) (e : Env) (ws : conn)
    (roomId : string) (from to promotion fen : option string)
    (room : Server.Room) :
  Server.reachable d st →
  jmap_get roomId (Server.rooms st) = Some room →
  (∀ g, Server.game room = Some g →
        chess_move g (or_str from "") (or_str to "") (or_str promotion "q")
        = None) →
  Server.step (Server.Message e ws (Server.Move roomId from to promotion fen)) st
  = (st, []).
Proof.
  intros Hreach Hroom Hrej. simpl. unfold Server.handle_move. rewrite Hroom.
  destruct (truthy_str from && truthy_str to); [|done].
  pose proof (reachable_have_game d st Hreach) as Hinv.
  destruct (Forall_jmap_get _ _ _ _ Hinv Hroom) as [g Hg]. simpl in Hg.
  rewrite Hg. unfold Server.play_move. by rewrite (Hrej g Hg).
Qed.

Lemma scenario_seated_reachable :
  Server.reachable Scenario.db0 Scenario.seated.
Proof.
  unfold Scenario.seated. apply Server.reach_step, Server.reach_step.
  apply Server.reach_init.
Qed.

(** In the room of two seated players at the start position, e2-e5 is
    refused and changes nothing. *)
Lemma rejected_move_changes_nothing_witness :
  Server.step Scenario.e2e5 Scenario.seated = (Scenario.seated, []).
Proof.
  eapply (rejected_move_changes_nothing Scenario.db0 Scenario.seated
            Opening.env 1%nat "r" (Some "e2") (Some "e5") None).
  - apply scenario_seated_reachable.
  - reflexivity.
  - intros g [= <-]. reflexivity.
Defined.

(** C1, as stated, fails on the Node coordinator: a refused move with a
    client-made position is neither stored nor relayed. *)
Lemma move_is_validated_counterexample :
  let res := Server.step Scenario.e2e5 Scenario.seated in
  (Server.fen <$> jmap_get "r" (Server.rooms res.1))
  = Some (Some Opening.start_fen)
  ∧ (Server.fen <$> jmap_get "r" (Server.rooms res.1))
    ≠ Some (Some "rnbqkbnr/pppppppp/8/4P3/8/8/PPPP1PPP/RNBQKBNR b KQkq - 0 1")
  ∧ res.2 = [].
Proof. vm_compute. repeat split; discriminate. Qed.

(** ** Moves on the worker room *)
Section WorkerMove.
Import Worker WorkerRun.

Lemma filter_no_except (l : list conn) :
  List.filter (λ c, negb (is_conn None c)) l = l.
Proof.
  induction l as [|c l IH]; simpl; [done|].
  f_equal. exact IH.
Qed.

Lemma on_move_exec server from to fen promotion r :
  exec (on_move server (Some from) (Some to) (Some fen) promotion) r
  = set_fen (Some fen) r.
Proof. reflexivity. Qed.

Lemma on_move_trace server from to fen promotion r :
  trace (on_move server (Some from) (Some to) (Some fen) promotion) r
  = StoragePut (snapshot (set_fen (Some fen) r))
    :: ((λ c, Send c (MoveMsg from to (or_str promotion "q") fen None))
          <$> (sockets r).*1).
Proof.
  unfold on_move. run_worker. rewrite trace_broadcast. simpl.
  by rewrite filter_no_except.
Qed.

Lemma on_move_frames server from to fen promotion r :
  frames (trace (on_move server (Some from) (Some to) (Some fen) promotion) r)
  = (λ c, (c, MoveMsg from to (or_str promotion "q") fen None))
      <$> (sockets r).*1.
Proof.
  rewrite on_move_trace. simpl.
  apply (frames_sends _ (λ _, MoveMsg from to (or_str promotion "q") fen None)).
Qed.
End WorkerMove.

(** C1, amended.  The worker room stores the position a client sends and
    relays the frame as sent, whatever the move is.  The Node coordinator
    asks the rules engine: when it plays the move, the stored position is
    the one the engine reports (the frame's own position is not read) and
    the move is relayed to the other clients; when it refuses, nothing is
    stored and nothing is relayed. *)
Theorem move_snapshot_and_relay `{RulesEngine} :
  (∀ server from to fen promotion r,
     let m := Worker.on_move server (Some from) (Some to) (Some fen) promotion in
     let relayed := MoveMsg from to (or_str promotion "q") fen None in
     Worker.fen (Worker.exec m r) = Some fen
     ∧ (∀ c, c ∈ (Worker.sockets r).*1 → c ≠ server →
             (c, relayed) ∈ Worker.frames (Worker.trace m r))
     ∧ (∀ c x, (c, x) ∈ Worker.frames (Worker.trace m r) → x = relayed))
  ∧ (∀ st e ws roomId from to promotion fen room g,
       jmap_get roomId (Server.rooms st) = Some room →
       Server.game room = Some g →
       truthy_str from && truthy_str to = true →
       let res :=
         Server.step
           (Server.Message e ws (Server.Move roomId from to promotion fen)) st in
       match chess_move g (or_str from "") (or_str to "") (or_str promotion "q")
       with
       | Some g' =>
           (Server.fen <$> jmap_get roomId (Server.rooms res.1))
           = Some (Some (chess_fen g'))
           ∧ res.2
             = fan_out (Server.clients room) (Server.others ws)
                 (MoveMsg (or_str from "") (or_str to "") (or_str promotion "q")
                    (chess_fen g') (Server.currentUserId st !! ws))
       | None => res = (st, [])
       end).
Proof.
  split.
  - intros server from to fen promotion r m relayed. subst m relayed.
    rewrite on_move_exec, on_move_frames. split; [done|]. split.
    + intros c Hc _. apply list_elem_of_fmap. by exists c.
    + intros c x Hx. apply list_elem_of_fmap in Hx as [c' [[= -> ->] _]]. done.
  - intros st e ws roomId from to promotion fen room g Hroom Hg Ht res.
    subst res. simpl.
    rewrite (handle_move_played ws roomId from to promotion st room g Hroom Hg Ht).
    unfold Server.play_move.
    destruct (chess_move g _ _ _) as [g'|]; [|done]. simpl.
    by rewrite jmap_get_set_eq.
Qed.

(** In the same room e2-e4 is played: the engine's position is stored and
    socket 2 alone is sent the move. *)
Lemma move_snapshot_and_relay_witness :
  let res := Server.step Scenario.e2e4 Scenario.seated in
  (Server.fen <$> jmap_get "r" (Server.rooms res.1))
  = Some (Some Opening.e4_fen)
  ∧ res.2
    = [(2%nat, MoveMsg "e2" "e4" "q" Opening.e4_fen None)].
Proof.
  exact (proj2 move_snapshot_and_relay Scenario.seated Opening.env 1%nat "r"
           (Some "e2") (Some "e4") None (Some "anything")
           (default (Server.new_room "r")
              (jmap_get "r" (Server.rooms Scenario.seated)))
           Opening.Start eq_refl eq_refl eq_refl).
Defined.

(** ** Who is sent a move *)
Section MoveFanOut.
Context `{RulesEngine}.
Import Server.

(** On the Node coordinator a played move goes to every other client of
    the room and never to its sender. *)
Lemma server_move_fan_out st e ws roomId from to promotion fen room g g' :
  jmap_get roomId (rooms st) = Some room →
  game room = Some g →
  truthy_str from && truthy_str to = true →
  chess_move g (or_str from "") (or_str to "") (or_str promotion "q")
  = Some g' →
  let out := (step (Message e ws (Move roomId from to promotion fen)) st).2 in
  (∀ c, c ∈ clients room → c ≠ ws → c ∈ move_recipients out)
  ∧ ws ∉ out.*1.
Proof.
  intros Hroom Hg Ht Hmv out. subst out. simpl.
  rewrite (handle_move_played ws roomId from to promotion st room g Hroom Hg Ht).
  unfold play_move. rewrite Hmv. simpl.
  split.
  - intros c Hc Hne. unfold move_recipients.
    apply list_elem_of_omap. eexists (c, _).
    split; [apply elem_of_fan_out; repeat split; [done|] | done].
    unfold others. by apply bool_decide_eq_true.
  - intros Hin. apply list_elem_of_fmap in Hin as [[c m] [-> Hcm]].
    apply elem_of_fan_out in Hcm as (_ & _ & Hk). simpl in Hk.
    unfold others in Hk. by apply bool_decide_eq_true in Hk.
Qed.
End MoveFanOut.

(** On the worker room the move frame goes to every socket of the room,
    the sender's among them. *)
Lemma worker_move_reaches_sender server from to fen promotion r :
  server ∈ (Worker.sockets r).*1 →
  (server, MoveMsg from to (or_str promotion "q") fen None)
  ∈ Worker.frames
      (Worker.trace
         (Worker.on_move server (Some from) (Some to) (Some fen) promotion) r).
Proof.
  intros Hin. rewrite on_move_frames. apply list_elem_of_fmap. by exists server.
Qed.

(** C8, on the worker room: with sockets 1 and 2 seated, the move that
    socket 1 sends is sent to socket 2 and back to socket 1. *)
Theorem worker_move_echoed_to_sender :
  move_recipients
    (Worker.frames (Worker.step WorkerScenario.e2e4 WorkerScenario.seated).2)
  = [1%nat; 2%nat].
Proof. reflexivity. Qed.

(** ** A seat-holder leaves a started room *)
Import (hints) WorkerRun.

(** The worker room clears the seat and the [started] flag and keeps the
    position and the recorded identities. *)
Lemma worker_cleanup_seat_holder server r rc :
  jmap_get server (Worker.sockets r) = Some rc →
  Worker.c_role rc ≠ S →
  let r' := Worker.exec (Worker.cleanup server) r in
  Worker.started r' = false
  ∧ Worker.fen r' = Worker.fen r
  ∧ (Worker.white r = Some server → Worker.white r' = None)
  ∧ (Worker.black r = Some server → Worker.black r' = None).
Proof.
  intros Hrc Hrole r'. subst r'. unfold Worker.cleanup.
  autorewrite with worker_run. rewrite Hrc. simpl.
  destruct (Worker.c_role rc) eqn:Ero; [| |done]; simpl;
    (split; [done|]; split; [done|];
     split; intros ->; unfold is_conn; by rewrite bool_decide_true).
Qed.

(** C3, on the Node coordinator: sockets 1 and 2 are seated and the game
    has started; socket 1 closes.  The white seat is cleared and the room
    and its position stay, but [started] is still set, so when socket 3
    takes the white seat no [start_game] is sent. *)
Theorem server_close_keeps_started :
  let closed := (Server.step (Server.Close 1%nat) Scenario.seated).1 in
  let rejoined := Server.step (Scenario.join 3%nat 9 "cy") closed in
  (Server.started <$> jmap_get "r" (Server.rooms Scenario.seated)) = Some true
  ∧ (Server.white <$> jmap_get "r" (Server.rooms closed)) = Some None
  ∧ (Server.fen <$> jmap_get "r" (Server.rooms closed))
    = (Server.fen <$> jmap_get "r" (Server.rooms Scenario.seated))
  ∧ (Server.started <$> jmap_get "r" (Server.rooms closed)) = Some true
  ∧ (Server.white <$> jmap_get "r" (Server.rooms rejoined.1)) = Some (Some 3%nat)
  ∧ (Server.black <$> jmap_get "r" (Server.rooms rejoined.1)) = Some (Some 2%nat)
  ∧ start_recipients rejoined.2 = [].
Proof. vm_compute. repeat split. Qed.

(** C4, on the Node coordinator: socket 1 joins, socket 2 joins, socket 1
    sends [join] again.  Socket 1 then holds the white seat and is a
    member of the spectator set. *)
Theorem server_rejoin_seat_and_spectator :
  let st := (Server.step (Scenario.join 1%nat 7 "ann") Scenario.seated).1 in
  (Server.white <$> jmap_get "r" (Server.rooms st)) = Some (Some 1%nat)
  ∧ (Server.spectators <$> jmap_get "r" (Server.rooms st)) = Some [1%nat].
Proof. vm_compute. repeat split. Qed.

(** ** Settlement *)
Lemma truthy_num_Some (n : Z) : n ≠ 0 → truthy_num (Some n) = true.
Proof. intros Hn. simpl. by apply negb_true_iff, Z.eqb_neq. Qed.




Section ServerSettlement.
Context `{RulesEngine}.
Import Server.



End ServerSettlement.




(** ** Matchmaking *)
Section ServerQueue.
Context `{RulesEngine}.
Import Server.

Lemma find_neither_empty (uid : Z) (q : list Ticket) :
  list_find (λ t, t_userId t = uid) q = None →
  list_find (λ t, t_userId t ≠ uid) q = None →
  q = [].
Proof.
  intros He Hn. destruct q as [|t q]; [done|].
  apply list_find_None in He, Hn.
  apply Forall_cons in He as [He _], Hn as [Hn _]. done.
Qed.

Lemma handle_find_match_queue e ws userId st :
  (length (matchQueue st) ≤ 1)%nat →
  (length (matchQueue (handle_find_match e ws userId st).1) ≤ 1)%nat.
Proof.
  intros Hq. unfold handle_find_match. destruct userId as [uid|]; [|done].
  destruct (list_find (λ t, t_userId t = uid) (matchQueue st))
    as [[i existing]|] eqn:He.
  - simpl. by rewrite length_insert.
  - destruct (list_find (λ t, t_userId t ≠ uid) (matchQueue st))
      as [[idx opponent]|] eqn:Hn.
    + apply list_find_Some in Hn as (Hidx & _ & _).
      pose proof (length_delete (matchQueue st) idx (mk_is_Some _ _ Hidx)).
      destruct (ws_open e (t_ws opponent)); simpl.
      * lia.
      * rewrite length_app. simpl. lia.
    + unfold enqueue. simpl. rewrite (find_neither_empty uid _ He Hn). done.
Qed.

(** The queue of the Node coordinator never holds two tickets. *)
Lemma step_queue ev st :
  (length (matchQueue st) ≤ 1)%nat →
  (length (matchQueue (step ev st).1) ≤ 1)%nat.
Proof.
  intros Hq.
  destruct ev as [e ws [u|u|roomId u n|roomId f t p x|roomId r w]|ws]; simpl.
  - unfold handle_auth. destruct u; [|done]. by case_match.
  - by apply handle_find_match_queue.
  - unfold handle_join.
    destruct (assign_seat ws u n _) as [r2 ro].
    by destruct (join_notices ws r2).
  - unfold handle_move, play_move.
    repeat case_match; done.
  - unfold handle_game_over. by case_match.
  - etransitivity; [apply length_filter | done].
Qed.

Lemma reachable_queue d st :
  reachable d st → (length (matchQueue st) ≤ 1)%nat.
Proof.
  induction 1 as [|ev st Hr IH]; [simpl; lia | by apply step_queue].
Qed.

Lemma server_pairs_first_viable d st e ws uid i t :
  reachable d st →
  list_find (λ t, t_userId t = uid) (matchQueue st) = None →
  list_find (λ t, ws_open e (t_ws t) = true) (matchQueue st) = Some (i, t) →
  handle_find_match e ws (Some uid) st
  = (with_queue (delete i (matchQueue st)) st,
     [(ws, MatchFound (rand_id e)); (t_ws t, MatchFound (rand_id e))]).
Proof.
  intros Hr He Hv. pose proof (reachable_queue d st Hr) as Hq.
  apply list_find_Some in Hv as (Hi & Hopen & _).
  unfold handle_find_match. rewrite He.
  destruct (matchQueue st) as [|t0 [|t1 q]]; [done| |simpl in Hq; lia].
  destruct i; [|done]. injection Hi as ->.
  apply list_find_None, Forall_cons in He as [He _].
  simpl. rewrite decide_True by done. simpl. by rewrite Hopen.
Qed.

Lemma server_drops_dead_ticket d st e ws uid :
  reachable d st →
  list_find (λ t, t_userId t = uid) (matchQueue st) = None →
  matchQueue st ≠ [] →
  list_find (λ t, ws_open e (t_ws t) = true) (matchQueue st) = None →
  handle_find_match e ws (Some uid) st
  = (with_queue [{| t_ws := ws; t_userId := uid |}] st, []).
Proof.
  intros Hr He Hne Hv. pose proof (reachable_queue d st Hr) as Hq.
  unfold handle_find_match. rewrite He.
  destruct (matchQueue st) as [|t0 [|t1 q]]; [done| |simpl in Hq; lia].
  apply list_find_None, Forall_cons in He as [He _].
  apply list_find_None, Forall_cons in Hv as [Hv _].
  simpl. rewrite decide_True by done. simpl.
  by destruct (ws_open e (t_ws t0)).
Qed.
Lemma server_rebinds_ticket st e ws uid i t :
  list_find (λ t, t_userId t = uid) (matchQueue st) = Some (i, t) →
  handle_find_match e ws (Some uid) st
  = (with_queue
       (<[i := {| t_ws := ws; t_userId := t_userId t |}]> (matchQueue st)) st,
     []).
Proof. intros He. unfold handle_find_match. by rewrite He. Qed.
End ServerQueue.

Section WorkerQueue.
Import Worker.

Lemma mm_find_match_queue roomId server q :
  (length (queue q) ≤ 1)%nat →
  (length (queue (mm_find_match roomId server q).1) ≤ 1)%nat.
Proof.
  intros Hq. unfold mm_find_match.
  pose proof (length_filter (λ s, s ≠ server) (queue q)) as Hf.
  destruct (filter (λ s, s ≠ server) (queue q)) as [|opponent rest]; [done|].
  simpl in Hf.
  destruct (jmap_has opponent (mm_sockets q)); simpl; [lia|].
  rewrite length_app. simpl. lia.
Qed.

(** Nor does the queue of the worker. *)
Lemma mm_reachable_queue q : mm_reachable q → (length (queue q) ≤ 1)%nat.
Proof.
  induction 1 as [|ev q Hr IH]; [simpl; lia|].
  destruct ev as [server auth|roomId server|server]; simpl.
  - done.
  - by apply mm_find_match_queue.
  - etransitivity; [apply length_filter | done].
Qed.

Lemma worker_pairs_first_viable q roomId server i c :
  mm_reachable q →
  server ∉ queue q →
  list_find (λ c, jmap_has c (mm_sockets q) = true) (queue q) = Some (i, c) →
  mm_find_match roomId server q
  = ({| queue := delete i (queue q); mm_sockets := mm_sockets q |},
     [(server, MatchFound roomId); (c, MatchFound roomId)]).
Proof.
  intros Hr Hs Hv. pose proof (mm_reachable_queue q Hr) as Hq.
  apply list_find_Some in Hv as (Hi & Hin & _).
  unfold mm_find_match.
  destruct (queue q) as [|c0 [|c1 l]]; [done| |simpl in Hq; lia].
  destruct i; [|done]. injection Hi as ->.
  rewrite filter_cons_True by (intros ->; apply Hs, list_elem_of_here).
  rewrite filter_nil. by rewrite Hin.
Qed.

Lemma worker_drops_dead_ticket q roomId server :
  mm_reachable q →
  server ∉ queue q →
  queue q ≠ [] →
  list_find (λ c, jmap_has c (mm_sockets q) = true) (queue q) = None →
  mm_find_match roomId server q
  = ({| queue := [server]; mm_sockets := mm_sockets q |}, []).
Proof.
  intros Hr Hs Hne Hv. pose proof (mm_reachable_queue q Hr) as Hq.
  unfold mm_find_match.
  destruct (queue q) as [|c0 [|c1 l]]; [done| |simpl in Hq; lia].
  apply list_find_None, Forall_cons in Hv as [Hv _].
  rewrite filter_cons_True by (intros ->; apply Hs, list_elem_of_here).
  rewrite filter_nil. by destruct (jmap_has c0 (mm_sockets q)).
Qed.
Lemma worker_requeues_itself q roomId server :
  mm_reachable q →
  server ∈ queue q →
  mm_find_match roomId server q
  = ({| queue := [server]; mm_sockets := mm_sockets q |}, []).
Proof.
  intros Hr Hs. pose proof (mm_reachable_queue q Hr) as Hq.
  unfold mm_find_match.
  destruct (queue q) as [|c0 [|c1 l]];
    [by apply not_elem_of_nil in Hs| |simpl in Hq; lia].
  apply list_elem_of_singleton in Hs as ->.
  rewrite filter_cons_False by (intros Hne; by apply Hne).
  by rewrite filter_nil.
Qed.
End WorkerQueue.

(** C6, as stated, fails: user 7 waits on socket 1, which is open, and asks
    again on socket 2.  The queue is not empty, yet nobody is sent
    [match_found]: the ticket is only bound to socket 2. *)
Lemma find_match_again_counterexample :
  Server.matchQueue QueueScenario.queued
  = [{| Server.t_ws := 1%nat; Server.t_userId := 7 |}]
  ∧ ws_open Opening.env 1%nat = true
  ∧ Server.step
      (Server.Message Opening.env 2%nat (Server.FindMatch (Some 7)))
      QueueScenario.queued
    = (Server.with_queue [{| Server.t_ws := 2%nat; Server.t_userId := 7 |}]
         QueueScenario.queued, []).
Proof. repeat split. Qed.

(** C6, amended.  A [find_match] from an identity that holds no ticket,
    arriving at a non-empty queue: the first ticket whose connection is
    still open is popped and the requester and that connection are both
    sent [match_found] with the one id minted for them; when no ticket has
    an open connection, the dead ticket is dropped and the requester waits
    in its place.  A request from an identity that already holds a ticket
    (the same user id on the Node coordinator, the same socket on the
    worker) only rebinds or re-queues that ticket and pairs nobody. *)
Theorem find_match_pairs_first_viable `{RulesEngine} :
  (∀ d st e ws uid,
     Server.reachable d st →
     list_find (λ t, Server.t_userId t = uid) (Server.matchQueue st) = None →
     Server.matchQueue st ≠ [] →
     match list_find (λ t, ws_open e (Server.t_ws t) = true)
             (Server.matchQueue st) with
     | Some (i, t) =>
         Server.step (Server.Message e ws (Server.FindMatch (Some uid))) st
         = (Server.with_queue (delete i (Server.matchQueue st)) st,
            [(ws, MatchFound (rand_id e));
             (Server.t_ws t, MatchFound (rand_id e))])
     | None =>
         Server.step (Server.Message e ws (Server.FindMatch (Some uid))) st
         = (Server.with_queue
              [{| Server.t_ws := ws; Server.t_userId := uid |}] st, [])
     end)
  ∧ (∀ q roomId server,
       Worker.mm_reachable q →
       server ∉ Worker.queue q →
       Worker.queue q ≠ [] →
       match list_find (λ c, jmap_has c (Worker.mm_sockets q) = true)
               (Worker.queue q) with
       | Some (i, c) =>
           Worker.mm_step (Worker.MmFindMatch roomId server) q
           = ({| Worker.queue := delete i (Worker.queue q);
                 Worker.mm_sockets := Worker.mm_sockets q |},
              [(server, MatchFound roomId); (c, MatchFound roomId)])
       | None =>
           Worker.mm_step (Worker.MmFindMatch roomId server) q
           = ({| Worker.queue := [server];
                 Worker.mm_sockets := Worker.mm_sockets q |}, [])
       end)
  ∧ (∀ st e ws uid i t,
       list_find (λ t, Server.t_userId t = uid) (Server.matchQueue st)
       = Some (i, t) →
       Server.step (Server.Message e ws (Server.FindMatch (Some uid))) st
       = (Server.with_queue
            (<[i := {| Server.t_ws := ws;
                       Server.t_userId := Server.t_userId t |}]>
               (Server.matchQueue st)) st, []))
  ∧ (∀ q roomId server,
       Worker.mm_reachable q →
       server ∈ Worker.queue q →
       Worker.mm_step (Worker.MmFindMatch roomId server) q
       = ({| Worker.queue := [server];
             Worker.mm_sockets := Worker.mm_sockets q |}, [])).
Proof.
  split; [|split; [|split]].
  - intros d st e ws uid Hr He Hne.
    destruct (list_find (λ t, ws_open e (Server.t_ws t) = true)
                (Server.matchQueue st)) as [[i t]|] eqn:Hv.
    + by apply (server_pairs_first_viable d).
    + by apply (server_drops_dead_ticket d).
  - intros q roomId server Hr Hs Hne.
    destruct (list_find (λ c, jmap_has c (Worker.mm_sockets q) = true)
                (Worker.queue q)) as [[i c]|] eqn:Hv.
    + by apply worker_pairs_first_viable.
    + by apply worker_drops_dead_ticket.
  - intros st e ws uid i t He. by apply server_rebinds_ticket.
  - intros q roomId server Hr Hs. by apply worker_requeues_itself.
Qed.

Lemma queue_scenario_reachable :
  Server.reachable Scenario.db0 QueueScenario.queued
  ∧ Worker.mm_reachable QueueScenario.mm_queued.
Proof.
  split.
  - apply Server.reach_step, Server.reach_init.
  - unfold QueueScenario.mm_queued.
    apply Worker.mm_reach_step, Worker.mm_reach_step, Worker.mm_reach_step.
    apply Worker.mm_reach_new.
Qed.

(** User 8 asks for a match while user 7 waits on an open socket. *)
Lemma find_match_pairs_first_viable_witness :
  Server.step (Server.Message Opening.env 2%nat (Server.FindMatch (Some 8)))
    QueueScenario.queued
  = (Server.with_queue [] QueueScenario.queued,
     [(2%nat, MatchFound "k3x9q2a"); (1%nat, MatchFound "k3x9q2a")])
  ∧ Worker.mm_step (Worker.MmFindMatch "K3X9Q2A" 2%nat) QueueScenario.mm_queued
    = ({| Worker.queue := [];
          Worker.mm_sockets := Worker.mm_sockets QueueScenario.mm_queued |},
       [(2%nat, MatchFound "K3X9Q2A"); (1%nat, MatchFound "K3X9Q2A")]).
Proof.
  split.
  - apply (proj1 find_match_pairs_first_viable Scenario.db0
             QueueScenario.queued Opening.env 2%nat 8).
    + apply queue_scenario_reachable.
    + reflexivity.
    + discriminate.
  - apply (proj1 (proj2 find_match_pairs_first_viable)
             QueueScenario.mm_queued "K3X9Q2A" 2%nat).
    + apply queue_scenario_reachable.
    + vm_compute. intros Hin. apply list_elem_of_singleton in Hin. lia.
    + discriminate.
Defined.

(** ** The durable snapshot of the worker room *)
Section WorkerPersistence.
Import Worker WorkerRun.

Lemma cleanup_trace server r :
  ∃ r1, trace (cleanup server) r
        = trace updateStats r1
          ++ [StoragePut (snapshot (exec (cleanup server) r))].
Proof.
  unfold cleanup. run_worker. eexists.
  repeat case_match; simpl; rewrite ?app_nil_r; reflexivity.
Qed.

Lemma storage_after_updateStats s r :
  storage_after s (trace updateStats r) = s.
Proof.
  rewrite trace_updateStats.
  apply (storage_after_sends s _ (λ _, Stats (length (sockets r)))).
Qed.

Lemma reads_updateStats r : reads (trace updateStats r) = 0%nat.
Proof.
  rewrite trace_updateStats.
  apply (reads_sends _ (λ _, Stats (length (sockets r)))).
Qed.

Lemma cleanup_persisted s server w : persisted s (Cleanup server) w.
Proof.
  unfold persisted. simpl.
  destruct (cleanup_trace server w.1) as [r1 ->].
  by rewrite storage_after_app, storage_after_updateStats.
Qed.

Lemma move_persisted s server from to fen promotion now w :
  persisted s
    (Message server (Move (Some from) (Some to) (Some fen) promotion) now) w.
Proof.
  unfold persisted. cbn [step fst snd].
  rewrite on_move_trace, on_move_exec. simpl.
  apply (storage_after_sends _ _
           (λ _, MoveMsg from to (or_str promotion "q") fen None)).
Qed.

Lemma fetch_persisted s server auth w :
  started w.1 = false →
  seats_filled (step (Fetch server auth) w).1.1 = true →
  persisted s (Fetch server auth) w.
Proof.
  unfold persisted. cbn [step fst snd]. intros Hs Hf.
  rewrite fetch_exec in *. rewrite fetch_trace.
  set (r1 := exec (assignRole server (sub <$> auth) (a_username <$> auth)) w.1)
    in *.
  assert (started r1 = false) as Hs1.
  { subst r1. rewrite assignRole_exec. by destruct (white w.1), (black w.1). }
  rewrite maybeStart_exec in *. rewrite Hs1 in *.
  assert (seats_filled r1 = true) as Hf1.
  { destruct (seats_filled r1) eqn:E; [done|]. by rewrite E in Hf. }
  rewrite Hf1. rewrite maybeStart_trace, Hs1.
  unfold seats_filled in Hf1.
  destruct (white r1) as [wc|], (black r1) as [bc|]; try done.
  rewrite !storage_after_app, storage_after_updateStats.
  unfold player_frames.
  repeat case_match; reflexivity.
Qed.

Lemma fetch_not_persisted s server auth w :
  seats_filled (step (Fetch server auth) w).1.1 = false →
  storage_after s (step (Fetch server auth) w).2 = s.
Proof.
  cbn [step fst snd]. intros Hf.
  rewrite fetch_exec in Hf. rewrite fetch_trace.
  set (r1 := exec (assignRole server (sub <$> auth) (a_username <$> auth)) w.1)
    in *.
  rewrite maybeStart_exec in Hf. rewrite maybeStart_trace.
  assert (seats_filled r1 = false) as Hf1.
  { destruct (seats_filled r1) eqn:E; [|done].
    destruct (started r1); [congruence|].
    change (seats_filled (set_started true r1)) with (seats_filled r1) in Hf.
    congruence. }
  rewrite !storage_after_app, storage_after_updateStats.
  unfold seats_filled in Hf1. unfold player_frames.
  destruct (white r1) as [wc|], (black r1) as [bc|]; try done;
    repeat case_match; reflexivity.
Qed.

Lemma reads_step ev w : reads (step ev w).2 = 0%nat.
Proof.
  destruct ev as [server auth|server [from to fen promotion|res wc] now|server];
    cbn [step fst snd].
  - rewrite fetch_trace, maybeStart_trace. unfold player_frames.
    rewrite !reads_app, reads_updateStats.
    repeat case_match; reflexivity.
  - destruct from as [from|], to as [to|], fen as [fen|]; try reflexivity.
    rewrite on_move_trace.
    apply (reads_sends _ (λ _, MoveMsg from to (or_str promotion "q") fen None)).
  - unfold on_game_over. rewrite trace_broadcast.
    apply (reads_sends _ (λ _, GameOverMsg (Some (game_result res)))).
  - destruct (cleanup_trace server w.1) as [r1 ->].
    by rewrite reads_app, reads_updateStats.
Qed.

Lemma reads_run evs w : reads (run evs w).2 = 0%nat.
Proof.
  revert w. induction evs as [|ev evs IH]; intros w; simpl; [done|].
  by rewrite reads_app, reads_step, IH.
Qed.

Lemma reads_life stored d evs : reads (life stored d evs).2 = 1%nat.
Proof.
  unfold life. cbv zeta. cbn [snd].
  rewrite reads_app, reads_run. by destruct stored.
Qed.

Lemma Room_new_rehydrates s : snapshot (Room_new (Some s)).1 = s.
Proof. by destruct s. Qed.
End WorkerPersistence.

(** C7, as stated, fails: the first socket of a new room takes the white
    seat and its identity is recorded in the object, yet nothing is written
    to the storage. *)
Lemma join_not_persisted_counterexample :
  let new := ((Worker.Room_new None).1, WorkerScenario.db0) in
  let joined := Worker.step (Worker.Fetch 1%nat (Some WorkerScenario.ann)) new in
  Worker.whiteMeta new.1 = Worker.no_meta
  ∧ Worker.whiteMeta joined.1.1
    = {| Worker.m_id := Some 7; Worker.m_username := Some "ann" |}
  ∧ Worker.white joined.1.1 = Some 1%nat
  ∧ Worker.storage_after None joined.2 = None.
Proof. repeat split. Qed.

(** C7, amended.  In the worker, the constructor of a room object reads the
    stored snapshot once and restores its fields from it, and nothing else
    reads the storage; the fields (position, [started], seat identities)
    are written after every accepted move, after every connection cleanup,
    and after the join that fills the second seat of a room not yet
    started; a join that leaves a seat empty writes nothing.  (The Node
    coordinator keeps its rooms in memory only.) *)
Theorem worker_snapshot_discipline :
  (∀ stored d evs, Worker.reads (Worker.life stored d evs).2 = 1%nat)
  ∧ (∀ s, Worker.snapshot (Worker.Room_new (Some s)).1 = s)
  ∧ (∀ s w server from to fen promotion now,
       persisted s
         (Worker.Message server
            (Worker.Move (Some from) (Some to) (Some fen) promotion) now) w)
  ∧ (∀ s w server, persisted s (Worker.Cleanup server) w)
  ∧ (∀ s w server auth,
       Worker.seats_filled (Worker.step (Worker.Fetch server auth) w).1.1 = false →
       Worker.storage_after s (Worker.step (Worker.Fetch server auth) w).2 = s)
  ∧ (∀ s w server auth,
       Worker.started w.1 = false →
       Worker.seats_filled (Worker.step (Worker.Fetch server auth) w).1.1 = true →
       persisted s (Worker.Fetch server auth) w).
Proof.
  split; [apply reads_life|].
  split; [apply Room_new_rehydrates|].
  split; [intros; apply move_persisted|].
  split; [intros; apply cleanup_persisted|].
  split; [intros; by apply fetch_not_persisted|].
  intros. by apply fetch_persisted.
Qed.

(** The second socket of a new room fills the black seat: the game starts
    and the snapshot is written. *)
Lemma worker_snapshot_discipline_witness :
  let w := Worker.step (Worker.Fetch 1%nat (Some WorkerScenario.ann))
             ((Worker.Room_new None).1, WorkerScenario.db0) in
  persisted None (Worker.Fetch 2%nat (Some WorkerScenario.bob)) w.1.
Proof.
  intros w.
  apply (proj2 (proj2 (proj2 (proj2 (proj2 worker_snapshot_discipline)))) None w.1
           2%nat (Some WorkerScenario.bob)); reflexivity.
Defined.

(** ** Seats and spectators of the worker room *)
Section WorkerSeats.
Import Worker WorkerRun.

Lemma jmap_get_delete_ne {V} (k k' : conn) (m : list (conn * V)) :
  k ≠ k' → jmap_get k' (jmap_delete k m) = jmap_get k' m.
Proof.
  intros Hne. unfold jmap_delete.
  induction m as [|[k0 v0] m IH]; [done|].
  destruct (decide (k0 = k)) as [->|Hk].
  - rewrite filter_cons_False by (simpl; auto). simpl.
    by rewrite decide_False by done.
  - rewrite filter_cons_True by done. simpl.
    destruct (decide (k' = k0)); [done | apply IH].
Qed.

Lemma role_in_sockets (c : conn) (ro : role) (m : list (conn * RoomConn)) :
  c_role <$> jmap_get c m = Some ro → c ∈ m.*1.
Proof.
  destruct (jmap_get c m) as [rc|] eqn:E; [|done].
  intros _. by eapply jmap_get_keys.
Qed.

Lemma cleanup_exec_fields server r :
  white (exec (cleanup server) r)
  = (if is_conn (white r) server then None else white r)
  ∧ black (exec (cleanup server) r)
    = (if is_conn (black r) server then None else black r)
  ∧ sockets (exec (cleanup server) r) = jmap_delete server (sockets r)
  ∧ fen (exec (cleanup server) r) = fen r.
Proof. unfold cleanup. run_worker. repeat case_match; done. Qed.

Lemma fetch_consistent server auth r :
  seats_consistent r →
  server ∉ (sockets r).*1 →
  seats_consistent (exec (fetch server auth) r).
Proof.
  intros [Hw Hb] Hfresh. rewrite fetch_exec, maybeStart_exec.
  set (r1 := exec (assignRole server (sub <$> auth) (a_username <$> auth)) r).
  assert (seats_consistent r1) as Hr1.
  { subst r1. rewrite assignRole_exec.
    destruct (white r) as [wc|] eqn:Ew; [destruct (black r) as [bc|] eqn:Eb|];
      split; intros c Hc; simpl in *.
    - rewrite Ew in Hc. injection Hc as <-.
      rewrite jmap_get_set_ne; [by apply Hw|].
      intros ->. apply Hfresh. eapply role_in_sockets. by apply Hw.
    - rewrite Eb in Hc. injection Hc as <-.
      rewrite jmap_get_set_ne; [by apply Hb|].
      intros ->. apply Hfresh. eapply role_in_sockets. by apply Hb.
    - rewrite Ew in Hc. injection Hc as <-.
      rewrite jmap_get_set_ne; [by apply Hw|].
      intros ->. apply Hfresh. eapply role_in_sockets. by apply Hw.
    - injection Hc as <-. by rewrite jmap_get_set_eq.
    - injection Hc as <-. by rewrite jmap_get_set_eq.
    - rewrite jmap_get_set_ne; [by apply Hb|].
      intros ->. apply Hfresh. eapply role_in_sockets. by apply Hb. }
  by destruct (started r1), (seats_filled r1).
Qed.

Lemma cleanup_consistent server r :
  seats_consistent r → seats_consistent (exec (cleanup server) r).
Proof.
  intros [Hw Hb].
  destruct (cleanup_exec_fields server r) as (Ew & Eb & Es & _).
  split; intros c Hc; rewrite Es.
  - rewrite Ew in Hc. unfold is_conn in Hc. case_bool_decide; [done|].
    rewrite jmap_get_delete_ne; [by apply Hw | congruence].
  - rewrite Eb in Hc. unfold is_conn in Hc. case_bool_decide; [done|].
    rewrite jmap_get_delete_ne; [by apply Hb | congruence].
Qed.

(** In the worker no sequence of joins, moves and closes makes a
    seat-holder a spectator. *)
Lemma worker_seats_consistent r : room_reachable r → seats_consistent r.
Proof.
  induction 1 as [stored|r server auth Hr IH Hfresh
                 |r server from to fen promotion Hr IH|r server Hr IH].
  - by destruct stored.
  - by apply fetch_consistent.
  - by destruct from, to, fen.
  - by apply cleanup_consistent.
Qed.
End WorkerSeats.

(** ** Remarks on the Node coordinator *)
Section ServerRemarks.
Context `{RulesEngine}.
Import Server.

(** The [close] handler never touches [started]. *)
Lemma close_room_started ws r : started (close_room ws r).1 = started r.
Proof. unfold close_room. by destruct (set_has ws (clients r)). Qed.

(** A socket that holds the white seat of a full room and sends [join]
    again becomes a spectator and keeps the seat. *)
Lemma rejoin_of_white_is_spectator ws b roomId userId username st room :
  jmap_get roomId (rooms st) = Some room →
  white room = Some ws → black room = Some b →
  ∃ r',
    jmap_get roomId (rooms (handle_join ws roomId userId username st).1)
    = Some r'
    ∧ white r' = Some ws ∧ ws ∈ spectators r'.
Proof.
  intros Hroom Hw Hb.
  destruct (server_join_seated ws roomId userId username st) as (r' & Hr' & Hs).
  exists r'. split; [done|].
  unfold seats_before in Hs. rewrite Hroom, Hw, Hb in Hs. simpl in Hs.
  by destruct Hs as (_ & Hsp & Hw' & _).
Qed.
End ServerRemarks.

(** With one user on both seats the two updates of a settlement fall on
    the same row: a won game counts as two games for that user. *)
Example settlement_with_one_user :
  let after := (Server.step Scenario.white_wins SoloScenario.seated).1 in
  Server.getUser 7 (Server.db after)
  = Some {| Server.rating := Some 1203; Server.gamesPlayed := Some 12 |}.
Proof. reflexivity. Qed.

(** ** What a closed connection leaves behind *)
Section ServerClose.
Context `{RulesEngine}.
Import Server.

Lemma silent_to_app ws a b :
  silent_to ws (a ++ b) ↔ silent_to ws a ∧ silent_to ws b.
Proof. apply Forall_app. Qed.


Lemma silent_to_fan_out_others ws s m :
  silent_to ws (fan_out s (others ws) m).
Proof.
  apply Forall_forall. intros [c x] Hcx.
  apply elem_of_fan_out in Hcx as (_ & _ & Hk). simpl.
  unfold others in Hk. by apply bool_decide_eq_true in Hk.
Qed.

Lemma assign_seat_members ws u n r :
  ws ∈ clients r → members_known r →
  members_known (assign_seat ws u n r).1.
Proof.
  intros Hws (Hw & Hb & Hs). unfold assign_seat.
  destruct (white r) as [w0|] eqn:Ew; [destruct (black r) as [b0|] eqn:Eb|];
    simpl.
  - split; [|split]; simpl; [by rewrite Ew | by rewrite Eb |].
    intros c Hc. apply elem_of_set_add in Hc as [->|Hc]; auto.
  - split; [|split]; simpl; [by rewrite Ew | by intros c [= <-] | done].
  - split; [|split]; simpl; [by intros c [= <-] | done | done].
Qed.

Lemma join_notices_members ws r :
  members_known r → members_known (join_notices ws r).1.
Proof.
  intros Hm. destruct (join_notices_seats ws r) as (Hw & Hb & Hs & Hc & _).
  unfold members_known. by rewrite Hw, Hb, Hs, Hc.
Qed.

Lemma close_room_members ws r :
  members_known r → members_known (close_room ws r).1.
Proof.
  intros (Hw & Hb & Hs). unfold close_room.
  destruct (set_has ws (clients r)); [|done]. simpl.
  split; [|split]; simpl.
  - intros c. unfold is_conn. case_bool_decide as Hc; [done|].
    intros Hwc. apply elem_of_set_delete. split; [congruence | auto].
  - intros c. unfold is_conn. case_bool_decide as Hc; [done|].
    intros Hbc. apply elem_of_set_delete. split; [congruence | auto].
  - intros c Hc. apply elem_of_set_delete in Hc as [Hne Hc].
    apply elem_of_set_delete. auto.
Qed.

Lemma step_members ev st :
  Forall (λ kr, members_known kr.2) (rooms st) →
  Forall (λ kr, members_known kr.2) (rooms (step ev st).1).
Proof.
  intros Hst.
  destruct ev as [e ws [u|u|roomId u n|roomId f t p x|roomId r w]|ws]; simpl.
  - unfold handle_auth. destruct u; [|done]. by case_match.
  - unfold handle_find_match. destruct u; [|done]. repeat case_match; done.
  - unfold handle_join.
    set (room0 := default (new_room roomId) (jmap_get roomId (rooms st))).
    assert (members_known room0) as H0.
    { subst room0. destruct (jmap_get roomId (rooms st)) as [r0|] eqn:E0; simpl.
      - apply (Forall_jmap_get _ _ _ _ Hst E0).
      - split; [|split]; simpl; [done | done |]. intros c Hc.
        by apply not_elem_of_nil in Hc. }
    set (room1 := with_clients (set_add ws (clients room0)) room0).
    assert (members_known room1) as H1.
    { destruct H0 as (Hw & Hb & Hs).
      split; [|split]; simpl; intros c Hc; apply elem_of_set_add; auto. }
    pose proof (assign_seat_members ws u n room1) as H2.
    destruct (assign_seat ws u n room1) as [r2 ro]. simpl in H2.
    pose proof (join_notices_members ws r2) as H3.
    destruct (join_notices ws r2) as [r3 nt]. simpl in *.
    apply Forall_jmap_set; [done|]. simpl. apply H3, H2; [|done].
    apply elem_of_set_add. by left.
  - unfold handle_move.
    destruct (jmap_get roomId (rooms st)) as [room|] eqn:E0; [|done].
    pose proof (Forall_jmap_get _ _ _ _ Hst E0) as Hr. simpl in Hr.
    destruct (truthy_str f && truthy_str t); [|done].
    destruct (game room) as [g|].
    + unfold play_move. destruct (chess_move g _ _ _); [|done].
      by apply Forall_jmap_set.
    + destruct (chess_load _) as [g|]; [|done].
      unfold play_move. destruct (chess_move g _ _ _); simpl.
      * apply Forall_jmap_set; [|done]. by apply Forall_jmap_set.
      * by apply Forall_jmap_set.
  - unfold handle_game_over. destruct (jmap_get roomId (rooms st)); done.
  - unfold handle_close. simpl.
    rewrite Forall_fmap. eapply Forall_impl; [exact Hst|].
    intros [k r0] Hr0. simpl in *. by apply close_room_members.
Qed.

Lemma reachable_members d st :
  reachable d st → Forall (λ kr, members_known kr.2) (rooms st).
Proof.
  induction 1 as [|ev st Hr IH]; [constructor | by apply step_members].
Qed.

Lemma close_room_absent ws r :
  members_known r → absent ws (close_room ws r).1.
Proof.
  intros (Hw & Hb & Hs). unfold close_room, absent.
  destruct (set_has ws (clients r)) eqn:Hin.
  - simpl. repeat split.
    + intros Hc. by apply elem_of_set_delete in Hc as [? _].
    + unfold is_conn. case_bool_decide; [done | congruence].
    + unfold is_conn. case_bool_decide; [done | congruence].
    + intros Hc. by apply elem_of_set_delete in Hc as [? _].
  - simpl. unfold set_has in Hin. apply bool_decide_eq_false in Hin.
    repeat split; auto.
Qed.

Lemma handle_close_gone d ws st :
  reachable d st → gone ws (handle_close ws st).1.
Proof.
  intros Hr. pose proof (reachable_members d st Hr) as Hm.
  split; simpl.
  - rewrite Forall_fmap. eapply Forall_impl; [exact Hm|].
    intros [k r0] Hr0. simpl in *. by apply close_room_absent.
  - apply Forall_forall. intros t Ht.
    by apply list_elem_of_filter in Ht as [? _].
Qed.
End ServerClose.

(** X1. On the Node coordinator, once a socket has closed it is a client
    of no room, holds no seat, watches no room and no matchmaking ticket is
    bound to it. *)
Theorem close_removes_connection `{RulesEngine} d ws st :
  Server.reachable d st →
  gone ws (Server.step (Server.Close ws) st).1.
Proof. apply handle_close_gone. Qed.

(** Socket 1 leaves the room of two seated players. *)
Lemma close_removes_connection_witness :
  gone 1%nat (Server.step (Server.Close 1%nat) Scenario.seated).1.
Proof.
  apply (close_removes_connection Scenario.db0 1%nat Scenario.seated).
  apply scenario_seated_reachable.
Defined.

(** ** What the others' events do to a connection that is gone *)
Section ServerGone.
Context `{RulesEngine}.
Import Server.









End ServerGone.



(** ** Starting a game *)
Section ServerStartFacts.
Context `{RulesEngine}.
Import Server.

Lemma start_frames_app (a b : list sent) :
  start_frames (a ++ b) = start_frames a ++ start_frames b.
Proof. apply omap_app. Qed.

Lemma start_frames_fan_out_stats s keep n :
  start_frames (fan_out s keep (Stats n)) = [].
Proof.
  unfold fan_out. induction s as [|c s IH]; simpl; [done|].
  destruct (keep c); simpl; [|done]. apply IH.
Qed.

Lemma start_frames_join_notices ws r :
  start_frames (join_notices ws r).2
  = if started r then [] else start_pair (white r) (black r).
Proof.
  unfold join_notices, start_frames, start_pair, opponent_info, player_info.
  destruct (white r) as [w0|], (black r) as [b0|];
    try (by destruct (started r)).
  destruct (started r); simpl; rewrite ?omap_app;
    repeat (case_match; simpl); done.
Qed.

Lemma join_notices_started ws r :
  started (join_notices ws r).1 = started r || both_seated r.
Proof.
  unfold join_notices, both_seated.
  destruct (white r), (black r), (started r) eqn:Es; simpl; by rewrite ?Es.
Qed.

Lemma assign_seat_started ws u n r :
  started (assign_seat ws u n r).1 = started r.
Proof. unfold assign_seat. by destruct (white r), (black r). Qed.

Lemma server_start_once ws roomId u n st :
  ∃ r',
    jmap_get roomId (rooms (handle_join ws roomId u n st).1) = Some r'
    ∧ start_frames (handle_join ws roomId u n st).2
      = (if started_before roomId st then []
         else start_pair (white r') (black r'))
    ∧ started r' = started_before roomId st || both_seated r'.
Proof.
  eexists. split; [apply handle_join_room|].
  set (room0 := default (new_room roomId) (jmap_get roomId (rooms st))).
  set (room1 := with_clients (set_add ws (clients room0)) room0).
  assert (started_before roomId st = started room0) as ->.
  { unfold started_before, room0. by destruct (jmap_get roomId (rooms st)). }
  pose proof (assign_seat_started ws u n room1) as Hs.
  change (started room1) with (started room0) in Hs.
  destruct (join_notices_seats ws (assign_seat ws u n room1).1)
    as (Hw & Hb & _).
  unfold handle_join. fold room0. fold room1.
  pose proof (start_frames_join_notices ws (assign_seat ws u n room1).1) as Hf.
  pose proof (join_notices_started ws (assign_seat ws u n room1).1) as Hst.
  destruct (assign_seat ws u n room1) as [r2 ro]. simpl in *.
  destruct (join_notices ws r2) as [r3 nt]. simpl in *.
  split.
  - rewrite start_frames_app, start_frames_fan_out_stats. simpl.
    change (start_frames ((ws, RoleMsg ro ?x) :: ?l)) with (start_frames l).
    rewrite start_frames_app, Hf, Hs, Hw, Hb.
    by destruct (truthy_str (fen r2)).
  - rewrite Hst, Hs. f_equal. unfold both_seated. by rewrite Hw, Hb.
Qed.
End ServerStartFacts.

Section WorkerStartFacts.
Import Worker WorkerRun.

Lemma start_frames_sends (f : conn → nat) (l : list conn) :
  start_frames (frames ((λ c, Send c (Stats (f c))) <$> l)) = [].
Proof. induction l as [|c l IH]; simpl; [done | apply IH]. Qed.

Lemma worker_start_once server auth r :
  let r' := exec (fetch server auth) r in
  start_frames (frames (trace (fetch server auth) r))
  = (if started r then [] else start_pair (white r') (black r'))
  ∧ started r' = started r || seats_filled r'.
Proof.
  intros r'. subst r'. rewrite fetch_exec, fetch_trace.
  set (r1 := exec (assignRole server (sub <$> auth) (a_username <$> auth)) r).
  assert (started r1 = started r) as Hs.
  { subst r1. rewrite assignRole_exec. by destruct (white r), (black r). }
  clearbody r1.
  rewrite maybeStart_exec, maybeStart_trace, Hs.
  rewrite trace_updateStats, !frames_app, !start_frames_app.
  rewrite (start_frames_sends (λ _, length (sockets r1))).
  assert (start_frames
            (frames (if truthy_str (fen r1)
                     then [Send server (StateMsg (or_str (fen r1) ""))]
                     else [])) = []) as ->.
  { by destruct (truthy_str (fen r1)). }
  assert (start_frames
            (frames (if bool_decide
                          (default S (c_role <$> jmap_get server (sockets r1))
                           = S)
                     then player_frames server r1 else [])) = []) as ->.
  { unfold player_frames.
    destruct (bool_decide _), (meta_known (whiteMeta r1)),
      (meta_known (blackMeta r1)); done. }
  simpl. unfold seats_filled, start_pair.
  destruct (started r); simpl; [done|].
  destruct (white r1) as [w0|] eqn:Ew, (black r1) as [b0|] eqn:Eb; simpl;
    rewrite ?Ew, ?Eb; try done.
  destruct (meta_known (whiteMeta r1) && meta_known (blackMeta r1)); done.
Qed.
End WorkerStartFacts.

(** X3. A join is answered with [start_game] exactly when it leaves both
    seats taken in a room whose [started] flag was off: then white is sent
    the colour ['w'] and black the colour ['b'], once each, and the flag
    goes on; in every other case no [start_game] is sent.  This holds for
    the Node coordinator and for the worker room. *)
Theorem start_game_once `{RulesEngine} :
  (∀ ws roomId u n st,
     ∃ r',
       jmap_get roomId (Server.rooms (Server.handle_join ws roomId u n st).1)
       = Some r'
       ∧ start_frames (Server.handle_join ws roomId u n st).2
         = (if started_before roomId st then []
            else start_pair (Server.white r') (Server.black r'))
       ∧ Server.started r'
         = started_before roomId st || Server.both_seated r')
  ∧ (∀ server auth r,
       let r' := Worker.exec (Worker.fetch server auth) r in
       start_frames (Worker.frames (Worker.trace (Worker.fetch server auth) r))
       = (if Worker.started r then []
          else start_pair (Worker.white r') (Worker.black r'))
       ∧ Worker.started r' = Worker.started r || Worker.seats_filled r').
Proof.
  split; [apply server_start_once | apply worker_start_once].
Qed.

(** ** The position a joiner is sent *)
Section ServerStateFrame.
Context `{RulesEngine}.
Import Server.

Lemma assign_seat_fen ws u n r : fen (assign_seat ws u n r).1 = fen r.
Proof. unfold assign_seat. by destruct (white r), (black r). Qed.

Lemma truthy_str_Some (f : string) : f ≠ "" → truthy_str (Some f) = true.
Proof.
  intros Hf. simpl. apply negb_true_iff, String.eqb_neq. done.
Qed.

Lemma or_str_Some (f d : string) : f ≠ "" → or_str (Some f) d = f.
Proof.
  intros Hf. simpl. by rewrite (proj2 (String.eqb_neq f "") Hf).
Qed.

Lemma join_state_frame ws roomId u n st r0 f :
  jmap_get roomId (rooms st) = Some r0 →
  fen r0 = Some f → f ≠ "" →
  (ws, StateMsg f) ∈ (handle_join ws roomId u n st).2.
Proof.
  intros Hr Hf Hne. unfold handle_join. rewrite Hr. simpl.
  pose proof (assign_seat_fen ws u n
                (with_clients (set_add ws (clients r0)) r0)) as Hfen.
  destruct (assign_seat ws u n _) as [r2 ro]. simpl in Hfen.
  destruct (join_notices ws r2) as [r3 nt]. simpl.
  rewrite Hfen, Hf, (truthy_str_Some f Hne), (or_str_Some f "" Hne).
  apply elem_of_app. right. apply list_elem_of_further, list_elem_of_here.
Qed.

Lemma server_join_after_move st e ws roomId from to promotion x room g g'
    e2 ws2 u n :
  jmap_get roomId (rooms st) = Some room →
  game room = Some g →
  truthy_str from && truthy_str to = true →
  chess_move g (or_str from "") (or_str to "") (or_str promotion "q")
  = Some g' →
  chess_fen g' ≠ "" →
  let st' := (step (Message e ws (Move roomId from to promotion x)) st).1 in
  (ws2, StateMsg (chess_fen g'))
  ∈ (step (Message e2 ws2 (Join roomId u n)) st').2.
Proof.
  intros Hroom Hg Ht Hmv Hne st'. subst st'. simpl.
  rewrite (handle_move_played ws roomId from to promotion st room g Hroom Hg Ht).
  unfold play_move. rewrite Hmv. simpl.
  eapply join_state_frame; [apply jmap_get_set_eq | done | done].
Qed.
End ServerStateFrame.

Lemma worker_join_after_move r server from to fen promotion server2 auth :
  fen ≠ "" →
  let r' := Worker.exec
              (Worker.on_move server (Some from) (Some to) (Some fen) promotion)
              r in
  (server2, StateMsg fen)
  ∈ Worker.frames (Worker.trace (Worker.fetch server2 auth) r').
Proof.
  intros Hne r'. subst r'. rewrite on_move_exec, WorkerRun.fetch_trace.
  set (r1 := Worker.exec (Worker.assignRole server2 _ _) _).
  assert (Worker.fen r1 = Some fen) as Hf.
  { subst r1. rewrite WorkerRun.assignRole_exec. simpl.
    by destruct (Worker.white r), (Worker.black r). }
  clearbody r1.
  rewrite Hf, (truthy_str_Some fen Hne), (or_str_Some fen "" Hne).
  rewrite !WorkerRun.frames_app.
  apply elem_of_app. right. apply elem_of_app. right.
  apply elem_of_app. left. simpl. apply list_elem_of_here.
Qed.

(** X4. A socket that joins a room after a move is sent a [state] frame
    with the position stored by that move: the one the rules engine
    reported on the Node coordinator, the one the mover sent on the worker,
    provided that position is not the empty string. *)
Theorem join_after_move_gets_position `{RulesEngine} :
  (∀ st e ws roomId from to promotion x room g g' e2 ws2 u n,
     jmap_get roomId (Server.rooms st) = Some room →
     Server.game room = Some g →
     truthy_str from && truthy_str to = true →
     chess_move g (or_str from "") (or_str to "") (or_str promotion "q")
     = Some g' →
     chess_fen g' ≠ "" →
     let st' :=
       (Server.step
          (Server.Message e ws (Server.Move roomId from to promotion x)) st).1 in
     (ws2, StateMsg (chess_fen g'))
     ∈ (Server.step (Server.Message e2 ws2 (Server.Join roomId u n)) st').2)
  ∧ (∀ r server from to fen promotion server2 auth,
       fen ≠ "" →
       let r' :=
         Worker.exec
           (Worker.on_move server (Some from) (Some to) (Some fen) promotion)
           r in
       (server2, StateMsg fen)
       ∈ Worker.frames (Worker.trace (Worker.fetch server2 auth) r')).
Proof.
  split.
  - intros. by eapply server_join_after_move.
  - intros. by apply worker_join_after_move.
Qed.

(** After e2-e4 in the room of two players, socket 3 joins; after the same
    move in the worker room, socket 3 connects. *)
Lemma join_after_move_gets_position_witness :
  (3%nat, StateMsg Opening.e4_fen)
  ∈ (Server.step (Scenario.join 3%nat 9 "cy")
       (Server.step Scenario.e2e4 Scenario.seated).1).2
  ∧ (3%nat, StateMsg Opening.e4_fen)
    ∈ Worker.frames
        (Worker.trace (Worker.fetch 3%nat None)
           (Worker.step WorkerScenario.e2e4 WorkerScenario.seated).1.1).
Proof.
  split.
  - apply (proj1 join_after_move_gets_position Scenario.seated Opening.env
             1%nat "r" (Some "e2") (Some "e4") None (Some "anything")
             Scenario.room Opening.Start Opening.AfterE4 Opening.env 3%nat
             (Some 9) (Some "cy")); first [reflexivity | discriminate].
  - apply (proj2 join_after_move_gets_position WorkerScenario.seated.1 1%nat
             "e2" "e4" Opening.e4_fen None 3%nat None). discriminate.
Defined.

(** ** Hex there and back *)
Section HexFacts.

Lemma byte_digits (b : Byte.byte) :
  Js.padStart2 (Js.toString16 b)
  = String (hi_digit b) (String (lo_digit b) EmptyString).
Proof. destruct b; reflexivity. Qed.

Lemma byte_digits_read (b : Byte.byte) :
  Js.to_uint8
    (Js.parseInt16 (String (hi_digit b) (String (lo_digit b) EmptyString)))
  = b.
Proof. destruct b; reflexivity. Qed.

Lemma byte_digits_lower (b : Byte.byte) :
  is_lower_hex (hi_digit b) = true ∧ is_lower_hex (lo_digit b) = true.
Proof. destruct b; split; reflexivity. Qed.

Lemma toHex_cons (b : Byte.byte) (bs : list Byte.byte) :
  toHex (b :: bs) = String (hi_digit b) (String (lo_digit b) (toHex bs)).
Proof. unfold toHex. simpl. by rewrite byte_digits. Qed.

Lemma toHex_lower (bs : list Byte.byte) :
  all_chars is_lower_hex (toHex bs) = true.
Proof.
  induction bs as [|b bs IH]; [done|].
  rewrite toHex_cons. simpl.
  destruct (byte_digits_lower b) as [-> ->]. by rewrite IH.
Qed.

Lemma all_chars_impl (p q : Ascii.ascii → bool) (s : string) :
  (∀ c, p c = true → q c = true) →
  all_chars p s = true → all_chars q s = true.
Proof.
  intros Hpq. induction s as [|c r IH]; simpl; [done|].
  intros [Hc Hr]%andb_prop. by rewrite (Hpq c Hc), IH.
Qed.

Lemma lower_hex_not_space (c : Ascii.ascii) :
  is_lower_hex c = true → Js.is_space c = false.
Proof.
  unfold is_lower_hex, Js.is_space. set (n := Js.code c). clearbody n.
  intros Hc.
  destruct (N.leb_spec 9 n), (N.leb_spec n 13), (N.eqb_spec n 32),
    (N.eqb_spec n 160), (N.leb_spec 48 n), (N.leb_spec n 57),
    (N.leb_spec 97 n), (N.leb_spec n 102); simpl in *; try done; lia.
Qed.

Lemma trim_no_space (s : string) :
  all_chars (λ c, negb (Js.is_space c)) s = true → Js.trim s = s.
Proof.
  intros Hs. unfold Js.trim.
  assert (Js.trimStart s = s) as ->.
  { destruct s as [|c r]; [done|]. simpl in *.
    apply andb_prop in Hs as [Hc _]. apply negb_true_iff in Hc.
    by rewrite Hc. }
  induction s as [|c r IH]; [done|]. simpl in *.
  apply andb_prop in Hs as [Hc Hr]. apply negb_true_iff in Hc.
  rewrite (IH Hr), Hc. by destruct r.
Qed.

Lemma trim_toHex (bs : list Byte.byte) : Js.trim (toHex bs) = toHex bs.
Proof.
  apply trim_no_space.
  apply (all_chars_impl is_lower_hex); [|apply toHex_lower].
  intros c Hc. by rewrite (lower_hex_not_space c Hc).
Qed.

Lemma hex_pairs_toHex (bs : list Byte.byte) : hex_pairs (toHex bs) = bs.
Proof.
  induction bs as [|b bs IH]; [done|].
  rewrite toHex_cons. simpl hex_pairs. by rewrite byte_digits_read, IH.
Qed.

Lemma fromHex_toHex (bs : list Byte.byte) : fromHex (toHex bs) = bs.
Proof. unfold fromHex. by rewrite trim_toHex, hex_pairs_toHex. Qed.

Lemma toHex_length (bs : list Byte.byte) :
  String.length (toHex bs) = (2 * length bs)%nat.
Proof.
  induction bs as [|b bs IH]; [done|].
  rewrite toHex_cons. simpl. rewrite IH. lia.
Qed.

Lemma toHex_inj (a b : list Byte.byte) : toHex a = toHex b → a = b.
Proof.
  intros Hab. by rewrite <- (fromHex_toHex a), Hab, fromHex_toHex.
Qed.
End HexFacts.

(** X5. [fromHex] undoes [toHex]: every byte sequence is read back from
    the hex string written for it, which has two lower-case digits for
    each byte. *)
Theorem hex_round_trip (bs : list Byte.byte) :
  fromHex (toHex bs) = bs
  ∧ String.length (toHex bs) = (2 * length bs)%nat
  ∧ all_chars is_lower_hex (toHex bs) = true.
Proof.
  split; [apply fromHex_toHex|]. split; [apply toHex_length | apply toHex_lower].
Qed.

(** ** Password records there and back *)
Section SplitFacts.
Import Stdlib.Strings.Ascii.
Import Stdlib.Strings.Ascii.AsciiSyntax.

Lemma split_no_sep (s : string) :
  all_chars not_colon s = true → Js.split ":"%char s = [s].
Proof.
  induction s as [|c r IH]; [done|]. simpl.
  intros [Hc Hr]%andb_prop. unfold not_colon in Hc.
  apply negb_true_iff in Hc. change (ascii_of_N 58) with ":"%char in Hc.
  by rewrite Hc, (IH Hr).
Qed.

Lemma split_app_sep (x y : string) :
  all_chars not_colon x = true →
  Js.split ":"%char (x +:+ String ":"%char y) = x :: Js.split ":"%char y.
Proof.
  induction x as [|c r IH]; [done|]. simpl.
  intros [Hc Hr]%andb_prop. unfold not_colon in Hc.
  apply negb_true_iff in Hc. change (ascii_of_N 58) with ":"%char in Hc.
  by rewrite Hc, (IH Hr).
Qed.

Lemma lower_hex_not_colon (c : Ascii.ascii) :
  is_lower_hex c = true → not_colon c = true.
Proof.
  unfold is_lower_hex, not_colon. intros Hc.
  destruct (Ascii.eqb_spec c (Ascii.ascii_of_N 58)) as [->|]; [|done]. done.
Qed.

Lemma lower_hex_lower (c : Ascii.ascii) :
  is_lower_hex c = true → Js.lower c = c.
Proof.
  unfold is_lower_hex, Js.lower. set (n := Js.code c). clearbody n.
  intros Hc.
  destruct (N.leb_spec 65 n), (N.leb_spec n 90), (N.leb_spec 192 n),
    (N.leb_spec n 222), (N.eqb_spec n 215), (N.leb_spec 48 n),
    (N.leb_spec n 57), (N.leb_spec 97 n), (N.leb_spec n 102);
    simpl in *; try done; lia.
Qed.

Lemma toLowerCase_lower_hex (s : string) :
  all_chars is_lower_hex s = true → Js.toLowerCase s = s.
Proof.
  induction s as [|c r IH]; [done|]. simpl.
  intros [Hc Hr]%andb_prop. by rewrite (lower_hex_lower c Hc), (IH Hr).
Qed.

Lemma toHex_no_colon (bs : list Byte.byte) :
  all_chars not_colon (toHex bs) = true.
Proof.
  apply (all_chars_impl is_lower_hex); [|apply toHex_lower].
  apply lower_hex_not_colon.
Qed.

Lemma toHex_not_empty (bs : list Byte.byte) :
  bs ≠ [] → Js.empty (toHex bs) = false.
Proof. destruct bs as [|b bs]; [done|]. intros _. by rewrite toHex_cons. Qed.

Lemma toHex_eqb (a b : list Byte.byte) :
  String.eqb (toHex a) (toHex b) = bool_decide (a = b).
Proof.
  case_bool_decide as Hab.
  - subst. apply String.eqb_refl.
  - apply String.eqb_neq. intros Heq. by apply Hab, toHex_inj.
Qed.

Lemma record_split (salt bits : list Byte.byte) :
  Js.split ":"%char
    ("sha256" +:+ ":" +:+ "100000" +:+ ":" +:+ toHex salt +:+ ":"
     +:+ toHex bits)
  = ["sha256"; "100000"; toHex salt; toHex bits].
Proof.
  change ("sha256" +:+ ":" +:+ "100000" +:+ ":" +:+ toHex salt +:+ ":"
          +:+ toHex bits)
    with ("sha256" +:+ String ":"%char ("100000" +:+ String ":"%char
            (toHex salt +:+ String ":"%char (toHex bits)))).
  rewrite split_app_sep by done. f_equal.
  rewrite split_app_sep by done. f_equal.
  rewrite split_app_sep by apply toHex_no_colon. f_equal.
  apply split_no_sep, toHex_no_colon.
Qed.
End SplitFacts.

Section PasswordFacts.
Context `{Runtime}.

Lemma worker_password_round_trip (p q : string) (salt hq : list Byte.byte) :
  Number_of "100000" = num_100000 →
  num_falsy num_100000 = false →
  salt ≠ [] → hq ≠ [] →
  deriveBits q salt num_100000 = Some hq →
  ∃ stored,
    WorkerAuth.hashPassword q salt = Some stored
    ∧ WorkerAuth.verifyPassword p stored
      = (hp ← deriveBits p salt num_100000; Some (bool_decide (hp = hq))).
Proof.
  intros Hn Hf Hs Hh Hq. eexists. split.
  { unfold WorkerAuth.hashPassword. rewrite Hq. reflexivity. }
  unfold WorkerAuth.verifyPassword. rewrite record_split, Hn, Hf.
  rewrite (toHex_not_empty salt Hs), (toHex_not_empty hq Hh). simpl.
  rewrite fromHex_toHex.
  destruct (deriveBits p salt num_100000) as [hp|]; [|done]. simpl.
  by rewrite (toLowerCase_lower_hex _ (toHex_lower hq)), toHex_eqb.
Qed.

Lemma node_password_round_trip (p q : string) (salt hq : list Byte.byte) :
  Number_of "100000" = num_100000 →
  num_falsy num_100000 = false →
  salt ≠ [] → hq ≠ [] →
  pbkdf2Sync q (toHex salt) num_100000 "sha256" = Some hq →
  ∃ stored,
    NodeAuth.hashPassword q salt = Some stored
    ∧ NodeAuth.verifyPassword p stored
      = (hp ← pbkdf2Sync p (toHex salt) num_100000 "sha256";
         Some (bool_decide (hp = hq))).
Proof.
  intros Hn Hf Hs Hh Hq. eexists. split.
  { unfold NodeAuth.hashPassword. rewrite Hq. reflexivity. }
  unfold NodeAuth.verifyPassword. rewrite record_split, Hn, Hf.
  rewrite (toHex_not_empty salt Hs), (toHex_not_empty hq Hh). simpl.
  destruct (pbkdf2Sync p (toHex salt) num_100000 "sha256") as [hp|]; [|done].
  simpl. by rewrite toHex_eqb.
Qed.
End PasswordFacts.

(** X6. In the worker, [verifyPassword] checked against the record that
    [hashPassword] wrote for a password accepts exactly the passwords whose
    derived bits equal the recorded ones; in particular the password
    itself.  The salt is any non-empty byte sequence (the code draws 16
    bytes) and the derivation returns at least one byte (the code asks for
    512 bits). *)
Theorem worker_verify_after_hash `{Runtime}
    (p q : string) (salt hq : list Byte.byte) :
  Number_of "100000" = num_100000 →
  num_falsy num_100000 = false →
  salt ≠ [] → hq ≠ [] →
  deriveBits q salt num_100000 = Some hq →
  ∃ stored,
    WorkerAuth.hashPassword q salt = Some stored
    ∧ WorkerAuth.verifyPassword p stored
      = (hp ← deriveBits p salt num_100000; Some (bool_decide (hp = hq)))
    ∧ WorkerAuth.verifyPassword q stored = Some true.
Proof.
  intros Hn Hf Hs Hh Hq.
  destruct (worker_password_round_trip p q salt hq Hn Hf Hs Hh Hq)
    as (stored & Hst & Hp).
  destruct (worker_password_round_trip q q salt hq Hn Hf Hs Hh Hq)
    as (stored' & Hst' & Hq').
  exists stored. split; [done|]. split; [done|].
  assert (stored' = stored) as -> by congruence.
  rewrite Hq', Hq. simpl. by rewrite bool_decide_true.
Qed.

(** The record of the password ["hunter2"] accepts it and refuses
    ["hunter3"]. *)
Lemma worker_verify_after_hash_witness :
  ∃ stored,
    WorkerAuth.hashPassword "hunter2" ToyRuntime.salt = Some stored
    ∧ WorkerAuth.verifyPassword "hunter3" stored
      = (hp ← deriveBits "hunter3" ToyRuntime.salt num_100000;
         Some (bool_decide
                 (hp = ToyRuntime.salt ++ String.list_byte_of_string "hunter2")))
    ∧ WorkerAuth.verifyPassword "hunter2" stored = Some true.
Proof.
  apply (worker_verify_after_hash "hunter3" "hunter2" ToyRuntime.salt
           (ToyRuntime.salt ++ String.list_byte_of_string "hunter2"));
    first [reflexivity | discriminate].
Defined.

(** X7. On the Node server, [verifyPassword] checked against the record
    that [hashPassword] wrote for a password accepts exactly the passwords
    whose derived key equals the recorded one; in particular the password
    itself.  The salt handed to the derivation is the hex string of the
    record, for any non-empty salt bytes, and the derivation returns at
    least one byte. *)
Theorem node_verify_after_hash `{Runtime}
    (p q : string) (salt hq : list Byte.byte) :
  Number_of "100000" = num_100000 →
  num_falsy num_100000 = false →
  salt ≠ [] → hq ≠ [] →
  pbkdf2Sync q (toHex salt) num_100000 "sha256" = Some hq →
  ∃ stored,
    NodeAuth.hashPassword q salt = Some stored
    ∧ NodeAuth.verifyPassword p stored
      = (hp ← pbkdf2Sync p (toHex salt) num_100000 "sha256";
         Some (bool_decide (hp = hq)))
    ∧ NodeAuth.verifyPassword q stored = Some true.
Proof.
  intros Hn Hf Hs Hh Hq.
  destruct (node_password_round_trip p q salt hq Hn Hf Hs Hh Hq)
    as (stored & Hst & Hp).
  destruct (node_password_round_trip q q salt hq Hn Hf Hs Hh Hq)
    as (stored' & Hst' & Hq').
  exists stored. split; [done|]. split; [done|].
  assert (stored' = stored) as -> by congruence.
  rewrite Hq', Hq. simpl. by rewrite bool_decide_true.
Qed.

Lemma node_verify_after_hash_witness :
  ∃ stored,
    NodeAuth.hashPassword "hunter2" ToyRuntime.salt = Some stored
    ∧ NodeAuth.verifyPassword "hunter3" stored
      = (hp ← pbkdf2Sync "hunter3" (toHex ToyRuntime.salt) num_100000 "sha256";
         Some (bool_decide
                 (hp = String.list_byte_of_string (toHex ToyRuntime.salt)
                       ++ String.list_byte_of_string "hunter2")))
    ∧ NodeAuth.verifyPassword "hunter2" stored = Some true.
Proof.
  apply (node_verify_after_hash "hunter3" "hunter2" ToyRuntime.salt
           (String.list_byte_of_string (toHex ToyRuntime.salt)
            ++ String.list_byte_of_string "hunter2"));
    first [reflexivity | discriminate].
Defined.

(** ** A socket the worker room has cleaned up *)
Section WorkerGone.
Import Worker WorkerRun.

Lemma not_elem_of_jmap_delete {V} (k : conn) (m : list (conn * V)) :
  k ∉ (jmap_delete k m).*1.
Proof.
  unfold jmap_delete. intros Hin.
  apply list_elem_of_fmap in Hin as ([k' v] & -> & Hin).
  by apply list_elem_of_filter in Hin as [Hne _].
Qed.

Lemma elem_of_jmap_set_keys {V} (k k' : conn) (v : V) (m : list (conn * V)) :
  k' ∈ (jmap_set k v m).*1 → k' = k ∨ k' ∈ m.*1.
Proof.
  induction m as [|[k0 v0] m IH]; simpl.
  - intros ->%list_elem_of_singleton. by left.
  - destruct (decide (k = k0)) as [->|Hne]; simpl.
    + intros [->|Hin]%elem_of_cons; [by left|].
      right. by apply list_elem_of_further.
    + intros [->|Hin]%elem_of_cons; [right; apply list_elem_of_here|].
      destruct (IH Hin) as [->|Hm]; [by left|].
      right. by apply list_elem_of_further.
Qed.

Lemma silent_to_sends server (f : conn → out_msg) (l : list conn) :
  server ∉ l → silent_to server (frames ((λ c, Send c (f c)) <$> l)).
Proof.
  intros Hl. rewrite frames_sends. apply Forall_fmap, Forall_forall.
  intros c Hc. simpl. by intros ->.
Qed.

Lemma silent_to_updateStats server r :
  server ∉ (sockets r).*1 → silent_to server (frames (trace updateStats r)).
Proof.
  intros Hs. rewrite trace_updateStats.
  by apply (silent_to_sends server (λ _, Stats (length (sockets r)))).
Qed.

Lemma silent_to_broadcast server m r :
  server ∉ (sockets r).*1 →
  silent_to server (frames (trace (broadcast m None) r)).
Proof.
  intros Hs. rewrite trace_broadcast, filter_no_except.
  by apply (silent_to_sends server (λ _, m)).
Qed.

Lemma cleanup_absent server r :
  worker_absent server (exec (cleanup server) r)
  ∧ silent_to server (frames (trace (cleanup server) r)).
Proof.
  destruct (cleanup_exec_fields server r) as (Ew & Eb & Es & _).
  split.
  - unfold worker_absent. rewrite Ew, Eb, Es. repeat split.
    + apply not_elem_of_jmap_delete.
    + unfold is_conn. by case_bool_decide.
    + unfold is_conn. by case_bool_decide.
  - unfold cleanup. run_worker. rewrite !frames_app. simpl.
    rewrite !silent_to_app.
    split; [|repeat split; repeat case_match; constructor].
    apply silent_to_updateStats. simpl. apply not_elem_of_jmap_delete.
Qed.

Lemma cleanup_stays_absent server server' r :
  worker_absent server r →
  worker_absent server (exec (cleanup server') r)
  ∧ silent_to server (frames (trace (cleanup server') r)).
Proof.
  intros (Hs & Hw & Hb).
  destruct (cleanup_exec_fields server' r) as (Ew & Eb & Es & _).
  assert (server ∉ (jmap_delete server' (sockets r)).*1) as Hd.
  { intros Hin. apply Hs. unfold jmap_delete in Hin.
    apply list_elem_of_fmap in Hin as (kv & -> & Hin).
    apply list_elem_of_filter in Hin as [_ Hin].
    apply list_elem_of_fmap. by exists kv. }
  split.
  - unfold worker_absent. rewrite Ew, Eb, Es. repeat split; [done|..].
    + by destruct (is_conn (white r) server').
    + by destruct (is_conn (black r) server').
  - unfold cleanup. run_worker. rewrite !frames_app. simpl.
    rewrite !silent_to_app.
    split; [|repeat split; repeat case_match; constructor].
    by apply silent_to_updateStats.
Qed.

Lemma assignRole_absent server server' userId username r :
  server' ≠ server →
  worker_absent server r →
  worker_absent server (exec (assignRole server' userId username) r).
Proof.
  intros Hne (Hs & Hw & Hb). rewrite assignRole_exec.
  assert (∀ v, server ∉ (jmap_set server' v (sockets r)).*1) as Hset.
  { intros v Hin. apply elem_of_jmap_set_keys in Hin as [->|Hin]; done. }
  destruct (white r) as [w|] eqn:Ew; [destruct (black r) as [b|] eqn:Eb|];
    unfold worker_absent; simpl; rewrite ?Ew, ?Eb;
    repeat split; try done; try apply Hset; congruence.
Qed.

Lemma maybeStart_absent server r :
  worker_absent server r →
  worker_absent server (exec maybeStart r)
  ∧ silent_to server (frames (trace maybeStart r)).
Proof.
  intros (Hs & Hw & Hb). split.
  - rewrite maybeStart_exec.
    by destruct (started r), (seats_filled r).
  - rewrite maybeStart_trace.
    destruct (started r); [by destruct (white r), (black r); constructor|].
    destruct (white r) as [w|]; [|by constructor].
    destruct (black r) as [b|]; [|by constructor].
    assert (w ≠ server) by congruence. assert (b ≠ server) by congruence.
    destruct (meta_known (whiteMeta r) && meta_known (blackMeta r)); simpl;
      repeat constructor; done.
Qed.

Lemma fetch_absent server server' auth r :
  server' ≠ server →
  worker_absent server r →
  worker_absent server (exec (fetch server' auth) r)
  ∧ silent_to server (frames (trace (fetch server' auth) r)).
Proof.
  intros Hne Ha.
  pose proof (assignRole_absent server server' (sub <$> auth)
                (a_username <$> auth) r Hne Ha) as Ha1.
  rewrite fetch_exec, fetch_trace.
  set (r1 := exec (assignRole server' (sub <$> auth) (a_username <$> auth)) r)
    in *.
  destruct (maybeStart_absent server r1 Ha1) as [Ha2 Hs2].
  split; [done|].
  rewrite !frames_app, !silent_to_app. repeat split.
  - apply silent_to_updateStats, Ha1.
  - by repeat constructor.
  - destruct (truthy_str (fen r1)); by repeat constructor.
  - case_bool_decide; [|by constructor].
    unfold player_frames.
    destruct (meta_known (whiteMeta r1)), (meta_known (blackMeta r1));
      by repeat constructor.
  - done.
Qed.

Lemma on_move_absent server server' from to pos promotion r :
  worker_absent server r →
  worker_absent server (exec (on_move server' from to pos promotion) r)
  ∧ silent_to server (frames (trace (on_move server' from to pos promotion) r)).
Proof.
  intros Ha. destruct from as [from|], to as [to|], pos as [f|];
    try (split; [done | by apply Forall_nil_2]).
  split; [rewrite on_move_exec; exact Ha|].
  rewrite on_move_frames. apply Forall_fmap, Forall_forall.
  intros c Hc. simpl. intros ->. destruct Ha as [Hs _]. by apply Hs.
Qed.

Lemma worker_step_absent server ev w :
  worker_sender ev ≠ server →
  worker_absent server w.1 →
  worker_absent server (step ev w).1.1
  ∧ silent_to server (frames (step ev w).2).
Proof.
  intros Hne Ha. destruct ev as [s auth|s [from to f promotion|res wc] now|s];
    simpl in *.
  - by apply fetch_absent.
  - by apply on_move_absent.
  - split; [done|]. unfold on_game_over. apply silent_to_broadcast, Ha.
  - by apply cleanup_stays_absent.
Qed.

Lemma worker_run_absent server evs w :
  Forall (λ ev, worker_sender ev ≠ server) evs →
  worker_absent server w.1 →
  worker_absent server (run evs w).1.1
  ∧ silent_to server (frames (run evs w).2).
Proof.
  intros Hevs. revert w. induction Hevs as [|ev evs Hev _ IH]; intros w Ha.
  - split; [done | constructor].
  - simpl. destruct (worker_step_absent server ev w Hev Ha) as [Ha1 Hs1].
    destruct (IH _ Ha1) as [Ha2 Hs2].
    split; [done|]. rewrite frames_app. by apply silent_to_app.
Qed.
End WorkerGone.

(** X8. In a worker room, the cleanup of a closed socket takes it out of
    the sockets and off its seat, and neither the cleanup nor anything the
    room handles afterwards for other sockets sends it a frame. *)
Theorem worker_closed_socket_hears_nothing
    (server : conn) (evs : list Worker.event) (w : Worker.Room * Worker.Db) :
  Forall (λ ev, worker_sender ev ≠ server) evs →
  let res := Worker.run (Worker.Cleanup server :: evs) w in
  silent_to server (Worker.frames res.2) ∧ worker_absent server res.1.1.
Proof.
  intros Hevs res. subst res. simpl.
  destruct (cleanup_absent server w.1) as [Ha Hs].
  destruct (worker_run_absent server evs
              (Worker.exec (Worker.cleanup server) w.1, w.2) Hevs Ha)
    as [Ha2 Hs2].
  split; [|done]. rewrite WorkerRun.frames_app. by apply silent_to_app.
Qed.

(** Black leaves the seated room; white then plays and another socket
    arrives. *)
Lemma worker_closed_socket_hears_nothing_witness :
  let res :=
    Worker.run
      [Worker.Cleanup 2%nat; WorkerScenario.e2e4; Worker.Fetch 5%nat None]
      WorkerScenario.seated in
  silent_to 2%nat (Worker.frames res.2) ∧ worker_absent 2%nat res.1.1.
Proof.
  apply (worker_closed_socket_hears_nothing 2%nat
           [WorkerScenario.e2e4; Worker.Fetch 5%nat None]
           WorkerScenario.seated).
  repeat constructor; simpl; lia.
Defined.

(** ** Invites *)
Section InviteFacts.
Import Invites.

Lemma filter_all {A} (P : A → Prop) `{∀ x, Decision (P x)} (l : list A) :
  Forall P l → filter P l = l.
Proof.
  induction 1 as [|x l Hx _ IH]; [done|].
  by rewrite filter_cons_True, IH.
Qed.

Lemma inbox_list_set_eq u l st :
  inbox_list u (with_invites (jmap_set u l (invites st)) st) = l.
Proof. unfold inbox_list. simpl. by rewrite jmap_get_set_eq. Qed.

Lemma inbox_list_set_ne u v l st :
  u ≠ v → inbox_list v (with_invites (jmap_set u l (invites st)) st)
          = inbox_list v st.
Proof. intros Hne. unfold inbox_list. simpl. by rewrite jmap_get_set_ne. Qed.

Lemma post_invite_ok e s t room newId now name st :
  s ≠ 0 → t ≠ 0 → room ≠ "" → usernames st !! s = Some name →
  let i := {| id := newId; fromUserId := s; fromUsername := name;
              roomId := room; createdAt := now; invite_status := Pending |} in
  post_invite e (Some s) (Some t) (Some room) newId now st
  = (with_invites (jmap_set t (inbox_list t st ++ [i]) (invites st)) st,
     InviteBody i,
     (λ c, (c, i)) <$> List.filter (ws_open e) (registered t st)).
Proof.
  intros Hs Ht Hr Hn i. unfold post_invite.
  rewrite !truthy_num_Some, truthy_str_Some by done.
  rewrite (or_str_Some room "" Hr). simpl. rewrite Hn. fold i.
  unfold registered. by destruct (jmap_get t (userConnections st)).
Qed.

Lemma registered_ws_auth ws t st :
  t ≠ 0 → ws ∈ registered t (ws_auth ws (Some t) st).
Proof.
  intros Ht. unfold ws_auth, registered. rewrite truthy_num_Some by done.
  destruct (jmap_get t (userConnections st)) as [existing|]; simpl;
    rewrite jmap_get_set_eq; simpl.
  - apply elem_of_set_add. by left.
  - apply list_elem_of_here.
Qed.

Lemma usernames_ws_auth ws u st : usernames (ws_auth ws u st) = usernames st.
Proof.
  unfold ws_auth. destruct u as [uid|]; [|done].
  destruct (truthy_num (Some uid)); [|done].
  by destruct (jmap_get uid (userConnections st)).
Qed.

Lemma respond_found u inviteId a st k j :
  u ≠ 0 →
  list_find (λ i, id i = inviteId) (inbox_list u st) = Some (k, j) →
  respond (Some u) inviteId (Some a) st
  = (with_invites
       (jmap_set u (filter (λ i, id i ≠ inviteId) (inbox_list u st))
          (invites st)) st,
     RespondBody (reply a) (roomId j)).
Proof.
  intros Hu Hf. unfold respond. rewrite truthy_num_Some by done. simpl.
  by rewrite Hf.
Qed.

Lemma respond_not_found u inviteId a st :
  u ≠ 0 →
  Forall (λ i, id i ≠ inviteId) (inbox_list u st) →
  respond (Some u) inviteId (Some a) st = (st, NotFound).
Proof.
  intros Hu Hf. unfold respond. rewrite truthy_num_Some by done. simpl.
  assert (list_find (λ i, id i = inviteId) (inbox_list u st) = None) as ->;
    [|done].
  apply list_find_None. eapply Forall_impl; [exact Hf|]. by intros i Hi.
Qed.

Lemma filter_other_ids inviteId (l : list Invite) :
  Forall (λ i, id i ≠ inviteId) (filter (λ i, id i ≠ inviteId) l).
Proof.
  apply Forall_forall. intros i Hi.
  by apply list_elem_of_filter in Hi as [Hne _].
Qed.
End InviteFacts.

(** X9. A valid [POST /api/invite] answers with the new pending invite,
    appends it to the recipient's inbox and to no other, and relays it to
    exactly the recipient's registered sockets that are open; a socket that
    has just authenticated as the recipient is among them. *)
Theorem invite_reaches_recipient
    (e : Env) (s t now : Z) (room newId name : string) (st : Invites.State) :
  s ≠ 0 → t ≠ 0 → room ≠ "" → Invites.usernames st !! s = Some name →
  let i := {| Invites.id := newId; Invites.fromUserId := s;
              Invites.fromUsername := name; Invites.roomId := room;
              Invites.createdAt := now;
              Invites.invite_status := Invites.Pending |} in
  let res := Invites.post_invite e (Some s) (Some t) (Some room) newId now st in
  res.1.2 = Invites.InviteBody i
  ∧ Invites.get_inbox (Some t) res.1.1
    = Invites.InboxBody (Invites.inbox_list t st ++ [i])
  ∧ (∀ u, u ≠ t → Invites.inbox_list u res.1.1 = Invites.inbox_list u st)
  ∧ (∀ c j, (c, j) ∈ res.2
            ↔ j = i ∧ c ∈ Invites.registered t st ∧ ws_open e c = true)
  ∧ (∀ ws, ws_open e ws = true →
       (ws, i) ∈ (Invites.post_invite e (Some s) (Some t) (Some room) newId
                    now (Invites.ws_auth ws (Some t) st)).2).
Proof.
  intros Hs Ht Hr Hn i res.
  pose proof (post_invite_ok e s t room newId now name st Hs Ht Hr Hn) as Hres.
  cbv zeta in Hres. fold i res in Hres.
  split; [by rewrite Hres|].
  split.
  { rewrite Hres. unfold Invites.get_inbox.
    rewrite truthy_num_Some by done. simpl. by rewrite inbox_list_set_eq. }
  split.
  { intros u Hu. rewrite Hres. by apply inbox_list_set_ne. }
  split.
  { intros c j. rewrite Hres. simpl. rewrite list_elem_of_fmap. split.
    - intros (c' & [= -> ->] & Hin).
      apply list_elem_of_In, List.filter_In in Hin as [Hin Ho].
      split; [done|]. split; [by apply list_elem_of_In | done].
    - intros (-> & Hin & Ho). exists c. split; [done|].
      apply list_elem_of_In, List.filter_In.
      split; [by apply list_elem_of_In | done]. }
  intros ws Ho.
  assert (Invites.usernames (Invites.ws_auth ws (Some t) st) !! s
          = Some name) as Hn' by (by rewrite usernames_ws_auth).
  rewrite (post_invite_ok e s t room newId now name _ Hs Ht Hr Hn').
  simpl. apply list_elem_of_fmap. exists ws. split; [done|].
  apply list_elem_of_In, List.filter_In.
  split; [|done]. apply list_elem_of_In. by apply registered_ws_auth.
Qed.

(** Ann invites Bob to room [r1] while Bob's socket 2 is registered. *)
Lemma invite_reaches_recipient_witness :
  let st := Invites.ws_auth 2%nat (Some 8) InviteScenario.st0 in
  let i := {| Invites.id := "k3x9q2ab"; Invites.fromUserId := 7;
              Invites.fromUsername := "ann"; Invites.roomId := "r1";
              Invites.createdAt := 1700000000000;
              Invites.invite_status := Invites.Pending |} in
  let res := Invites.post_invite Opening.env (Some 7) (Some 8) (Some "r1")
               "k3x9q2ab" 1700000000000 st in
  res.1.2 = Invites.InviteBody i
  ∧ Invites.get_inbox (Some 8) res.1.1
    = Invites.InboxBody (Invites.inbox_list 8 st ++ [i])
  ∧ (∀ u, u ≠ 8 → Invites.inbox_list u res.1.1 = Invites.inbox_list u st)
  ∧ (∀ c j, (c, j) ∈ res.2
            ↔ j = i ∧ c ∈ Invites.registered 8 st
              ∧ ws_open Opening.env c = true)
  ∧ (∀ ws, ws_open Opening.env ws = true →
       (ws, i) ∈ (Invites.post_invite Opening.env (Some 7) (Some 8)
                    (Some "r1") "k3x9q2ab" 1700000000000
                    (Invites.ws_auth ws (Some 8) st)).2).
Proof.
  apply (invite_reaches_recipient Opening.env 7 8 1700000000000 "r1"
           "k3x9q2ab" "ann"
           (Invites.ws_auth 2%nat (Some 8) InviteScenario.st0));
    first [reflexivity | lia | discriminate].
Defined.

(** X10. Answering an invite of one's inbox returns the chosen status and
    the room of the oldest invite with that id, removes every invite with
    that id from the inbox and leaves the other inboxes alone; answering
    the same id again is a 404 that changes nothing. *)
Theorem invite_answered_once
    (u : Z) (inviteId : string) (a : Invites.action) (st : Invites.State)
    (i : Invites.Invite) :
  u ≠ 0 → i ∈ Invites.inbox_list u st → Invites.id i = inviteId →
  let res := Invites.respond (Some u) inviteId (Some a) st in
  (∃ k j, Invites.inbox_list u st !! k = Some j
          ∧ Invites.id j = inviteId
          ∧ (∀ k' j', Invites.inbox_list u st !! k' = Some j' →
                      (k' < k)%nat → Invites.id j' ≠ inviteId)
          ∧ res.2 = Invites.RespondBody (Invites.reply a) (Invites.roomId j))
  ∧ Invites.inbox_list u res.1
    = filter (λ j, Invites.id j ≠ inviteId) (Invites.inbox_list u st)
  ∧ (∀ v, v ≠ u → Invites.inbox_list v res.1 = Invites.inbox_list v st)
  ∧ (∀ a', Invites.respond (Some u) inviteId (Some a') res.1
           = (res.1, Invites.NotFound)).
Proof.
  intros Hu Hin Hid res. subst res.
  destruct (list_find_elem_of (λ j, Invites.id j = inviteId)
              (Invites.inbox_list u st) i Hin Hid) as [[k j] Hf].
  rewrite (respond_found u inviteId a st k j Hu Hf). simpl.
  apply list_find_Some in Hf as (Hk & Hj & Hbefore).
  split; [by exists k, j|].
  split; [apply inbox_list_set_eq|].
  split; [intros v Hv; by apply inbox_list_set_ne|].
  intros a'. apply respond_not_found; [done|].
  rewrite inbox_list_set_eq. apply filter_other_ids.
Qed.

(** Bob declines the one invite of his inbox. *)
Lemma invite_answered_once_witness :
  let i := {| Invites.id := "k3x9q2ab"; Invites.fromUserId := 7;
              Invites.fromUsername := "ann"; Invites.roomId := "r1";
              Invites.createdAt := 1700000000000;
              Invites.invite_status := Invites.Pending |} in
  let st := (Invites.post_invite Opening.env (Some 7) (Some 8) (Some "r1")
               "k3x9q2ab" 1700000000000 InviteScenario.st0).1.1 in
  let res := Invites.respond (Some 8) "k3x9q2ab" (Some Invites.Decline) st in
  (∃ k j, Invites.inbox_list 8 st !! k = Some j
          ∧ Invites.id j = "k3x9q2ab"
          ∧ (∀ k' j', Invites.inbox_list 8 st !! k' = Some j' →
                      (k' < k)%nat → Invites.id j' ≠ "k3x9q2ab")
          ∧ res.2 = Invites.RespondBody (Invites.reply Invites.Decline)
                      (Invites.roomId j))
  ∧ Invites.inbox_list 8 res.1
    = filter (λ j, Invites.id j ≠ "k3x9q2ab") (Invites.inbox_list 8 st)
  ∧ (∀ v, v ≠ 8 → Invites.inbox_list v res.1 = Invites.inbox_list v st)
  ∧ (∀ a', Invites.respond (Some 8) "k3x9q2ab" (Some a') res.1
           = (res.1, Invites.NotFound)).
Proof.
  intros i st.
  apply (invite_answered_once 8 "k3x9q2ab" Invites.Decline st i);
    [lia | apply list_elem_of_here | reflexivity].
Defined.

(** X11. An invite posted under an id that is new to the recipient's inbox
    and then answered by the recipient yields the room it was posted for,
    and every inbox is again what it was before the invite. *)
Theorem invite_then_answer
    (e : Env) (s t now : Z) (room newId name : string) (a : Invites.action)
    (st : Invites.State) :
  s ≠ 0 → t ≠ 0 → room ≠ "" → Invites.usernames st !! s = Some name →
  Forall (λ j, Invites.id j ≠ newId) (Invites.inbox_list t st) →
  let st1 :=
    (Invites.post_invite e (Some s) (Some t) (Some room) newId now st).1.1 in
  let res := Invites.respond (Some t) newId (Some a) st1 in
  res.2 = Invites.RespondBody (Invites.reply a) room
  ∧ ∀ v, Invites.inbox_list v res.1 = Invites.inbox_list v st.
Proof.
  intros Hs Ht Hr Hn Hfresh st1 res. subst res st1.
  rewrite (post_invite_ok e s t room newId now name st Hs Ht Hr Hn). simpl.
  set (i := {| Invites.id := newId; Invites.fromUserId := s;
               Invites.fromUsername := name; Invites.roomId := room;
               Invites.createdAt := now;
               Invites.invite_status := Invites.Pending |}).
  set (st1 := Invites.with_invites _ st).
  assert (Invites.inbox_list t st1 = Invites.inbox_list t st ++ [i]) as Hl.
  { apply inbox_list_set_eq. }
  assert (∀ v, v ≠ t → Invites.inbox_list v st1 = Invites.inbox_list v st)
    as Hother.
  { intros v Hv. by apply inbox_list_set_ne. }
  clearbody st1.
  assert (list_find (λ j, Invites.id j = newId) (Invites.inbox_list t st1)
          = Some (length (Invites.inbox_list t st), i)) as Hf.
  { rewrite Hl. apply list_find_Some. split; [|split; [done|]].
    - by rewrite lookup_app_r, Nat.sub_diag by lia.
    - intros k j Hk Hlt. rewrite lookup_app_l in Hk by done.
      eapply (proj1 (Forall_forall _ _) Hfresh).
      by eapply list_elem_of_lookup_2. }
  rewrite (respond_found t newId a st1 _ i Ht Hf). simpl.
  split; [done|]. intros v.
  destruct (decide (v = t)) as [->|Hv].
  - rewrite inbox_list_set_eq, Hl, filter_app, (filter_all _ _ Hfresh).
    rewrite filter_cons_False by (simpl; auto). by rewrite app_nil_r.
  - rewrite inbox_list_set_ne by done. by apply Hother.
Qed.

Lemma invite_then_answer_witness :
  let st1 :=
    (Invites.post_invite Opening.env (Some 7) (Some 8) (Some "r1")
       "k3x9q2ab" 1700000000000 InviteScenario.st0).1.1 in
  let res := Invites.respond (Some 8) "k3x9q2ab" (Some Invites.Accept) st1 in
  res.2 = Invites.RespondBody (Invites.reply Invites.Accept) "r1"
  ∧ ∀ v, Invites.inbox_list v res.1 = Invites.inbox_list v InviteScenario.st0.
Proof.
  apply (invite_then_answer Opening.env 7 8 1700000000000 "r1" "k3x9q2ab"
           "ann" Invites.Accept InviteScenario.st0);
    first [reflexivity | lia | discriminate | constructor].
Defined.

(** ** Base64 there and back *)
Section Base64Facts.
Import Stdlib.Strings.Ascii.
Import Stdlib.Strings.Ascii.AsciiSyntax.
Import Base64.

(** Strings three code units at a time. *)
Lemma string_ind3 (P : string → Prop) :
  P EmptyString →
  (∀ a, P (String a EmptyString)) →
  (∀ a b, P (String a (String b EmptyString))) →
  (∀ a b c r, P r → P (String a (String b (String c r)))) →
  ∀ s, P s.
Proof.
  intros H0 H1 H2 H3.
  assert (∀ s, P s ∧ (∀ a, P (String a s)) ∧ (∀ a b, P (String a (String b s))))
    as Hall.
  { induction s as [|c r (IH0 & IH1 & IH2)]; [by repeat split|].
    split; [apply IH1|]. split; [intros a; apply IH2|].
    intros a b. by apply H3. }
  intros s. apply Hall.
Qed.

Lemma code_lt (c : ascii) : (Js.code c < 256)%N.
Proof. apply N_ascii_bounded. Qed.

Lemma chr_code (c : ascii) : Js.chr (Js.code c) = c.
Proof. apply ascii_N_embedding. Qed.

Lemma sextet_bounds (a b c : N) :
  (a < 256)%N → (b < 256)%N → (c < 256)%N →
  (s1 a < 64 ∧ s2 a b < 64 ∧ s3 b c < 64 ∧ s4 c < 64)%N.
Proof.
  intros Ha Hb Hc. unfold s1, s2, s3, s4.
  pose proof (N.mod_upper_bound a 4). pose proof (N.mod_upper_bound b 16).
  pose proof (N.mod_upper_bound c 64).
  assert (a / 4 < 64)%N by (apply N.Div0.div_lt_upper_bound; lia).
  assert (b / 16 < 16)%N by (apply N.Div0.div_lt_upper_bound; lia).
  assert (c / 64 < 4)%N by (apply N.Div0.div_lt_upper_bound; lia).
  lia.
Qed.

Lemma octets_of_sextets (a b c : N) :
  (a < 256)%N → (b < 256)%N → (c < 256)%N →
  (s1 a * 4 + s2 a b / 16 = a
   ∧ (s2 a b mod 16) * 16 + s3 b c / 4 = b
   ∧ (s3 b c mod 4) * 64 + s4 c = c)%N.
Proof.
  intros Ha Hb Hc. unfold s1, s2, s3, s4.
  pose proof (N.div_mod a 4). pose proof (N.mod_upper_bound a 4).
  pose proof (N.div_mod b 16). pose proof (N.mod_upper_bound b 16).
  pose proof (N.div_mod c 64). pose proof (N.mod_upper_bound c 64).
  assert (b / 16 < 16)%N by (apply N.Div0.div_lt_upper_bound; lia).
  assert (c / 64 < 4)%N by (apply N.Div0.div_lt_upper_bound; lia).
  assert (((a mod 4) * 16 + b / 16) / 16 = a mod 4)%N as ->.
  { rewrite N.add_comm, N.div_add by lia. rewrite N.div_small; lia. }
  assert (((a mod 4) * 16 + b / 16) mod 16 = b / 16)%N as ->.
  { rewrite N.add_comm, N.Div0.mod_add. apply N.mod_small; lia. }
  assert (((b mod 16) * 4 + c / 64) / 4 = b mod 16)%N as ->.
  { rewrite N.add_comm, N.div_add by lia. rewrite N.div_small; lia. }
  assert (((b mod 16) * 4 + c / 64) mod 4 = c / 64)%N as ->.
  { rewrite N.add_comm, N.Div0.mod_add. apply N.mod_small; lia. }
  lia.
Qed.

Lemma below_64 (P : N → Prop) :
  (∀ i, (i < 64)%nat → P (N.of_nat i)) → ∀ n, (n < 64)%N → P n.
Proof.
  intros HP n Hn. rewrite <- (N2Nat.id n). apply HP. lia.
Qed.

Lemma digit_facts (n : N) :
  (n < 64)%N →
  value (digit n) = Some n
  ∧ is_whitespace (digit n) = false
  ∧ Ascii.eqb (digit n) "=" = false.
Proof.
  revert n. apply below_64. intros i Hi.
  do 64 (destruct i as [|i]; [by vm_compute|]). lia.
Qed.

Lemma digit_chars (c : ascii) :
  is_base64_digit c = true →
  from_url (to_url c) = c
  ∧ is_url_digit (to_url c) = true
  ∧ Ascii.eqb (to_url c) "=" = false
  ∧ Ascii.eqb (to_url c) "." = false.
Proof.
  destruct c as [[] [] [] [] [] [] [] []]; vm_compute; intros Hc;
    first [discriminate | by repeat split].
Qed.

Lemma strip_padding_cons (c : ascii) (r : string) :
  Ascii.eqb c "=" = false →
  strip_padding (String c r) = String c (strip_padding r).
Proof.
  destruct c as [[] [] [] [] [] [] [] []]; first [discriminate | reflexivity].
Qed.

Lemma replace_map (x y : ascii) (s : string) :
  replace x y s = map_chars (λ c, if Ascii.eqb c x then y else c) s.
Proof. induction s as [|c r IH]; simpl; [done | by rewrite IH]. Qed.

Lemma map_chars_map_chars (f g : ascii → ascii) (s : string) :
  map_chars g (map_chars f s) = map_chars (λ c, g (f c)) s.
Proof. induction s as [|c r IH]; simpl; [done | by rewrite IH]. Qed.

Lemma map_chars_app (f : ascii → ascii) (a b : string) :
  map_chars f (a +:+ b) = map_chars f a +:+ map_chars f b.
Proof. induction a as [|c r IH]; simpl; [done | by rewrite IH]. Qed.

Lemma map_chars_length (f : ascii → ascii) (s : string) :
  String.length (map_chars f s) = String.length s.
Proof. induction s as [|c r IH]; simpl; [done | by rewrite IH]. Qed.

Lemma to_url_replace (s : string) :
  replace "/" "_" (replace "+" "-" s) = map_chars to_url s.
Proof. by rewrite !replace_map, map_chars_map_chars. Qed.

Lemma from_url_replace (s : string) :
  replace "_" "/" (replace "-" "+" s) = map_chars from_url s.
Proof. by rewrite !replace_map, map_chars_map_chars. Qed.

Lemma map_chars_id (f : ascii → ascii) (p : ascii → bool) (s : string) :
  (∀ c, p c = true → f c = c) →
  all_chars p s = true → map_chars f s = s.
Proof.
  intros Hf. induction s as [|c r IH]; simpl; [done|].
  intros [Hc Hr]%andb_prop. by rewrite (Hf c Hc), (IH Hr).
Qed.

Lemma all_chars_map (f : ascii → ascii) (p q : ascii → bool) (s : string) :
  (∀ c, p c = true → q (f c) = true) →
  all_chars p s = true → all_chars q (map_chars f s) = true.
Proof.
  intros Hf. induction s as [|c r IH]; simpl; [done|].
  intros [Hc Hr]%andb_prop. by rewrite (Hf c Hc), (IH Hr).
Qed.

(** Whatever is cut from [===] is made of [=]. *)
Lemma padding_equals (n : nat) :
  all_chars (λ c, Ascii.eqb c "=") (slice n "===") = true.
Proof. by destruct n as [|[|[|[|k]]]]. Qed.

Lemma strip_equals_app (x p : string) :
  all_chars (λ c, negb (Ascii.eqb c "=")) x = true →
  all_chars (λ c, Ascii.eqb c "=") p = true →
  strip_equals (x +:+ p) = x.
Proof.
  intros Hx Hp.
  assert (strip_equals p = "") as Hsp.
  { induction p as [|c r IH]; simpl in *; [done|].
    apply andb_prop in Hp as [Hc Hr]. by rewrite (IH Hr), Hc. }
  induction x as [|c r IH]; simpl in *; [done|].
  apply andb_prop in Hx as [Hc Hr]. rewrite (IH Hr).
  apply negb_true_iff in Hc. rewrite Hc. by destruct r.
Qed.

Lemma body_digits (s : string) : all_chars is_base64_digit (base64_body s) = true.
Proof.
  assert (∀ n, (n < 64)%N → is_base64_digit (digit n) = true) as Hd.
  { intros n Hn. unfold is_base64_digit.
    by destruct (digit_facts n Hn) as (-> & _). }
  induction s as [|a|a b|a b c r IH] using string_ind3; [done|..].
  - destruct (sextet_bounds (Js.code a) 0 0) as (? & ? & ? & ?);
      [apply code_lt | lia | lia|].
    simpl. by rewrite !Hd.
  - destruct (sextet_bounds (Js.code a) (Js.code b) 0) as (? & ? & ? & ?);
      [apply code_lt | apply code_lt | lia|].
    simpl. by rewrite !Hd.
  - destruct (sextet_bounds (Js.code a) (Js.code b) (Js.code c))
      as (? & ? & ? & ?); [apply code_lt..|].
    change (base64_body (String a (String b (String c r))))
      with (String (digit (s1 (Js.code a)))
              (String (digit (s2 (Js.code a) (Js.code b)))
                 (String (digit (s3 (Js.code b) (Js.code c)))
                    (String (digit (s4 (Js.code c))) (base64_body r))))).
    simpl. by rewrite !Hd, IH.
Qed.

Lemma add_4_mod (n : nat) : (Datatypes.S (Datatypes.S (Datatypes.S (Datatypes.S n))) mod 4 = n mod 4)%nat.
Proof.
  replace (Datatypes.S (Datatypes.S (Datatypes.S (Datatypes.S n))))
    with (n + 1 * 4)%nat by lia.
  apply Nat.Div0.mod_add.
Qed.

Lemma btoa_body (s : string) :
  btoa s
  = base64_body s +:+ slice ((String.length (base64_body s) + 3) mod 4) "===".
Proof.
  induction s as [|a|a b|a b c r IH] using string_ind3; [done..|].
  change (btoa (String a (String b (String c r))))
    with (String (digit (s1 (Js.code a)))
            (String (digit (s2 (Js.code a) (Js.code b)))
               (String (digit (s3 (Js.code b) (Js.code c)))
                  (String (digit (s4 (Js.code c))) (btoa r))))).
  change (base64_body (String a (String b (String c r))))
    with (String (digit (s1 (Js.code a)))
            (String (digit (s2 (Js.code a) (Js.code b)))
               (String (digit (s3 (Js.code b) (Js.code c)))
                  (String (digit (s4 (Js.code c))) (base64_body r))))).
  cbn [String.length String.append]. rewrite IH at 1.
  do 4 f_equal.
  replace (Datatypes.S (Datatypes.S (Datatypes.S (Datatypes.S
             (String.length (base64_body r))))) + 3)%nat
    with (Datatypes.S (Datatypes.S (Datatypes.S (Datatypes.S
             (String.length (base64_body r) + 3))))) by lia.
  by rewrite add_4_mod.
Qed.
Ltac unfold_group a b c r :=
  change (btoa (String a (String b (String c r))))
    with (String (digit (s1 (Js.code a)))
            (String (digit (s2 (Js.code a) (Js.code b)))
               (String (digit (s3 (Js.code b) (Js.code c)))
                  (String (digit (s4 (Js.code c))) (btoa r)))));
  change (base64_body (String a (String b (String c r))))
    with (String (digit (s1 (Js.code a)))
            (String (digit (s2 (Js.code a) (Js.code b)))
               (String (digit (s3 (Js.code b) (Js.code c)))
                  (String (digit (s4 (Js.code c))) (base64_body r))))).

Ltac sextets_of a b c :=
  let H1 := fresh "Hs1" in
  let H2 := fresh "Hs2" in
  let H3 := fresh "Hs3" in
  let H4 := fresh "Hs4" in
  destruct (sextet_bounds a b c) as (H1 & H2 & H3 & H4);
  [first [apply code_lt | lia]..|];
  destruct (digit_facts _ H1) as (? & ? & ?);
  destruct (digit_facts _ H2) as (? & ? & ?);
  destruct (digit_facts _ H3) as (? & ? & ?);
  destruct (digit_facts _ H4) as (? & ? & ?).

Lemma btoa_no_whitespace (s : string) : remove_whitespace (btoa s) = btoa s.
Proof.
  induction s as [|a|a b|a b c r IH] using string_ind3; [done|..].
  - sextets_of (Js.code a) 0%N 0%N. simpl. by repeat case_match.
  - sextets_of (Js.code a) (Js.code b) 0%N. simpl. by repeat case_match.
  - sextets_of (Js.code a) (Js.code b) (Js.code c). unfold_group a b c r.
    cbn [remove_whitespace]. rewrite IH. by repeat case_match.
Qed.

Lemma btoa_length (s : string) : (String.length (btoa s) mod 4 = 0)%nat.
Proof.
  induction s as [|a|a b|a b c r IH] using string_ind3; [done..|].
  unfold_group a b c r. cbn [String.length]. by rewrite add_4_mod.
Qed.

Lemma body_length (s : string) :
  (String.length (base64_body s) mod 4 ≠ 1)%nat.
Proof.
  induction s as [|a|a b|a b c r IH] using string_ind3; [done..|].
  unfold_group a b c r. cbn [String.length]. by rewrite add_4_mod.
Qed.

Lemma btoa_strip_padding (s : string) :
  strip_padding (btoa s) = base64_body s.
Proof.
  induction s as [|a|a b|a b c r IH] using string_ind3; [done|..].
  - sextets_of (Js.code a) 0%N 0%N.
    cbn [btoa base64_body]. by rewrite !strip_padding_cons by done.
  - sextets_of (Js.code a) (Js.code b) 0%N.
    cbn [btoa base64_body]. by rewrite !strip_padding_cons by done.
  - sextets_of (Js.code a) (Js.code b) (Js.code c). unfold_group a b c r.
    by rewrite !strip_padding_cons, IH by done.
Qed.

Lemma body_octets (s : string) :
  ∃ l, sextets (base64_body s) = Some l ∧ octets l = s.
Proof.
  induction s as [|a|a b|a b c r (l & Hl & Ho)] using string_ind3.
  - by exists [].
  - sextets_of (Js.code a) 0%N 0%N.
    destruct (octets_of_sextets (Js.code a) 0 0) as (Ea & _);
      [apply code_lt | lia | lia|].
    exists [s1 (Js.code a); s2 (Js.code a) 0]. split.
    + cbn [base64_body sextets]. by repeat (simplify_option_eq; try done).
    + cbn [octets]. by rewrite Ea, chr_code.
  - sextets_of (Js.code a) (Js.code b) 0%N.
    destruct (octets_of_sextets (Js.code a) (Js.code b) 0) as (Ea & Eb & _);
      [apply code_lt | apply code_lt | lia|].
    exists [s1 (Js.code a); s2 (Js.code a) (Js.code b); s3 (Js.code b) 0].
    split.
    + cbn [base64_body sextets]. by repeat (simplify_option_eq; try done).
    + cbn [octets]. by rewrite Ea, Eb, !chr_code.
  - sextets_of (Js.code a) (Js.code b) (Js.code c).
    destruct (octets_of_sextets (Js.code a) (Js.code b) (Js.code c))
      as (Ea & Eb & Ec); [apply code_lt..|].
    exists (s1 (Js.code a) :: s2 (Js.code a) (Js.code b)
            :: s3 (Js.code b) (Js.code c) :: s4 (Js.code c) :: l).
    split.
    + unfold_group a b c r. cbn [sextets]. rewrite Hl.
      by repeat (simplify_option_eq; try done).
    + cbn [octets]. by rewrite Ea, Eb, Ec, Ho, !chr_code.
Qed.

Lemma atob_btoa (s : string) : atob (btoa s) = Some s.
Proof.
  unfold atob. cbv zeta.
  rewrite btoa_no_whitespace, btoa_length, Nat.eqb_refl, btoa_strip_padding.
  destruct (Nat.eqb_spec (String.length (base64_body s) mod 4) 1) as [E|_];
    [by apply body_length in E|].
  destruct (body_octets s) as (l & -> & Ho). simpl. by rewrite Ho.
Qed.

Lemma url_safe_btoa (s : string) :
  url_safe (btoa s) = map_chars to_url (base64_body s).
Proof.
  unfold url_safe. rewrite to_url_replace, btoa_body, map_chars_app.
  apply strip_equals_app.
  - apply (all_chars_map _ is_base64_digit); [|apply body_digits].
    intros c Hc. destruct (digit_chars c Hc) as (_ & _ & -> & _). done.
  - rewrite (map_chars_id _ (λ c, Ascii.eqb c "=")); [apply padding_equals| |].
    + intros c Hc. apply Ascii.eqb_eq in Hc. by subst c.
    + apply padding_equals.
Qed.

Lemma padded_url_safe (s : string) :
  padded (url_safe (btoa s)) = btoa s.
Proof.
  rewrite url_safe_btoa. unfold padded.
  rewrite from_url_replace, map_chars_map_chars, map_chars_length.
  rewrite (map_chars_id _ is_base64_digit); [|..|apply body_digits].
  - by rewrite <- btoa_body.
  - intros c Hc. by destruct (digit_chars c Hc) as (-> & _).
Qed.

Lemma url_safe_digits (s : string) :
  all_chars is_url_digit (url_safe (btoa s)) = true.
Proof.
  rewrite url_safe_btoa.
  apply (all_chars_map _ is_base64_digit); [|apply body_digits].
  intros c Hc. by destruct (digit_chars c Hc) as (_ & -> & _).
Qed.

Lemma atob_url_safe (s : string) : atob (padded (url_safe (btoa s))) = Some s.
Proof. by rewrite padded_url_safe, atob_btoa. Qed.

Lemma decode_encode (bs : list Byte.byte) :
  base64UrlDecodeToBytes (base64UrlEncode bs) = Some bs.
Proof.
  unfold base64UrlDecodeToBytes, base64UrlEncode.
  rewrite atob_url_safe. simpl.
  by rewrite String.list_byte_of_string_of_list_byte.
Qed.
End Base64Facts.

(** ** Tokens there and back *)
Section TokenFacts.
Import Stdlib.Strings.Ascii.
Import Stdlib.Strings.Ascii.AsciiSyntax.
Context `{TokenRuntime}.

Lemma split_no_dot (s : string) :
  all_chars not_dot s = true → Js.split "." s = [s].
Proof.
  induction s as [|c r IH]; [done|]. simpl.
  intros [Hc Hr]%andb_prop. unfold not_dot in Hc.
  apply negb_true_iff in Hc. change (Js.chr 46) with "."%char in Hc.
  by rewrite Hc, (IH Hr).
Qed.

Lemma split_at_dot (x y : string) :
  all_chars not_dot x = true →
  Js.split "." (x +:+ String "." y) = x :: Js.split "." y.
Proof.
  induction x as [|c r IH]; [done|]. simpl.
  intros [Hc Hr]%andb_prop. unfold not_dot in Hc.
  apply negb_true_iff in Hc. change (Js.chr 46) with "."%char in Hc.
  by rewrite Hc, (IH Hr).
Qed.

Lemma url_digit_not_dot (c : ascii) : is_url_digit c = true → not_dot c = true.
Proof.
  destruct c as [[] [] [] [] [] [] [] []]; vm_compute; intros Hc;
    first [discriminate | reflexivity].
Qed.

Lemma url_safe_no_dot (s : string) :
  all_chars not_dot (Base64.url_safe (Base64.btoa s)) = true.
Proof.
  apply (all_chars_impl is_url_digit); [|apply url_safe_digits].
  apply url_digit_not_dot.
Qed.

Lemma token_split (s : string) (mac : list Byte.byte) :
  Js.split "."
    (Base64.url_safe (Base64.btoa s) +:+ "." +:+ base64UrlEncode mac)
  = [Base64.url_safe (Base64.btoa s); base64UrlEncode mac].
Proof.
  change (Base64.url_safe (Base64.btoa s) +:+ "." +:+ base64UrlEncode mac)
    with (Base64.url_safe (Base64.btoa s)
          +:+ String "." (base64UrlEncode mac)).
  rewrite split_at_dot by apply url_safe_no_dot. f_equal.
  apply split_no_dot, url_safe_no_dot.
Qed.

Lemma token_not_empty (x y : string) : x +:+ "." +:+ y ≠ "".
Proof. by destruct x. Qed.

Lemma verify_issued env secret (bin : string) now :
  Token.ensureSessionSecret env = Some secret →
  let body := Base64.url_safe (Base64.btoa bin) in
  Token.verifyToken env
    (Some (body +:+ "." +:+ Token.hmacSign secret body)) now
  = match JSON_parse bin with
     | Some payload =>
         if sub_truthy payload && exp_truthy payload
            && negb (exp_le payload now)
         then Some payload else None
     | None => None
     end.
Proof.
  intros Hsecret body. unfold Token.verifyToken.
  rewrite truthy_str_Some by apply token_not_empty.
  rewrite or_str_Some by apply token_not_empty.
  rewrite Hsecret. cbn [negb]. unfold Token.hmacSign at 1. subst body.
  rewrite token_split.
  rewrite String.eqb_refl. cbn [negb].
  rewrite atob_url_safe.
  destruct (JSON_parse bin) as [payload|]; [|done]. simpl.
  by destruct (sub_truthy payload), (exp_truthy payload),
    (exp_le payload now).
Qed.
End TokenFacts.

(** X13. A token that [makeToken] issues gets through [verifyToken] under
    the same secret: the two parts are found again, the signature matches
    and the body decodes to the very JSON text that was signed.  What
    [verifyToken] returns is then decided by that text alone: its payload
    if [sub] and [exp] are set and [exp] lies after the clock reading,
    [null] otherwise.  The token is issued whenever the secret is set and
    the JSON text has no code unit above 255. *)
Theorem issued_token_verifies `{TokenRuntime}
    (env : Token.TokenEnv) (secret : string) (sub : number)
    (username : jstring) (now : number) (bin : string) :
  Token.ensureSessionSecret env = Some secret →
  Token.binary
    (JSON_stringify
       (token_payload sub username now
          (num_add now
             (num_mul (Number_ (or_str (Token.TOKEN_TTL_SECONDS env) "604800"))
                num_1000))))
  = Some bin →
  ∃ token,
    Token.makeToken env sub username now = Some token
    ∧ ∀ now',
        Token.verifyToken env (Some token) now'
        = match JSON_parse bin with
           | Some payload =>
               if sub_truthy payload && exp_truthy payload
                  && negb (exp_le payload now')
               then Some payload else None
           | None => None
           end.
Proof.
  intros Hsecret Hbin. eexists. split.
  - unfold Token.makeToken, Token.btoa. rewrite Hsecret. simpl.
    rewrite Hbin. reflexivity.
  - intros now'. by apply verify_issued.
Qed.

(** Ann's token, issued at 1000 under the default lifetime. *)
Lemma issued_token_verifies_witness :
  ∃ token,
    Token.makeToken ToyToken.env 7%N "ann" 1000%N = Some token
    ∧ ∀ now',
        Token.verifyToken ToyToken.env (Some token) now'
        = match JSON_parse "7,1000,604801000,ann" with
           | Some payload =>
               if sub_truthy payload && exp_truthy payload
                  && negb (exp_le payload now')
               then Some payload else None
           | None => None
           end.
Proof.
  apply (@issued_token_verifies ToyToken.runtime ToyToken.env "s3cret" 7%N
           "ann" 1000%N "7,1000,604801000,ann"); reflexivity.
Defined.

(** ** Accounts only grow *)
Section AccountsGrow.

Lemma server_user_grows_refl u : server_user_grows u u.
Proof. unfold server_user_grows. lia. Qed.

Lemma server_db_grows_refl d : server_db_grows d d.
Proof.
  split; [|done]. intros id. destruct (Server.users d !! id); constructor.
  apply server_user_grows_refl.
Qed.

Lemma server_update_lookup id newRating d x :
  Server.users (Server.updateUserRating id newRating d) !! x
  = if decide (x = id)
    then (λ u, {| Server.rating := Some newRating;
                  Server.gamesPlayed :=
                    Some (or_zero (Server.gamesPlayed u) + 1) |})
           <$> Server.users d !! x
    else Server.users d !! x.
Proof.
  unfold Server.updateUserRating, Server.getUser.
  destruct (decide (x = id)) as [->|Hne].
  - destruct (Server.users d !! id) as [u|] eqn:E; simpl.
    + by rewrite lookup_insert_eq.
    + by rewrite E.
  - destruct (Server.users d !! id) as [u|] eqn:E; simpl; [|done].
    by rewrite lookup_insert_ne.
Qed.

Lemma server_update_games id newRating d :
  Server.games (Server.updateUserRating id newRating d) = Server.games d.
Proof.
  unfold Server.updateUserRating. by destruct (Server.getUser id d).
Qed.

Lemma server_settle_games w b wc d :
  Server.games (Server.settle w b wc d) = Server.games d.
Proof.
  unfold Server.settle.
  destruct wc as [[| |]|]; rewrite ?server_update_games;
    try done; by destruct (Server.getUser _ d);
    rewrite ?server_update_games.
Qed.

Lemma server_settle_grows w b wc d x :
  option_Forall2 server_user_grows
    (Server.users d !! x) (Server.users (Server.settle w b wc d) !! x).
Proof.
  unfold Server.settle, Server.rating_or_zero, Server.getUser.
  destruct wc as [[| |]|];
    [destruct (Server.users d !! w) as [uw|] eqn:Ew
    |destruct (Server.users d !! b) as [ub|] eqn:Eb | |];
    rewrite !server_update_lookup;
    repeat case_decide; subst; rewrite ?Ew, ?Eb; simpl;
    repeat match goal with
      | |- context [Server.users d !! ?k] =>
          let E := fresh "E" in
          destruct (Server.users d !! k) eqn:E; simpl; simplify_eq
      end;
    constructor; unfold server_user_grows; simpl; lia.
Qed.

Lemma handle_join_db `{RulesEngine} ws roomId u n st :
  Server.db (Server.handle_join ws roomId u n st).1 = Server.db st.
Proof.
  unfold Server.handle_join.
  destruct (Server.assign_seat _ _ _ _) as [room2 ro].
  by destruct (Server.join_notices ws room2) as [room3 notices].
Qed.

Lemma play_move_db `{RulesEngine} ws roomId f t p g room st :
  Server.db (Server.play_move ws roomId f t p g room st).1 = Server.db st.
Proof. unfold Server.play_move. by destruct (chess_move g f t p). Qed.

Lemma handle_move_db `{RulesEngine} ws roomId f t p st :
  Server.db (Server.handle_move ws roomId f t p st).1 = Server.db st.
Proof.
  unfold Server.handle_move.
  destruct (jmap_get roomId (Server.rooms st)) as [room|]; [|done].
  destruct (truthy_str f && truthy_str t); [|done].
  destruct (Server.game room) as [g|]; [apply play_move_db|].
  destruct (chess_load _) as [g|]; [|done].
  by rewrite play_move_db.
Qed.

Lemma server_step_grows `{RulesEngine} ev st :
  server_db_grows (Server.db st) (Server.db (Server.step ev st).1).
Proof.
  destruct ev as [e ws [u|u|roomId u n|roomId f t p x|roomId res wc]|ws];
    simpl.
  - unfold Server.handle_auth.
    destruct u; [destruct (truthy_num _)|]; apply server_db_grows_refl.
  - unfold Server.handle_find_match.
    repeat case_match; apply server_db_grows_refl.
  - rewrite handle_join_db. apply server_db_grows_refl.
  - rewrite handle_move_db. apply server_db_grows_refl.
  - unfold Server.handle_game_over.
    destruct (jmap_get roomId (Server.rooms st)) as [room|];
      [|apply server_db_grows_refl].
    simpl. destruct (truthy_num (Server.whiteId room)
                     && truthy_num (Server.blackId room));
      [|apply server_db_grows_refl].
    split; simpl.
    + intros id. apply server_settle_grows.
    + rewrite server_settle_games. by apply prefix_app_r.
  - apply server_db_grows_refl.
Qed.

Lemma worker_row_grows_refl u : worker_row_grows u u.
Proof. unfold worker_row_grows. lia. Qed.

Lemma worker_db_grows_refl d : worker_db_grows d d.
Proof.
  split; [|done]. intros id. destruct (Worker.users d !! id); constructor.
  apply worker_row_grows_refl.
Qed.

Lemma worker_inc_users u f delta d x :
  Worker.users (Worker.inc u f delta d) !! x
  = if decide (x = u)
    then (λ row, Worker.updated row f delta) <$> Worker.users d !! x
    else Worker.users d !! x.
Proof.
  unfold Worker.inc. destruct (decide (x = u)) as [->|Hne].
  - destruct (Worker.users d !! u) as [row|] eqn:E; simpl.
    + by rewrite lookup_insert_eq.
    + by rewrite E.
  - destruct (Worker.users d !! u) as [row|] eqn:E; simpl; [|done].
    by rewrite lookup_insert_ne.
Qed.

Lemma worker_inc_games u f delta d :
  Worker.games (Worker.inc u f delta d) = Worker.games d.
Proof. unfold Worker.inc. by destruct (Worker.users d !! u). Qed.

Lemma worker_game_over_grows res wc now r d :
  worker_db_grows d (Worker.handleGameOver res wc now r d).
Proof.
  unfold Worker.handleGameOver.
  destruct (Worker.m_id (Worker.whiteMeta r)) as [w|];
    [|apply worker_db_grows_refl].
  destruct (Worker.m_id (Worker.blackMeta r)) as [b|];
    [|apply worker_db_grows_refl].
  destruct (truthy_num (Some w) && truthy_num (Some b));
    [|apply worker_db_grows_refl].
  split.
  - intros x.
    destruct wc as [[| |]|]; rewrite !worker_inc_users; simpl;
      repeat case_decide; subst;
      destruct (Worker.users d !! _) as [row|]; simpl;
      constructor; unfold worker_row_grows; simpl; unfold Worker.bump;
      repeat case_decide; try done; lia.
  - destruct wc as [[| |]|]; rewrite !worker_inc_games; simpl;
      by apply prefix_app_r.
Qed.

Lemma worker_step_grows ev w :
  worker_db_grows w.2 (Worker.step ev w).1.2.
Proof.
  destruct ev as [s auth|s [from to f p|res wc] now|s]; simpl;
    try apply worker_db_grows_refl.
  apply worker_game_over_grows.
Qed.
End AccountsGrow.

(** ** A socket the matchmaking object has cleaned up *)
Section MatchmakingGone.
Import Worker.

Lemma mm_cleanup_absent server q : mm_absent server (mm_cleanup server q).
Proof.
  split; simpl.
  - intros Hin. by apply list_elem_of_filter in Hin as [Hne _].
  - apply not_elem_of_jmap_delete.
Qed.

Lemma mm_step_absent server ev q :
  mm_sender ev ≠ server →
  mm_absent server q →
  mm_absent server (mm_step ev q).1 ∧ silent_to server (mm_step ev q).2.
Proof.
  intros Hne [Hq Hs]. destruct ev as [s auth|roomId s|s]; simpl in *.
  - split; [|constructor]. split; [done|]. simpl.
    intros Hin. apply elem_of_jmap_set_keys in Hin as [->|Hin]; done.
  - unfold mm_find_match.
    destruct (filter (λ c, c ≠ s) (queue q)) as [|opponent rest] eqn:Hf.
    { split; [|constructor]. split; [|done]. simpl.
      by intros ->%list_elem_of_singleton. }
    assert (∀ c, c ∈ opponent :: rest → c ∈ queue q) as Hsub.
    { intros c Hc. rewrite <- Hf in Hc.
      by apply list_elem_of_filter in Hc as [_ Hc]. }
    assert (opponent ≠ server) as Ho.
    { intros ->. apply Hq, Hsub, list_elem_of_here. }
    assert (server ∉ rest) as Hr.
    { intros Hin. apply Hq, Hsub. by apply list_elem_of_further. }
    destruct (jmap_has opponent (mm_sockets q)).
    + split; [by split|]. by repeat constructor.
    + split; [|constructor]. split; [|done]. simpl.
      intros [Hin| ->%list_elem_of_singleton]%elem_of_app; done.
  - split; [|constructor]. split; simpl.
    + intros Hin. by apply list_elem_of_filter in Hin as [_ Hin].
    + intros Hin. apply Hs. unfold jmap_delete in Hin.
      apply list_elem_of_fmap in Hin as (kv & -> & Hin).
      apply list_elem_of_filter in Hin as [_ Hin].
      apply list_elem_of_fmap. by exists kv.
Qed.

Lemma mm_run_absent server evs q :
  Forall (λ ev, mm_sender ev ≠ server) evs →
  mm_absent server q →
  mm_absent server (mm_run evs q).1 ∧ silent_to server (mm_run evs q).2.
Proof.
  intros Hevs. revert q. induction Hevs as [|ev evs Hev _ IH]; intros q Ha.
  - split; [done | constructor].
  - simpl. destruct (mm_step_absent server ev q Hev Ha) as [Ha1 Hs1].
    destruct (IH _ Ha1) as [Ha2 Hs2].
    split; [done|]. by apply Forall_app.
Qed.
End MatchmakingGone.

(** X15. A socket the matchmaking object has cleaned up is never paired:
    it has left the queue and the registry, and whatever the object then
    handles for other sockets, it is sent no [match_found]. *)
Theorem closed_socket_is_never_paired
    (server : conn) (evs : list Worker.mm_event) (q : Worker.Matchmaking) :
  Forall (λ ev, mm_sender ev ≠ server) evs →
  let res := mm_run (Worker.MmCleanup server :: evs) q in
  silent_to server res.2 ∧ mm_absent server res.1.
Proof.
  intros Hevs res. subst res. simpl.
  destruct (mm_run_absent server evs (Worker.mm_cleanup server q) Hevs
              (mm_cleanup_absent server q)) as [Ha Hs].
  by split.
Qed.

(** Socket 1 waits and closes; sockets 2 and 3 then ask for a match. *)
Lemma closed_socket_is_never_paired_witness :
  let res :=
    mm_run [Worker.MmCleanup 1%nat; Worker.MmFindMatch "r1" 2%nat;
            Worker.MmFindMatch "r2" 3%nat]
      QueueScenario.mm_queued in
  silent_to 1%nat res.2 ∧ mm_absent 1%nat res.1.
Proof.
  apply (closed_socket_is_never_paired 1%nat
           [Worker.MmFindMatch "r1" 2%nat; Worker.MmFindMatch "r2" 3%nat]
           QueueScenario.mm_queued).
  repeat constructor; simpl; lia.
Defined.

Section ForeignToken.
Context `{TokenRuntime}.

Lemma base64UrlEncode_inj (a b : list Byte.byte) :
  base64UrlEncode a = base64UrlEncode b → a = b.
Proof.
  intros Hab. pose proof (decode_encode a) as Ha.
  rewrite Hab, decode_encode in Ha. congruence.
Qed.

Lemma verify_foreign env secret secret' (bin : string) now :
  Token.ensureSessionSecret env = Some secret' →
  let body := Base64.url_safe (Base64.btoa bin) in
  hmac_sha256 secret' body ≠ hmac_sha256 secret body →
  Token.verifyToken env
    (Some (body +:+ "." +:+ Token.hmacSign secret body)) now
  = None.
Proof.
  intros Hsecret body Hmac. unfold Token.verifyToken.
  rewrite truthy_str_Some by apply token_not_empty.
  rewrite or_str_Some by apply token_not_empty.
  rewrite Hsecret. cbn [negb]. unfold Token.hmacSign at 1. subst body.
  rewrite token_split.
  assert (String.eqb (base64UrlEncode (hmac_sha256 secret
                                         (Base64.url_safe (Base64.btoa bin))))
            (Token.hmacSign secret' (Base64.url_safe (Base64.btoa bin)))
          = false) as ->; [|done].
  apply String.eqb_neq. unfold Token.hmacSign.
  intros Heq. by apply Hmac, base64UrlEncode_inj.
Qed.
End ForeignToken.

(** X16. A token issued under one secret is refused under another secret
    as soon as the two MACs of its body differ: the signatures are
    compared as encoded strings, and the encoding keeps different MACs
    apart.  The clock and the payload play no part in the refusal. *)
Theorem foreign_token_is_refused `{TokenRuntime}
    (env env' : Token.TokenEnv) (secret secret' : string) (sub : number)
    (username : jstring) (now : number) (bin : string) :
  Token.ensureSessionSecret env = Some secret →
  Token.ensureSessionSecret env' = Some secret' →
  Token.binary
    (JSON_stringify
       (token_payload sub username now
          (num_add now
             (num_mul (Number_ (or_str (Token.TOKEN_TTL_SECONDS env) "604800"))
                num_1000))))
  = Some bin →
  hmac_sha256 secret' (Base64.url_safe (Base64.btoa bin))
  ≠ hmac_sha256 secret (Base64.url_safe (Base64.btoa bin)) →
  ∃ token,
    Token.makeToken env sub username now = Some token
    ∧ ∀ now', Token.verifyToken env' (Some token) now' = None.
Proof.
  intros Hsecret Hsecret' Hbin Hmac. eexists. split.
  - unfold Token.makeToken, Token.btoa. rewrite Hsecret. simpl.
    rewrite Hbin. reflexivity.
  - intros now'.
    by apply (verify_foreign env' secret secret' bin now' Hsecret').
Qed.

(** Ann's token is refused by a worker whose secret is another one. *)
Lemma foreign_token_is_refused_witness :
  ∃ token,
    Token.makeToken ToyToken.env 7%N "ann" 1000%N = Some token
    ∧ ∀ now', Token.verifyToken ToyToken.other_env (Some token) now' = None.
Proof.
  apply (@foreign_token_is_refused ToyToken.runtime ToyToken.env
           ToyToken.other_env "s3cret" "0ther" 7%N "ann" 1000%N
           "7,1000,604801000,ann"); first [reflexivity | discriminate].
Defined.

(** ** Settlements that nothing overlaps *)
Section ServerAsyncFacts.
Local Open Scope Z_scope.
Context `{RulesEngine}.
Import Server.

Lemma int4_spec z :
  ServerAsync.int4 z = true ↔ -2147483648 ≤ z ≤ 2147483647.
Proof. unfold ServerAsync.int4. rewrite andb_true_iff, !Z.leb_le. lia. Qed.

Lemma headroom_spec n u :
  ServerAsync.headroom n u = true →
  ∀ i j, 0 ≤ i ≤ 3 * n → 0 ≤ j ≤ n →
    ServerAsync.int4 (or_zero (rating u) + i) = true
    ∧ ServerAsync.int4 (or_zero (gamesPlayed u) + j) = true.
Proof.
  unfold ServerAsync.headroom. rewrite !andb_true_iff, !int4_spec.
  intros (((? & ?) & ?) & ?) i j Hi Hj. rewrite !int4_spec. lia.
Qed.

Lemma with_db_same st : with_db (db st) st = st.
Proof. by destruct st. Qed.

(** [updateUserRating] run to its end is the update of the tables, when
    the store takes the two values. *)
Lemma complete_updateUserRating id nr k st :
  ServerAsync.int4 id = true →
  (∀ e, getUser id (db st) = Some e →
        ServerAsync.int4 nr = true
        ∧ ServerAsync.int4 (or_zero (gamesPlayed e) + 1) = true) →
  ServerAsync.complete (ServerAsync.updateUserRating id nr k) st
  = ServerAsync.complete (k (with_db (updateUserRating id nr (db st)) st))
      (with_db (updateUserRating id nr (db st)) st).
Proof.
  intros Hid Hfit. unfold ServerAsync.updateUserRating.
  cbn [ServerAsync.complete]. rewrite Hid.
  destruct (getUser id (db st)) as [e|] eqn:He.
  - cbn [ServerAsync.complete]. rewrite Hid.
    destruct (Hfit e eq_refl) as [-> ->].
    cbn [andb]. unfold updateUserRating, ServerAsync.update_row.
    rewrite He. unfold getUser in He. by rewrite He.
  - unfold updateUserRating. by rewrite He, with_db_same.
Qed.

Lemma complete_credit_winner (id : State → Z) k st w :
  id st = w → ServerAsync.int4 w = true →
  (∀ u, getUser w (db st) = Some u →
        ServerAsync.int4 (or_zero (rating u) + 3) = true
        ∧ ServerAsync.int4 (or_zero (gamesPlayed u) + 1) = true) →
  let d1 :=
    match getUser w (db st) with
    | Some u => updateUserRating w (or_zero (rating u) + 3) (db st)
    | None => db st
    end in
  ServerAsync.complete (ServerAsync.credit_winner id k st) st
  = ServerAsync.complete (k (with_db d1 st)) (with_db d1 st).
Proof.
  intros Hid Hw Hfit d1. subst d1. unfold ServerAsync.credit_winner.
  cbn [ServerAsync.complete]. rewrite Hid, Hw.
  destruct (getUser w (db st)) as [u|] eqn:Hu.
  - apply complete_updateUserRating; [done|]. intros e He.
    rewrite Hu in He. injection He as <-. by apply Hfit.
  - by rewrite with_db_same.
Qed.

Lemma complete_count_game (id : State → Z) k st w :
  id st = w → ServerAsync.int4 w = true →
  (∀ u, getUser w (db st) = Some u →
        ServerAsync.int4 (or_zero (rating u)) = true
        ∧ ServerAsync.int4 (or_zero (gamesPlayed u) + 1) = true) →
  let d1 := updateUserRating w (rating_or_zero w (db st)) (db st) in
  ServerAsync.complete (ServerAsync.count_game id k st) st
  = ServerAsync.complete (k (with_db d1 st)) (with_db d1 st).
Proof.
  intros Hid Hw Hfit d1. subst d1. unfold ServerAsync.count_game.
  cbn [ServerAsync.complete]. rewrite Hid, Hw.
  apply complete_updateUserRating; [done|]. intros e He.
  destruct (Hfit e He) as [Hr Hg]. split; [|done].
  unfold rating_or_zero. by rewrite He.
Qed.

Lemma room_now_found roomId room0 room st st' :
  rooms st' = rooms st →
  jmap_get roomId (rooms st) = Some room →
  ServerAsync.room_now roomId room0 st' = room.
Proof. intros Hr Hroom. unfold ServerAsync.room_now. by rewrite Hr, Hroom. Qed.

Lemma getUser_update id nr d x :
  getUser x (updateUserRating id nr d)
  = if decide (x = id)
    then (λ u, {| rating := Some nr;
                  gamesPlayed := Some (or_zero (gamesPlayed u) + 1) |})
           <$> getUser x d
    else getUser x d.
Proof. apply server_update_lookup. Qed.

Lemma second_fits x y nr d :
  (∀ u, getUser x d = Some u →
        or_zero (rating u) ≤ nr ≤ or_zero (rating u) + 3) →
  (∀ u, getUser y d = Some u → ServerAsync.headroom 1 u = true) →
  (x = y → ∀ u, getUser y d = Some u → ServerAsync.headroom 2 u = true) →
  ∀ u, getUser y (updateUserRating x nr d) = Some u →
       ServerAsync.int4 (or_zero (rating u)) = true
       ∧ ServerAsync.int4 (or_zero (rating u) + 3) = true
       ∧ ServerAsync.int4 (or_zero (gamesPlayed u) + 1) = true.
Proof.
  intros Hnr H1 H2 u. rewrite getUser_update.
  destruct (decide (y = x)) as [->|Hne].
  - destruct (getUser x d) as [ux|] eqn:Hx; [|done]. simpl. intros [= <-].
    simpl. specialize (Hnr ux eq_refl).
    pose proof (headroom_spec 2 ux (H2 eq_refl ux eq_refl)) as Hh.
    destruct (Hh (nr - or_zero (rating ux)) 2) as [Ha Hb]; [lia..|].
    destruct (Hh (nr - or_zero (rating ux) + 3) 2) as [Hc _]; [lia..|].
    replace (or_zero (rating ux) + (nr - or_zero (rating ux))) with nr
      in Ha by lia.
    replace (or_zero (rating ux) + (nr - or_zero (rating ux) + 3))
      with (nr + 3) in Hc by lia.
    replace (or_zero (gamesPlayed ux) + 1 + 1)
      with (or_zero (gamesPlayed ux) + 2) by lia. done.
  - intros Hu. pose proof (headroom_spec 1 u (H1 u Hu)) as Hh.
    destruct (Hh 0 1) as [Ha Hb]; [lia..|].
    destruct (Hh 3 1) as [Hc _]; [lia..|].
    by rewrite Z.add_0_r in Ha.
Qed.

Lemma first_fits x d :
  (∀ u, getUser x d = Some u → ServerAsync.headroom 1 u = true) →
  ∀ u, getUser x d = Some u →
       ServerAsync.int4 (or_zero (rating u)) = true
       ∧ ServerAsync.int4 (or_zero (rating u) + 3) = true
       ∧ ServerAsync.int4 (or_zero (gamesPlayed u) + 1) = true.
Proof.
  intros H1 u Hu. pose proof (headroom_spec 1 u (H1 u Hu)) as Hh.
  destruct (Hh 0 1) as [Ha Hb]; [lia..|].
  destruct (Hh 3 1) as [Hc _]; [lia..|].
  by rewrite Z.add_0_r in Ha.
Qed.

(** The handler run alone is the step of the tables taken at once, when
    the accounts of the two seats have room for one settlement each, and
    for two if they are one account. *)
Lemma game_over_alone st ws roomId res wc room w b :
  jmap_get roomId (rooms st) = Some room →
  whiteId room = Some w → blackId room = Some b → w ≠ 0 → b ≠ 0 →
  ServerAsync.int4 w = true → ServerAsync.int4 b = true →
  (∀ u, getUser w (db st) = Some u → ServerAsync.headroom 1 u = true) →
  (∀ u, getUser b (db st) = Some u → ServerAsync.headroom 1 u = true) →
  (w = b → ∀ u, getUser w (db st) = Some u →
           ServerAsync.headroom 2 u = true) →
  ServerAsync.complete (ServerAsync.game_over ws roomId res wc st) st
  = handle_game_over ws roomId res wc st.
Proof.
  intros Hroom Hw Hb Hw0 Hb0 Hwr Hbr H1w H1b H2.
  unfold ServerAsync.game_over, handle_game_over. rewrite Hroom, Hw, Hb.
  rewrite (truthy_num_Some w Hw0), (truthy_num_Some b Hb0). cbn [andb].
  assert (∀ st', rooms st' = rooms st →
                 or_zero (whiteId (ServerAsync.room_now roomId room st')) = w)
    as Hwid.
  { intros st' Hr. by rewrite (room_now_found _ _ room st st' Hr Hroom), Hw. }
  assert (∀ st', rooms st' = rooms st →
                 or_zero (blackId (ServerAsync.room_now roomId room st')) = b)
    as Hbid.
  { intros st' Hr. by rewrite (room_now_found _ _ room st st' Hr Hroom), Hb. }
  assert (b = w → ∀ u, getUser b (db st) = Some u →
                  ServerAsync.headroom 2 u = true) as H2'.
  { intros ->. by apply H2. }
  assert (w = b → ∀ u, getUser b (db st) = Some u →
                  ServerAsync.headroom 2 u = true) as H2''.
  { intros ->. by apply H2. }
  destruct wc as [[| |]|].
  - rewrite (complete_credit_winner _ _ st w (Hwid st eq_refl) Hwr).
    2:{ intros u Hu. by destruct (first_fits w (db st) H1w u Hu) as (_ & ? & ?). }
    set (d1 := match getUser w (db st) with Some u => _ | None => _ end).
    rewrite (complete_count_game _ _ (with_db d1 st) b (Hbid _ eq_refl) Hbr).
    2:{ intros u Hu. cbn [db with_db] in Hu. subst d1.
        destruct (getUser w (db st)) as [uw|] eqn:Huw.
        - apply (second_fits w b _ (db st)) in Hu as (? & _ & ?);
            [done| |done|done].
          intros u' Hu'. rewrite Huw in Hu'. injection Hu' as <-. lia.
        - by destruct (first_fits b (db st) H1b u Hu) as (? & _ & ?). }
    cbn [ServerAsync.complete db with_db].
    unfold ServerAsync.room_now. cbn [rooms with_db]. rewrite Hroom.
    cbn [default from_option id whitePlayerId blackPlayerId].
    rewrite Hw, Hb. cbn [or_zero default from_option id].
    rewrite Hwr, Hbr. reflexivity.
  - rewrite (complete_credit_winner _ _ st b (Hbid st eq_refl) Hbr).
    2:{ intros u Hu. by destruct (first_fits b (db st) H1b u Hu) as (_ & ? & ?). }
    set (d1 := match getUser b (db st) with Some u => _ | None => _ end).
    rewrite (complete_count_game _ _ (with_db d1 st) w (Hwid _ eq_refl) Hwr).
    2:{ intros u Hu. cbn [db with_db] in Hu. subst d1.
        destruct (getUser b (db st)) as [ub|] eqn:Hub.
        - apply (second_fits b w _ (db st)) in Hu as (? & _ & ?);
            [done| |done|intros E; symmetry in E; by apply H2].
          intros u' Hu'. rewrite Hub in Hu'. injection Hu' as <-. lia.
        - by destruct (first_fits w (db st) H1w u Hu) as (? & _ & ?). }
    cbn [ServerAsync.complete db with_db].
    unfold ServerAsync.room_now. cbn [rooms with_db]. rewrite Hroom.
    cbn [default from_option id whitePlayerId blackPlayerId].
    rewrite Hw, Hb. cbn [or_zero default from_option id].
    rewrite Hwr, Hbr. reflexivity.
  - rewrite (complete_count_game _ _ st w (Hwid st eq_refl) Hwr).
    2:{ intros u Hu. by destruct (first_fits w (db st) H1w u Hu) as (? & _ & ?). }
    set (d1 := updateUserRating w _ (db st)).
    rewrite (complete_count_game _ _ (with_db d1 st) b (Hbid _ eq_refl) Hbr).
    2:{ intros u Hu. cbn [db with_db] in Hu. subst d1.
        apply (second_fits w b _ (db st)) in Hu as (? & _ & ?);
          [done| |done|done].
        intros u' Hu'. unfold rating_or_zero. rewrite Hu'. simpl. lia. }
    cbn [ServerAsync.complete db with_db].
    unfold ServerAsync.room_now. cbn [rooms with_db]. rewrite Hroom.
    cbn [default from_option id whitePlayerId blackPlayerId].
    rewrite Hw, Hb. cbn [or_zero default from_option id].
    rewrite Hwr, Hbr. reflexivity.
  - rewrite (complete_count_game _ _ st w (Hwid st eq_refl) Hwr).
    2:{ intros u Hu. by destruct (first_fits w (db st) H1w u Hu) as (? & _ & ?). }
    set (d1 := updateUserRating w _ (db st)).
    rewrite (complete_count_game _ _ (with_db d1 st) b (Hbid _ eq_refl) Hbr).
    2:{ intros u Hu. cbn [db with_db] in Hu. subst d1.
        apply (second_fits w b _ (db st)) in Hu as (? & _ & ?);
          [done| |done|done].
        intros u' Hu'. unfold rating_or_zero. rewrite Hu'. simpl. lia. }
    cbn [ServerAsync.complete db with_db].
    unfold ServerAsync.room_now. cbn [rooms with_db]. rewrite Hroom.
    cbn [default from_option id whitePlayerId blackPlayerId].
    rewrite Hw, Hb. cbn [or_zero default from_option id].
    rewrite Hwr, Hbr. reflexivity.
Qed.
End ServerAsyncFacts.

Section WorkerAsyncFacts.
Local Open Scope Z_scope.
Import Worker.

Lemma safe_spec z :
  WorkerAsync.safe z = true ↔ - 2 ^ 53 ≤ z ≤ 2 ^ 53.
Proof. unfold WorkerAsync.safe. rewrite Z.leb_le. lia. Qed.

Lemma to_double_safe z : WorkerAsync.safe z = true → WorkerAsync.to_double z = z.
Proof. unfold WorkerAsync.safe, WorkerAsync.to_double. by intros ->. Qed.

Lemma worker_headroom_spec n row :
  WorkerAsync.headroom n row = true →
  ∀ i j, 0 ≤ i ≤ 3 * n → 0 ≤ j ≤ n →
    WorkerAsync.safe (or_zero (rating row) + i) = true
    ∧ WorkerAsync.safe (or_zero (games_played row) + j) = true
    ∧ WorkerAsync.safe (or_zero (wins row) + j) = true
    ∧ WorkerAsync.safe (or_zero (losses row) + j) = true
    ∧ WorkerAsync.safe (or_zero (draws row) + j) = true.
Proof.
  unfold WorkerAsync.headroom. rewrite !andb_true_iff, !safe_spec.
  intros Hh i j Hi Hj. rewrite !safe_spec. lia.
Qed.

Lemma bump_bounds f g : 0 ≤ bump f g ≤ 1.
Proof. unfold bump. case_decide; lia. Qed.

Lemma updated_exact row f delta :
  WorkerAsync.headroom 1 row = true → 0 ≤ delta ≤ 3 →
  WorkerAsync.updated row f delta = updated row f delta.
Proof.
  intros Hh Hd. pose proof (worker_headroom_spec 1 row Hh) as Hs.
  destruct (Hs 0 0) as (R0 & G0 & W0 & L0 & D0); [lia..|].
  rewrite !Z.add_0_r in R0, G0, W0, L0, D0.
  destruct (Hs delta 1) as (R1 & G1 & _); [lia..|].
  pose proof (bump_bounds f Wins). pose proof (bump_bounds f Losses).
  pose proof (bump_bounds f Draws).
  destruct (Hs 0 (bump f Wins)) as (_ & _ & W1 & _); [lia..|].
  destruct (Hs 0 (bump f Losses)) as (_ & _ & _ & L1 & _); [lia..|].
  destruct (Hs 0 (bump f Draws)) as (_ & _ & _ & _ & D1); [lia..|].
  unfold WorkerAsync.updated, updated, WorkerAsync.plus, WorkerAsync.number.
  by rewrite !(to_double_safe _ R0), !(to_double_safe _ G0),
    !(to_double_safe _ W0), !(to_double_safe _ L0), !(to_double_safe _ D0),
    (to_double_safe _ R1), (to_double_safe _ G1), (to_double_safe _ W1),
    (to_double_safe _ L1), (to_double_safe _ D1).
Qed.

Lemma headroom_updated row f delta :
  WorkerAsync.headroom 2 row = true → 0 ≤ delta ≤ 3 →
  WorkerAsync.headroom 1 (updated row f delta) = true.
Proof.
  intros Hh Hd. unfold WorkerAsync.headroom in *.
  pose proof (bump_bounds f Wins). pose proof (bump_bounds f Losses).
  pose proof (bump_bounds f Draws).
  rewrite !andb_true_iff, !safe_spec in *. simpl. lia.
Qed.

Lemma headroom_weaken row :
  WorkerAsync.headroom 2 row = true → WorkerAsync.headroom 1 row = true.
Proof.
  unfold WorkerAsync.headroom. rewrite !andb_true_iff, !safe_spec. lia.
Qed.

Lemma complete_inc id f delta k d :
  (∀ row, users d !! id = Some row → WorkerAsync.headroom 1 row = true) →
  0 ≤ delta ≤ 3 →
  WorkerAsync.complete (WorkerAsync.inc id f delta k) d
  = WorkerAsync.complete k (inc id f delta d).
Proof.
  intros Hh Hd. unfold WorkerAsync.inc, inc. cbn [WorkerAsync.complete].
  destruct (users d !! id) as [row|] eqn:Hrow; [|done].
  cbn [WorkerAsync.complete]. unfold WorkerAsync.update_row.
  by rewrite Hrow, (updated_exact row f delta (Hh row eq_refl) Hd).
Qed.

Lemma second_row_fits x y f delta d :
  0 ≤ delta ≤ 3 →
  (∀ row, users d !! y = Some row → WorkerAsync.headroom 1 row = true) →
  (x = y → ∀ row, users d !! y = Some row →
           WorkerAsync.headroom 2 row = true) →
  ∀ row, users (inc x f delta d) !! y = Some row →
         WorkerAsync.headroom 1 row = true.
Proof.
  intros Hd H1 H2 row. rewrite worker_inc_users.
  destruct (decide (y = x)) as [->|Hne]; [|apply H1].
  destruct (users d !! x) as [rx|] eqn:Hx; [|done]. simpl. intros [= <-].
  apply headroom_updated; [|done]. by apply H2.
Qed.

Lemma handleGameOver_alone res wc now r d w b :
  m_id (whiteMeta r) = Some w → m_id (blackMeta r) = Some b →
  (∀ row, users d !! w = Some row → WorkerAsync.headroom 1 row = true) →
  (∀ row, users d !! b = Some row → WorkerAsync.headroom 1 row = true) →
  (w = b → ∀ row, users d !! w = Some row →
           WorkerAsync.headroom 2 row = true) →
  WorkerAsync.complete (WorkerAsync.handleGameOver res wc now r) d
  = handleGameOver res wc now r d.
Proof.
  intros Hw Hb H1w H1b H2.
  unfold WorkerAsync.handleGameOver, handleGameOver. rewrite Hw, Hb.
  destruct (truthy_num (Some w) && truthy_num (Some b)); [|done].
  cbn [WorkerAsync.complete].
  set (d0 := {| users := users d; games := _ |}).
  destruct wc as [[| |]|].
  - rewrite (complete_inc w Wins 3 _ d0) by (done || lia).
    rewrite (complete_inc b Losses 0); [done| |lia].
    apply second_row_fits; [lia|done|]. intros ->. by apply H2.
  - rewrite (complete_inc b Wins 3 _ d0) by (done || lia).
    rewrite (complete_inc w Losses 0); [done| |lia].
    apply second_row_fits; [lia|done|]. intros E. by apply H2.
  - rewrite (complete_inc w Draws 0 _ d0) by (done || lia).
    rewrite (complete_inc b Draws 0); [done| |lia].
    apply second_row_fits; [lia|done|]. intros ->. by apply H2.
  - rewrite (complete_inc w Draws 0 _ d0) by (done || lia).
    rewrite (complete_inc b Draws 0); [done| |lia].
    apply second_row_fits; [lia|done|]. intros ->. by apply H2.
Qed.
End WorkerAsyncFacts.

Section AloneFacts.
Local Open Scope Z_scope.

Lemma server_headroom_weaken u :
  ServerAsync.headroom 2 u = true → ServerAsync.headroom 1 u = true.
Proof.
  unfold ServerAsync.headroom. rewrite !andb_true_iff, !int4_spec. lia.
Qed.

Lemma truthy_num_inv (o : option Z) :
  truthy_num o = true → ∃ n, o = Some n ∧ n ≠ 0.
Proof.
  destruct o as [n|]; [|done]. simpl. intros Hn. exists n. split; [done|].
  intros ->. done.
Qed.

Lemma seats_in_range_room `{RulesEngine} st roomId room :
  ServerAsync.seats_in_range st = true →
  jmap_get roomId (Server.rooms st) = Some room →
  ServerAsync.int4 (or_zero (Server.whiteId room)) = true
  ∧ ServerAsync.int4 (or_zero (Server.blackId room)) = true.
Proof.
  intros Hs Hroom. unfold ServerAsync.seats_in_range in Hs.
  rewrite forallb_forall in Hs.
  apply jmap_get_elem_of, list_elem_of_In in Hroom.
  by apply Hs, andb_prop in Hroom.
Qed.

Lemma server_alone_step `{RulesEngine} ev st :
  ServerAsync.roomy 2 (Server.db st) = true →
  ServerAsync.seats_in_range st = true →
  ServerAsync.alone ev st = Server.step ev st.
Proof.
  intros Hroomy Hseats. apply bool_decide_eq_true in Hroomy.
  destruct ev as [e ws [u|u|roomId u n|roomId f t p x|roomId res wc]|ws];
    try reflexivity.
  simpl. destruct (jmap_get roomId (Server.rooms st)) as [room|] eqn:Hroom.
  2:{ unfold ServerAsync.game_over, Server.handle_game_over.
      by rewrite Hroom. }
  destruct (truthy_num (Server.whiteId room)
            && truthy_num (Server.blackId room)) eqn:Hids.
  - apply andb_prop in Hids as [Hw Hb].
    apply truthy_num_inv in Hw as (w & Hw & Hw0).
    apply truthy_num_inv in Hb as (b & Hb & Hb0).
    destruct (seats_in_range_room st roomId room Hseats Hroom) as [Hwr Hbr].
    rewrite Hw in Hwr. rewrite Hb in Hbr.
    apply (game_over_alone st ws roomId res wc room w b); try done.
    + intros u Hu. apply server_headroom_weaken. by eapply Hroomy.
    + intros u Hu. apply server_headroom_weaken. by eapply Hroomy.
    + intros _ u Hu. by eapply Hroomy.
  - unfold ServerAsync.game_over, Server.handle_game_over.
    rewrite Hroom, Hids. cbn [ServerAsync.complete].
    unfold ServerAsync.room_now. rewrite Hroom. cbn [default from_option id].
    by rewrite with_db_same.
Qed.

Lemma worker_alone_step ev w :
  WorkerAsync.roomy 2 w.2 = true →
  WorkerAsync.alone ev w = Worker.step ev w.
Proof.
  intros Hroomy. apply bool_decide_eq_true in Hroomy.
  destruct ev as [s auth|s [from to f p|res wc] now|s]; try reflexivity.
  simpl. f_equal. f_equal.
  destruct (Worker.m_id (Worker.whiteMeta w.1)) as [wid|] eqn:Hw.
  2:{ unfold WorkerAsync.handleGameOver, Worker.handleGameOver.
      by rewrite Hw. }
  destruct (Worker.m_id (Worker.blackMeta w.1)) as [bid|] eqn:Hb.
  2:{ unfold WorkerAsync.handleGameOver, Worker.handleGameOver.
      by rewrite Hw, Hb. }
  apply (handleGameOver_alone _ _ _ _ _ wid bid); try done.
  - intros row Hrow. apply headroom_weaken. by eapply Hroomy.
  - intros row Hrow. apply headroom_weaken. by eapply Hroomy.
  - intros _ row Hrow. by eapply Hroomy.
Qed.

(** Whatever the schedule, accounts and records stay. *)
Lemma server_db_keeps_refl d : server_db_keeps d d.
Proof. by split. Qed.

Lemma server_db_keeps_trans d1 d2 d3 :
  server_db_keeps d1 d2 → server_db_keeps d2 d3 → server_db_keeps d1 d3.
Proof.
  intros [U1 G1] [U2 G2]. split; [intros id Hid; by apply U2, U1|].
  by etrans.
Qed.

Lemma server_grows_keeps d d' : server_db_grows d d' → server_db_keeps d d'.
Proof.
  intros [U G]. split; [|done]. intros id [u Hu].
  specialize (U id). rewrite Hu in U. inversion U. by eexists.
Qed.

Lemma server_resume_keeps `{RulesEngine} t st :
  server_db_keeps (Server.db st) (Server.db (ServerAsync.resume t st).1).
Proof.
  destruct t as [out|id k|id r g k|g k]; simpl;
    try apply server_db_keeps_refl.
  - destruct (ServerAsync.int4 id); apply server_db_keeps_refl.
  - destruct (ServerAsync.int4 id && ServerAsync.int4 r && ServerAsync.int4 g);
      [|apply server_db_keeps_refl].
    simpl. unfold ServerAsync.update_row.
    destruct (Server.users (Server.db st) !! id) as [u|] eqn:Hu;
      [|apply server_db_keeps_refl].
    split; [|done]. simpl. intros x Hx.
    destruct (decide (x = id)) as [->|Hne].
    + rewrite lookup_insert_eq. by eexists.
    + by rewrite lookup_insert_ne.
  - destruct (_ && _); [|apply server_db_keeps_refl].
    split; [done|]. simpl. by apply prefix_app_r.
Qed.

Lemma server_act_keeps `{RulesEngine} a p :
  server_db_keeps (Server.db p.1) (Server.db (ServerAsync.act a p).1.1).
Proof.
  destruct a as [ev|i].
  - destruct ev as [e ws [u|u|roomId u n|roomId f t x y|roomId res wc]|ws];
      try (apply server_grows_keeps, server_step_grows).
    simpl. destruct (ServerAsync.game_over ws roomId res wc p.1);
      apply server_db_keeps_refl.
  - simpl. destruct (p.2 !! i) as [t|]; [|apply server_db_keeps_refl].
    pose proof (server_resume_keeps t p.1) as Hk.
    destruct (ServerAsync.resume t p.1) as [st' t']. by destruct t'.
Qed.

Lemma server_acts_keeps `{RulesEngine} l p :
  server_db_keeps (Server.db p.1) (Server.db (ServerAsync.acts l p).1.1).
Proof.
  revert p. induction l as [|a l IH]; intros p; [apply server_db_keeps_refl|].
  simpl. eapply server_db_keeps_trans; [apply server_act_keeps | apply IH].
Qed.

Lemma worker_db_keeps_refl d : worker_db_keeps d d.
Proof. by split. Qed.

Lemma worker_db_keeps_trans d1 d2 d3 :
  worker_db_keeps d1 d2 → worker_db_keeps d2 d3 → worker_db_keeps d1 d3.
Proof.
  intros [U1 G1] [U2 G2]. split; [intros id Hid; by apply U2, U1|].
  by etrans.
Qed.

Lemma worker_resume_keeps t d :
  worker_db_keeps d (WorkerAsync.resume t d).1.
Proof.
  destruct t as [|g k|id k|id row k]; simpl;
    try apply worker_db_keeps_refl.
  - split; [done|]. simpl. by apply prefix_app_r.
  - unfold WorkerAsync.update_row.
    destruct (Worker.users d !! id) as [u|] eqn:Hu;
      [|apply worker_db_keeps_refl].
    split; [|done]. simpl. intros x Hx.
    destruct (decide (x = id)) as [->|Hne].
    + rewrite lookup_insert_eq. by eexists.
    + by rewrite lookup_insert_ne.
Qed.

Lemma worker_act_keeps a p :
  worker_db_keeps p.1.2 (WorkerAsync.act a p).1.1.2.
Proof.
  destruct a as [ev|i].
  - destruct ev as [s auth|s [from to f x|res wc] now|s];
      try apply worker_db_keeps_refl.
    simpl. destruct (WorkerAsync.handleGameOver _ wc now p.1.1);
      apply worker_db_keeps_refl.
  - simpl. destruct (p.2 !! i) as [t|]; [|apply worker_db_keeps_refl].
    pose proof (worker_resume_keeps t p.1.2) as Hk.
    destruct (WorkerAsync.resume t p.1.2) as [d' t']. by destruct t'.
Qed.

Lemma worker_acts_keeps l p :
  worker_db_keeps p.1.2 (WorkerAsync.acts l p).1.1.2.
Proof.
  revert p. induction l as [|a l IH]; intros p; [apply worker_db_keeps_refl|].
  simpl. eapply worker_db_keeps_trans; [apply worker_act_keeps | apply IH].
Qed.
End AloneFacts.

Section SecondSettlement.
Local Open Scope Z_scope.




End SecondSettlement.


(** For the room of the examples, the handler resumed seven times in a
    row is the handler run alone. *)
Example sequential_schedule_is_alone :
  ServerAsync.acts
    (ServerAsync.Arrive Scenario.white_wins
     :: replicate 7 (ServerAsync.Resume 0))
    (Scenario.seated, [])
  = ((ServerAsync.alone Scenario.white_wins Scenario.seated).1, [],
     (ServerAsync.alone Scenario.white_wins Scenario.seated).2).
Proof. vm_compute. reflexivity. Qed.

(** Two [game_over] for the same room whose handlers take turns at every
    await: both records are written, but each account is written back
    from the same read, and one gain and one game are left. *)
Example overlapping_game_over_settles_once :
  let turns :=
    [ServerAsync.Resume 0; ServerAsync.Resume 1]%nat in
  let server :=
    (ServerAsync.acts
       ([ServerAsync.Arrive Scenario.white_wins;
         ServerAsync.Arrive Scenario.white_wins]
        ++ turns ++ turns ++ turns ++ turns ++ turns ++ turns
        ++ [ServerAsync.Resume 0; ServerAsync.Resume 0]%nat)
       (Scenario.seated, [])).1 in
  let wturns :=
    [WorkerAsync.Resume 0; WorkerAsync.Resume 1]%nat in
  let worker :=
    (WorkerAsync.acts
       ([WorkerAsync.Arrive WorkerScenario.white_wins;
         WorkerAsync.Arrive WorkerScenario.white_wins]
        ++ wturns ++ wturns ++ wturns ++ wturns
        ++ [WorkerAsync.Resume 0; WorkerAsync.Resume 0]%nat)
       (WorkerScenario.seated, [])).1 in
  server.2 = []
  ∧ Server.getUser 7 (Server.db server.1)
    = Some {| Server.rating := Some 1203; Server.gamesPlayed := Some 11 |}
  ∧ Server.getUser 8 (Server.db server.1)
    = Some {| Server.rating := Some 1100; Server.gamesPlayed := Some 5 |}
  ∧ length (Server.games (Server.db server.1)) = 2%nat
  ∧ worker.2 = []
  ∧ Worker.users worker.1.2 !! 7 = Some (WorkerScenario.row 1203 11 7 3 1)
  ∧ Worker.users worker.1.2 !! 8 = Some (WorkerScenario.row 1100 5 1 4 0)
  ∧ length (Worker.games worker.1.2) = 2%nat.
Proof. vm_compute. repeat split. Qed.

(** A settlement that read a rating before another one raised it writes
    the old rating back. *)
Example overlap_lowers_a_rating :
  let black_wins :=
    Server.Message Opening.env 1%nat
      (Server.GameOver "r" (Some "Đen thắng") (Some B)) in
  let raised :=
    (ServerAsync.acts
       ([ServerAsync.Arrive Scenario.white_wins; ServerAsync.Arrive black_wins]
        ++ replicate 4 (ServerAsync.Resume 0)
        ++ replicate 3 (ServerAsync.Resume 1))
       (Scenario.seated, [])).1 in
  let written_back :=
    (ServerAsync.acts (replicate 2 (ServerAsync.Resume 0)) raised).1 in
  (Server.rating <$> Server.getUser 8 (Server.db raised.1)) = Some (Some 1103)
  ∧ (Server.rating <$> Server.getUser 8 (Server.db written_back.1))
    = Some (Some 1100).
Proof. vm_compute. repeat split. Qed.






(** X14. An event handled with no other handler in between removes no
    account and no game record and lowers no rating or counter: every
    account stays, its rating rises by at most 3 and its games counter by
    at most 2 (the two settlements of a user seated on both sides), and in
    the worker the wins, losses and draws of a row rise together by as
    much as its games counter; this for stores whose accounts have room
    for two settlements and rooms whose seat identities the store takes as
    keys.  Whatever the order in which events arrive and
    waiting handlers are resumed, no account and no game record is ever
    removed. *)
Theorem accounts_grow_without_overlap `{RulesEngine} :
  (∀ ev st,
     ServerAsync.roomy 2 (Server.db st) = true →
     ServerAsync.seats_in_range st = true →
     server_db_grows (Server.db st) (Server.db (ServerAsync.alone ev st).1))
  ∧ (∀ ev w,
       WorkerAsync.roomy 2 w.2 = true →
       worker_db_grows w.2 (WorkerAsync.alone ev w).1.2)
  ∧ (∀ l p,
       server_db_keeps (Server.db p.1) (Server.db (ServerAsync.acts l p).1.1))
  ∧ (∀ l p, worker_db_keeps p.1.2 (WorkerAsync.acts l p).1.1.2).
Proof.
  split; [|split; [|split]].
  - intros ev st Hroomy Hseats.
    rewrite (server_alone_step ev st Hroomy Hseats).
    apply server_step_grows.
  - intros ev w Hroomy. rewrite (worker_alone_step ev w Hroomy).
    apply worker_step_grows.
  - apply server_acts_keeps.
  - apply worker_acts_keeps.
Qed.

(** White wins the game of users 7 and 8, on either coordinator. *)
Lemma accounts_grow_without_overlap_witness :
  server_db_grows (Server.db Scenario.seated)
    (Server.db (ServerAsync.alone Scenario.white_wins Scenario.seated).1)
  ∧ worker_db_grows WorkerScenario.seated.2
      (WorkerAsync.alone WorkerScenario.white_wins WorkerScenario.seated).1.2.
Proof.
  split.
  - apply (proj1 accounts_grow_without_overlap Scenario.white_wins
             Scenario.seated); reflexivity.
  - apply (proj1 (proj2 accounts_grow_without_overlap)
             WorkerScenario.white_wins WorkerScenario.seated). reflexivity.
Defined.

(** X12. [base64UrlDecodeToBytes] undoes [base64UrlEncode] on every byte
    sequence that the encoder can spread as the arguments of one call:
    the encoder returns, [atob] does not throw on what it returned, the
    bytes are read back, and the encoding is made of letters, digits, [-]
    and [_] only. *)
Theorem base64url_round_trip_within_limit `{Engine} (bs : list Byte.byte) :
  (length bs ≤ max_arguments)%nat →
  ∃ s,
    base64UrlEncode_spread bs = Some s
    ∧ base64UrlDecodeToBytes s = Some bs
    ∧ all_chars is_url_digit s = true.
Proof.
  intros Hlen. exists (base64UrlEncode bs). split; [|split].
  - unfold base64UrlEncode_spread.
    by destruct (Nat.leb_spec (length bs) max_arguments); [|lia].
  - apply decode_encode.
  - apply url_safe_digits.
Qed.

Lemma base64url_round_trip_within_limit_witness :
  ∃ s,
    base64UrlEncode_spread [Byte.xfb; Byte.xff; Byte.xfe] = Some s
    ∧ base64UrlDecodeToBytes s = Some [Byte.xfb; Byte.xff; Byte.xfe]
    ∧ all_chars is_url_digit s = true.
Proof.
  apply (base64url_round_trip_within_limit [Byte.xfb; Byte.xff; Byte.xfe]).
  vm_compute. lia.
Defined.
